(** * afvoices: segmentation, masks, retry and manifest helpers

    A shallow embedding of the pure cores of the scripts under [scripts/]
    and the properties their design document states about them.

    Conventions of the embedding:
    - Python [int] is [Z]; Python [float] is idealised as an exact rational
      [Q] (no rounding error, no NaN, no infinities);
    - a call that can raise is a value of [outcome]: [Returned v] or
      [Raised e];
    - numpy boolean arrays are [list bool], indexed from 0. *)

From Stdlib Require Import ZArith QArith Qround Qabs Lia Lqa List Bool Ascii String.
From stdpp Require Import base option list strings gmap sorting pretty.

(** ** Python values and arithmetic *)

Module Py.

Inductive exn : Type :=
| ZeroDivisionError
| TypeError
| OverflowError
| ValueError
| IOError (tag : nat).

Inductive outcome (A : Type) : Type :=
| Returned (a : A)
| Raised (e : exn).

Arguments Returned {A} a.
Arguments Raised {A} e.

#[export] Instance outcome_ret : MRet outcome := fun A a => Returned a.

#[export] Instance outcome_bind : MBind outcome := fun A B f m =>
  match m with
  | Returned a => f a
  | Raised e => Raised e
  end.

#[export] Instance outcome_fmap : FMap outcome := fun A B f m =>
  match m with
  | Returned a => Returned (f a)
  | Raised e => Raised e
  end.

(** [int(x)] on a float: truncation toward zero. *)
Definition py_int (x : Q) : Z := Z.quot (Qnum x) (Zpos (Qden x)).

(** [a / b] on numbers. *)
Definition truediv (a b : Q) : outcome Q :=
  if Qeq_bool b 0 then Raised ZeroDivisionError else Returned (a / b)%Q.

(** [a // b] on floats: the floor of the quotient, as a float. *)
Definition floordiv (a b : Q) : outcome Q :=
  if Qeq_bool b 0 then Raised ZeroDivisionError
  else Returned (inject_Z (Qfloor (a / b))).

(** [a > b], [a >= b] and [a < b] on floats. *)
Definition Qgtb (a b : Q) : bool := negb (Qle_bool a b).
Definition Qgeb (a b : Q) : bool := Qle_bool b a.
Definition Qltb (a b : Q) : bool := negb (Qle_bool b a).

(** [range(n)]: empty when [n <= 0]. *)
Definition range (n : Z) : list Z := map Z.of_nat (seq 0 (Z.to_nat n)).

(** [enumerate(l)]. *)
Definition enumerate {A : Type} (l : list A) : list (nat * A) :=
  combine (seq 0 (length l)) l.

(** [round(x)] on a float: nearest integer, ties to the even one. *)
Definition round (x : Q) : Z :=
  let f := Qfloor x in
  let d := (x - inject_Z f)%Q in
  match (d ?= 1 # 2)%Q with
  | Lt => f
  | Gt => (f + 1)%Z
  | Eq => if Z.even f then f else (f + 1)%Z
  end.

End Py.

(** ** Python floats *)

Module Binary64.

Import Py.
Local Open Scope Z_scope.

(** A Python float is an IEEE 754 binary64 number. Every finite one is a
    whole multiple of [2^-1074]; [Finite n] is [n * 2^-1074]. The sign of
    zero is not kept: [-0.0 == 0.0], and no operation below tells them
    apart. *)
Inductive float : Type :=
| Finite (n : Z)
| Infinity (negative : bool)
| NaN.

(** [1.0] in units of [2^-1074], and the first magnitude out of range,
    [2^1024]. *)
Definition units : Z := 2 ^ 1074.
Definition out_of_range : Z := 2 ^ 2098.

(** The rational a finite float stands for. *)
Definition value (n : Z) : Q := (inject_Z n / inject_Z units)%Q.

(** Rounding to nearest, ties to even, of [a >= 0] units: between [2^(52+s)]
    and [2^(53+s)] the floats are the multiples of [2^s], below [2^53] they
    are the whole numbers of units. *)
Definition spacing (a : Q) : Z := 2 ^ Z.max 0 (Z.log2 (Qfloor a) - 52).

Definition nearest (a : Q) : Z :=
  round (a / inject_Z (spacing a)) * spacing a.

Definition round_units (a : Q) : Z :=
  if Qle_bool 0 a then nearest a else - nearest (- a).

Definition of_units (n : Z) : float :=
  if out_of_range <=? Z.abs n then Infinity (n <? 0) else Finite n.

(** The float nearest to the rational [q]. *)
Definition fl (q : Q) : float := of_units (round_units (q * inject_Z units)).

(** The values of the type that are floats: a finite one is within range
    and is its own rounding. *)
Definition is_float (x : float) : Prop :=
  match x with
  | Finite n => round_units (inject_Z n) = n ∧ Z.abs n < out_of_range
  | _ => True
  end.

Definition zero : float := Finite 0.
Definition one : float := Finite units.
Definition half : float := Finite (units / 2).

Definition is_zero (x : float) : bool :=
  match x with
  | Finite n => n =? 0
  | _ => false
  end.

Definition negative (x : float) : bool :=
  match x with
  | Finite n => n <? 0
  | Infinity s => s
  | NaN => false
  end.

(** [float(z)] for an int [z], and the conversion of an int operand of a
    float operation. *)
Definition of_int (z : Z) : outcome float :=
  match fl (inject_Z z) with
  | Infinity _ => Raised OverflowError
  | x => Returned x
  end.

(** [a / b] on ints: the quotient correctly rounded. *)
Definition int_truediv (a b : Z) : outcome float :=
  if b =? 0 then Raised ZeroDivisionError
  else
    match fl (inject_Z a / inject_Z b) with
    | Infinity _ => Raised OverflowError
    | x => Returned x
    end.

Definition fneg (x : float) : float :=
  match x with
  | Finite n => Finite (- n)
  | Infinity s => Infinity (negb s)
  | NaN => NaN
  end.

(** [x + y], [x - y] and [x * y] on floats. *)
Definition fadd (x y : float) : float :=
  match x, y with
  | NaN, _ | _, NaN => NaN
  | Infinity a, Infinity b => if Bool.eqb a b then x else NaN
  | Infinity _, Finite _ => x
  | Finite _, Infinity _ => y
  | Finite a, Finite b => of_units (round_units (inject_Z (a + b)))
  end.

Definition fsub (x y : float) : float := fadd x (fneg y).

Definition fmul (x y : float) : float :=
  match x, y with
  | NaN, _ | _, NaN => NaN
  | Finite a, Finite b =>
      of_units (round_units (inject_Z (a * b) / inject_Z units))
  | Infinity s, z | z, Infinity s =>
      if is_zero z then NaN else Infinity (xorb s (negative z))
  end.

(** The quotient of two floats, the second not zero. *)
Definition quotient (x y : float) : float :=
  match x, y with
  | NaN, _ | _, NaN => NaN
  | Infinity _, Infinity _ => NaN
  | Infinity s, Finite b => Infinity (xorb s (b <? 0))
  | Finite _, Infinity _ => zero
  | Finite a, Finite b =>
      of_units (round_units (inject_Z (a * units) / inject_Z b))
  end.

(** [x / y] on floats. *)
Definition truediv (x y : float) : outcome float :=
  if is_zero y then Raised ZeroDivisionError else Returned (quotient x y).

(** [x < y], [x <= y], [x > y] and [x >= y] on floats. *)
Definition flt (x y : float) : bool :=
  match x, y with
  | NaN, _ | _, NaN => false
  | Finite a, Finite b => a <? b
  | Infinity s, Infinity t => s && negb t
  | Infinity s, Finite _ => s
  | Finite _, Infinity t => negb t
  end.

Definition fle (x y : float) : bool :=
  match x, y with
  | NaN, _ | _, NaN => false
  | Finite a, Finite b => a <=? b
  | Infinity s, Infinity t => s || negb t
  | Infinity s, Finite _ => s
  | Finite _, Infinity t => negb t
  end.

Definition fgt (x y : float) : bool := flt y x.
Definition fge (x y : float) : bool := fle y x.

(** [int(x)] on a float: truncation toward zero. *)
Definition to_int (x : float) : outcome Z :=
  match x with
  | Finite n => Returned (Z.quot n units)
  | Infinity _ => Raised OverflowError
  | NaN => Raised ValueError
  end.

(** [round(x)] on a float: the nearest int, ties to the even one. *)
Definition py_round (x : float) : outcome Z :=
  match x with
  | Finite n => Returned (round (value n))
  | Infinity _ => Raised OverflowError
  | NaN => Raised ValueError
  end.

(** [round(x, ndigits)] on a float: the float nearest to the decimal with
    [ndigits] places nearest to [x], ties to even. *)
Definition round_to (x : float) (ndigits : Z) : float :=
  match x with
  | Finite n =>
      fl (inject_Z (round (value n * inject_Z (10 ^ ndigits)))
          / inject_Z (10 ^ ndigits))
  | _ => x
  end.

(** The C functions [fmod] (for a divisor that is not zero) and [floor]. *)
Definition fmod (x y : float) : float :=
  match x, y with
  | NaN, _ | _, NaN => NaN
  | Infinity _, _ => NaN
  | Finite _, Infinity _ => x
  | Finite a, Finite b => Finite (Z.rem a b)
  end.

Definition floor (x : float) : float :=
  match x with
  | Finite n => Finite (n / units * units)
  | _ => x
  end.

(** [x // y] on floats, as [float_floor_div] computes it. *)
Definition floordiv (vx wx : float) : outcome float :=
  if is_zero wx then Raised ZeroDivisionError
  else
    let remainder := fmod vx wx in
    let quot := quotient (fsub vx remainder) wx in
    let quot :=
      if negb (is_zero remainder)
         && negb (Bool.eqb (flt wx zero) (flt remainder zero))
      then fsub quot one else quot in
    if is_zero quot then Returned zero
    else
      let floordiv := floor quot in
      Returned (if fgt (fsub quot floordiv) half
                then fadd floordiv one else floordiv).

End Binary64.


Import Py.

(** ** Segment splitter *)

Module Splitter.

Local Open Scope Z_scope.

Inductive seg_type : Type := regular | short.

(** A row of the timestamp table: interval index [i], sub-index [k], the
    sample range and its class. *)
Record segment : Type := Segment {
  seg_i : nat;
  seg_k : nat;
  seg_start : Z;
  seg_end : Z;
  seg_kind : seg_type
}.

(** The sub-range [j] of a long interval:
    [s = start_orig + int(j * max_duration * orig_sr)],
    [e = min(start_orig + int((j + 1) * max_duration * orig_sr), end_orig)]. *)
Definition subseg (start_orig end_orig orig_sr : Z) (max_duration : Q) (j : Z)
  : Z * Z :=
  let s := start_orig + py_int (inject_Z j * max_duration * inject_Z orig_sr) in
  let e := Z.min (start_orig
                  + py_int (inject_Z (j + 1) * max_duration * inject_Z orig_sr))
                 end_orig in
  (s, e).

(** [(e - s) / orig_sr]. *)
Definition dur_sec (s e orig_sr : Z) : outcome Q :=
  truediv (inject_Z (e - s)) (inject_Z orig_sr).

(** Rescaling of a VAD index to the original rate: [int(x * sr_ratio)]. *)
Definition rescale (x : Z) (sr_ratio : Q) : Z := py_int (inject_Z x * sr_ratio).

(** [l] cuts [s, e) into consecutive non-empty ranges: the first starts at
    [s], each next one starts where the previous one ends, and the last ends
    at [e]. *)
Fixpoint tiles (s e : Z) (l : list (Z * Z)) : Prop :=
  match l with
  | [] => s = e
  | (a, b) :: rest => a = s ∧ a < b ∧ tiles b e rest
  end.

(** The offset of the boundary number [j] of a long interval, in samples:
    [int(j * max_duration * orig_sr)]. *)
Definition boundary (orig_sr : Z) (max_duration : Q) (j : Z) : Z :=
  py_int (inject_Z j * max_duration * inject_Z orig_sr).

(** The duration of an interval over [max_duration]. *)
Definition duration_ratio (start_orig end_orig orig_sr : Z) (max_duration : Q)
  : Q :=
  (inject_Z (end_orig - start_orig) / inject_Z orig_sr / max_duration)%Q.

(** The partition of a long interval as the design document words it:
    [ceil(duration / max_duration)] sub-ranges, none longer than
    [max_duration], all but the last exactly that long, laid end to end from
    [start_orig] to [end_orig]. *)
Fixpoint laid_end_to_end (s e : Z) (l : list (Z * Z)) : Prop :=
  match l with
  | [] => s = e
  | (a, b) :: rest => a = s ∧ laid_end_to_end b e rest
  end.

Definition partition_as_specified (start_orig end_orig orig_sr : Z)
    (max_duration : Q) (l : list (Z * Z)) : Prop :=
  Z.of_nat (length l)
  = Qceiling (inject_Z (end_orig - start_orig) / inject_Z orig_sr
              / max_duration) ∧
  laid_end_to_end start_orig end_orig l ∧
  (∀ (k : nat) s e,
     l !! k = Some (s, e) →
     (inject_Z (e - s) / inject_Z orig_sr <= max_duration)%Q ∧
     ((S k < length l)%nat →
      (inject_Z (e - s) / inject_Z orig_sr == max_duration)%Q)).

(** Ranges in increasing order without overlap, none starting before [lo]:
    each range has [start <= end] and starts at or after the end of the one
    before it. *)
Fixpoint ordered_from (lo : Z) (l : list (Z * Z)) : Prop :=
  match l with
  | [] => True
  | (s, e) :: rest => lo ≤ s ∧ s ≤ e ∧ ordered_from e rest
  end.

End Splitter.

(** *** scripts/save_short_and_timestamps.py *)

Module SaveShort.

Import Splitter.
Local Open Scope Z_scope.

(** [ms(n_samples, sr) = int(1000.0 * n_samples / sr)]. *)
Definition ms (n_samples sr : Z) : outcome Z :=
  q ← truediv (1000 * inject_Z n_samples)%Q (inject_Z sr); mret (py_int q).

(** Lines 136-146 of [process_one_audio]: the split list of one interval. *)
Definition splits_of (start_orig end_orig orig_sr : Z) (max_duration : Q)
  : outcome (list (Z * Z)) :=
  seg_sec ← dur_sec start_orig end_orig orig_sr;
  if Qgtb seg_sec max_duration then
    q ← floordiv seg_sec max_duration;
    let num_subsegs := py_int q + 1 in
    mret (map (subseg start_orig end_orig orig_sr max_duration)
              (range num_subsegs))
  else mret [(start_orig, end_orig)].

(** Lines 148-152: every split is kept; its class is decided by
    [dur >= min_duration]. *)
Definition classify (orig_sr : Z) (min_duration : Q) (i : nat)
    (ks : nat * (Z * Z)) : outcome segment :=
  let '(k, (s, e)) := ks in
  dur ← dur_sec s e orig_sr;
  mret (Segment i k s e (if Qgeb dur min_duration then regular else short)).

(** The segmentation loop of [process_one_audio] (lines 125-149), without its
    storage effects: the rows it emits for the VAD timestamps of one file. *)
Definition process_one_audio (speech_timestamps : list (Z * Z))
    (orig_sr vad_sample_rate : Z) (min_duration max_duration : Q)
  : outcome (list segment) :=
  sr_ratio ← truediv (inject_Z orig_sr) (inject_Z vad_sample_rate);
  @List.concat _ <$> mapM (fun its : nat * (Z * Z) =>
    let '(i, (start_16k, end_16k)) := its in
    let start_orig := rescale start_16k sr_ratio in
    let end_orig := rescale end_16k sr_ratio in
    splits ← splits_of start_orig end_orig orig_sr max_duration;
    mapM (classify orig_sr min_duration i) (enumerate splits))
   (enumerate speech_timestamps).

End SaveShort.

(** *** scripts/seg-and-transcribe.py *)

Module SegTranscribe.

Import Splitter.
Local Open Scope Z_scope.

(** Lines 83-94 of [segment_audio_with_vad]: sub-ranges of a long interval
    are kept only when at least [min_duration] long; an interval that is not
    split is kept only under the same test. *)
Definition splits_of (start_orig end_orig orig_sr : Z)
    (min_duration max_duration : Q) : outcome (list (Z * Z)) :=
  seg_sec ← dur_sec start_orig end_orig orig_sr;
  if Qgtb seg_sec max_duration then
    q ← floordiv seg_sec max_duration;
    let num_subsegs := py_int q + 1 in
    mret (filter (fun se : Z * Z =>
                    Qgeb (inject_Z (se.2 - se.1) / inject_Z orig_sr)
                         min_duration = true)
            (map (subseg start_orig end_orig orig_sr max_duration)
                 (range num_subsegs)))
  else if Qgeb seg_sec min_duration then mret [(start_orig, end_orig)]
  else mret [].

(** The segmentation loop of [segment_audio_with_vad]: every kept split
    becomes a manifest entry (here: its index pair and range). *)
Definition segment_audio_with_vad (speech_timestamps : list (Z * Z))
    (orig_sr vad_sample_rate : Z) (min_duration max_duration : Q)
  : outcome (list segment) :=
  sr_ratio ← truediv (inject_Z orig_sr) (inject_Z vad_sample_rate);
  @List.concat _ <$> mapM (fun its : nat * (Z * Z) =>
    let '(i, (start_16k, end_16k)) := its in
    let start_orig := rescale start_16k sr_ratio in
    let end_orig := rescale end_16k sr_ratio in
    splits ← splits_of start_orig end_orig orig_sr min_duration max_duration;
    mret (map (fun ks : nat * (Z * Z) =>
                 Segment i ks.1 ks.2.1 ks.2.2 regular)
              (enumerate splits)))
   (enumerate speech_timestamps).

End SegTranscribe.

(** ** Bulk processing harness (scripts/save_short_and_timestamps.py) *)

Module Harness.

Local Open Scope Z_scope.

(** What a retry loop does to the outside world, in order. *)
Inductive event : Type :=
| Call (attempt : Z)
| Sleep (seconds : Q).

(** The body shared by [safe_download_blob] and [safe_save_waveform]:
    [[
      last_exc = None
      for attempt in range(retries + 1):
          try:    op(); return
          except Exception as e:
              last_exc = e
              time.sleep(base * (attempt + 1))
      raise last_exc
    ]]
    [op attempt] is [None] when the call of that attempt succeeds and
    [Some e] when it raises [e]. [raise None] is a [TypeError]. *)
Fixpoint retry_loop (base : Q) (op : Z -> option exn) (attempts : list Z)
    (last_exc : option exn) (log : list event) : outcome unit * list event :=
  match attempts with
  | [] =>
      (match last_exc with
       | Some e => Raised e
       | None => Raised TypeError
       end, log)
  | attempt :: rest =>
      match op attempt with
      | None => (Returned tt, log ++ [Call attempt])
      | Some e =>
          retry_loop base op rest (Some e)
            (log ++ [Call attempt; Sleep (base * inject_Z (attempt + 1))])
      end
  end.

Definition safe_download_blob (blob : Z -> option exn) (retries : Z)
  : outcome unit * list event :=
  retry_loop (1 # 2) blob (range (retries + 1)) None [].

Definition safe_save_waveform (save : Z -> option exn) (retries : Z)
  : outcome unit * list event :=
  retry_loop (2 # 10) save (range (retries + 1)) None [].

(** The log of a run of failed attempts: each call followed by its sleep. *)
Definition trail (base : Q) (attempts : list Z) : list event :=
  flat_map (fun a => [Call a; Sleep (base * inject_Z (a + 1))]) attempts.

(** The number of attempts recorded in a log. *)
Definition is_call (ev : event) : bool :=
  match ev with
  | Call _ => true
  | Sleep _ => false
  end.

Definition calls (log : list event) : nat :=
  length (filter (fun ev => is_call ev = true) log).

Inductive status : Type := OK | ERROR.

Inductive reason : Type :=
| download_error (e : exn)
| save_segment_error (e : exn).

(** The 4-tuple returned by [process_one_audio]. *)
Record result (item : Type) : Type := Result {
  src_name : string;
  res_status : status;
  res_items : option (list item);
  res_err : option reason
}.

Arguments Result {item}.
Arguments src_name {item}.
Arguments res_status {item}.
Arguments res_items {item}.
Arguments res_err {item}.

(** Lines 100-104 of [process_one_audio]: the download is tried with
    [retries=2]; an exception becomes a returned [ERROR] tuple. [rest] is the
    remainder of the function. *)
Definition download_stage {item : Type} (object_name : string)
    (blob : Z -> option exn) (rest : unit -> result item) : result item :=
  match (safe_download_blob blob 2).1 with
  | Returned _ => rest tt
  | Raised e => Result object_name ERROR None (Some (download_error e))
  end.

(** Lines 169-173: the same for a short segment's waveform, with the default
    [retries=5]. *)
Definition save_stage {item : Type} (object_name : string)
    (save : Z -> option exn) (rest : unit -> result item) : result item :=
  match (safe_save_waveform save 5).1 with
  | Returned _ => rest tt
  | Raised e => Result object_name ERROR None (Some (save_segment_error e))
  end.

Section Pool.

Context {job item : Type}.

(** One call of the worker: [process_one_audio] applied to a job tuple. *)
Variable worker : job -> result item.

(** The futures of a [ThreadPoolExecutor]: slot [k] holds the result of the
    [k]-th submitted job once that job has completed. *)
Abbreviation futures := (list (option (result item))) (only parsing).

Definition submit_all (jobs : list job) : futures :=
  replicate (length jobs) None.

(** The job of index [k] completes. *)
Definition complete (jobs : list job) (k : nat) (fs : futures) : futures :=
  match jobs !! k with
  | Some p => <[k := Some (worker p)]> fs
  | None => fs
  end.

(** [futures[k].result()]: block until slot [k] is filled, letting the
    completions of [schedule] happen meanwhile. [None]: the slot is never
    filled. *)
Fixpoint wait_result (jobs : list job) (k : nat) (schedule : list nat)
    (fs : futures) : option (result item * list nat * futures) :=
  match fs !! k with
  | Some (Some r) => Some (r, schedule, fs)
  | _ =>
      match schedule with
      | [] => None
      | c :: schedule' => wait_result jobs k schedule' (complete jobs c fs)
      end
  end.

(** [ex.map(fn, jobs)]: the results are yielded by walking the futures in
    submission order. [schedule] lists the job indices in the order in which
    the pool completes them. *)
Fixpoint map_yield (jobs : list job) (ks : list nat) (schedule : list nat)
    (fs : futures) : option (list (result item)) :=
  match ks with
  | [] => Some []
  | k :: ks' =>
      match wait_result jobs k schedule fs with
      | Some (r, schedule', fs') =>
          match map_yield jobs ks' schedule' fs' with
          | Some rs => Some (r :: rs)
          | None => None
          end
      | None => None
      end
  end.

Definition executor_map (jobs : list job) (schedule : list nat)
  : option (list (result item)) :=
  map_yield jobs (seq 0 (length jobs)) schedule (submit_all jobs).

(** Every filled slot holds the result of its own job. *)
Definition consistent (jobs : list job) (fs : futures) : Prop :=
  length fs = length jobs ∧
  ∀ c r, fs !! c = Some (Some r) → worker <$> jobs !! c = Some r.

(** Job [k] has completed or will. *)
Definition settles (schedule : list nat) (fs : futures) (k : nat) : Prop :=
  (∃ r, fs !! k = Some (Some r)) ∨ k ∈ schedule.

(** The accumulators of [main]: [all_manifest_items], [errors],
    [processed]. *)
Record totals : Type := Totals {
  all_manifest_items : list item;
  errors : nat;
  processed : nat
}.

(** The body of the loop at lines 280-286. *)
Definition collect (t : totals) (r : result item) : totals :=
  match res_status r, res_items r with
  | OK, Some items =>
      Totals (all_manifest_items t ++ items) (errors t) (S (processed t))
  | _, _ => Totals (all_manifest_items t) (S (errors t)) (processed t)
  end.

(** Lines 275-286 of [main]. *)
Definition main (jobs : list job) (schedule : list nat) : option totals :=
  rs ← executor_map jobs schedule;
  Some (fold_left collect rs (Totals [] 0 0)).

(** The order the design document describes: successful results
    concatenated as their jobs complete. *)
Definition completion_order_items (jobs : list job) (schedule : list nat)
  : list item :=
  all_manifest_items
    (fold_left collect (omap (fun k => worker <$> jobs !! k) schedule)
       (Totals [] 0 0)).

(** The same in submission order. *)
Definition submission_order_items (jobs : list job) : list item :=
  all_manifest_items (fold_left collect (map worker jobs) (Totals [] 0 0)).

End Pool.

(** The seconds a retry loop has slept, by its log. *)
Definition slept (log : list event) : Q :=
  foldr (fun ev acc =>
           match ev with
           | Sleep q => (q + acc)%Q
           | Call _ => acc
           end) 0%Q log.

(** The items of a result that [main] keeps. *)
Definition kept_items {item : Type} (r : result item) : option (list item) :=
  match res_status r, res_items r with
  | OK, Some items => Some items
  | _, _ => None
  end.

End Harness.

(** ** Interval masks and signal quality (scripts/calculate_snr.py) *)

Module CalculateSnr.

Local Open Scope Z_scope.

(** [m[s:e] = v] for [0 <= s <= e <= len(m)], the only way the script uses
    slice assignment. *)
Definition slice_assign (m : list bool) (s e : Z) (v : bool) : list bool :=
  imap (fun k b => if (s <=? Z.of_nat k) && (Z.of_nat k <? e) then v else b) m.

(** [x[mask]]: the elements of [x] at the [True] positions of [mask]. *)
Definition select {A : Type} (x : list A) (mask : list bool) : list A :=
  omap (fun xb : A * bool => if xb.2 then Some xb.1 else None) (zip x mask).

(** One iteration of the loop of [_intervals_to_mask]. *)
Definition mark (n : nat) (g : Z) (m : list bool) (iv : Z * Z) : list bool :=
  let s := Z.max 0 (iv.1 - g) in
  let e := Z.min (Z.of_nat n) (iv.2 + g) in
  if s <? e then slice_assign m s e true else m.

Definition _intervals_to_mask (intervals : list (Z * Z)) (n : nat) (sr : Z)
    (guard_s : Q) : list bool :=
  let g := round (guard_s * inject_Z sr) in
  fold_left (mark n g) intervals (replicate n false).

(** The inner loop of [_merge_short_islands]:
    [while j < n and mask[j]: j += 1]. [None]: out of fuel. *)
Fixpoint scan_run (fuel : nat) (mask : list bool) (n j : nat) : option nat :=
  if (j <? n)%nat && (mask !!! j) then
    match fuel with
    | O => None
    | S fuel' => scan_run fuel' mask n (j + 1)
    end
  else Some j.

(** The outer loop of [_merge_short_islands], from index [i]. [None]: out of
    fuel. *)
Fixpoint islands_loop (fuel : nat) (min_len : Z) (mask : list bool)
    (n i : nat) : option (list bool) :=
  if (i <? n)%nat then
    match fuel with
    | O => None
    | S fuel' =>
        if (mask !!! i : bool) then
          j ← scan_run n mask n (i + 1);
          let mask' :=
            if Z.of_nat j - Z.of_nat i <? min_len
            then slice_assign mask (Z.of_nat i) (Z.of_nat j) false
            else mask in
          islands_loop fuel' min_len mask' n j
        else islands_loop fuel' min_len mask n (i + 1)
    end
  else Some mask.

Definition _merge_short_islands (mask : list bool) (min_len : Z)
  : option (list bool) :=
  let n := length mask in
  islands_loop n min_len mask n 0.

(** A maximal run of [True] in [m]: the positions [a .. b-1]. *)
Definition is_run (m : list bool) (a b : nat) : Prop :=
  (a < b ≤ length m)%nat ∧
  (∀ k, (a ≤ k < b)%nat → m !! k = Some true) ∧
  (a = 0%nat ∨ m !! (a - 1)%nat = Some false) ∧
  (b = length m ∨ m !! b = Some false).

(** Position [k] lies in a maximal run of [m] of at least [min_len]
    samples. *)
Definition in_long_run (m : list bool) (min_len : Z) (k : nat) : Prop :=
  ∃ a b, is_run m a b ∧ (a ≤ k < b)%nat ∧ min_len ≤ Z.of_nat b - Z.of_nat a.

(** The state of the outer loop at index [i], for the input mask [m0]: the
    mask is final below [i], untouched from [i] on, and [i] is not inside a
    run. *)
Definition loop_inv (m0 : list bool) (min_len : Z) (mask : list bool)
    (i : nat) : Prop :=
  length mask = length m0 ∧
  (i ≤ length m0)%nat ∧
  (∀ k, (i ≤ k)%nat → mask !! k = m0 !! k) ∧
  (∀ k, (k < i)%nat → mask !! k = Some true ↔ in_long_run m0 min_len k) ∧
  (i = 0%nat ∨ m0 !! (i - 1)%nat = Some false ∨ i = length m0 ∨
   m0 !! i = Some false).
Definition categorize_snr (snr_db : Q) : string :=
  if Qltb snr_db 0 then "Very low SNR"
  else if Qltb snr_db 5 then "Low SNR"
  else if Qltb snr_db 15 then "Medium SNR"
  else if Qltb snr_db 25 then "High SNR"
  else "Very high SNR".

(** [range(start, stop, step)] for a positive [step]. *)
Definition range3 (start stop step : Z) : list Z :=
  map (fun k => start + Z.of_nat k * step)
      (seq 0 (Z.to_nat ((stop - start + step - 1) / step))).

Definition Qabs_le (p : Q) (v : Q) : bool := Qle_bool (Qabs v) p.

(** The frame length in samples, [max(1, int(0.025 * sr))]. *)
Definition frame_len (sr : Z) : Z := Z.max 1 (py_int ((25 # 1000) * inject_Z sr)).

Section Estimator.

(** The numeric kernels of numpy the estimator calls, kept abstract:
    [frame_rms f] is [np.sqrt(np.mean((f - f.mean())**2) + EPS)],
    [percentile l q] is [np.percentile(l, q)],
    [normal scale size] is one draw of [np.random.normal(scale=.., size=..)],
    [pow10 y] is [10**y] and [rms_db] is the script's function of that
    name. *)
Variable frame_rms : list Q -> Q.
Variable percentile : list Q -> Q -> Q.
Variable normal : Q -> Z -> list Q.
Variable pow10 : Q -> Q.
Variable rms_db : list Q -> Q.

(** Lines 84-92: the noise estimate from the frame energies. *)
Definition low_percentile_noise (x : list Q) (sr : Z) (xn : list Q)
  : list Q :=
  let n := Z.of_nat (length x) in
  let frame := Z.max 1 (py_int ((25 # 1000) * inject_Z sr)) in
  let hop := Z.max 1 (py_int ((10 # 1000) * inject_Z sr)) in
  let rms :=
    map (fun a => frame_rms (take (Z.to_nat frame) (drop (Z.to_nat a) x)))
        (range3 0 (n - frame + 1) hop) in
  match rms with
  | [] => xn
  | _ :: _ =>
      let p20 := percentile rms 20 in
      filter (fun v => Qabs_le p20 v = true) x
  end.

(** Lines 79-94: the speech and noise sample sets after the fallbacks. *)
Definition fallbacks (x : list Q) (sr : Z) (speech_mask noise_mask : list bool)
    (noise_floor_db : Q) : list Q * list Q :=
  let xs := select x speech_mask in
  let xn := select x noise_mask in
  let xs := if decide (length xs = 0%nat) then x else xs in
  let xn := if decide (length xn = 0%nat)
            then low_percentile_noise x sr xn else xn in
  let xn := if decide (length xn = 0%nat)
            then normal (pow10 (noise_floor_db / 20)) (sr / 10) else xn in
  (xs, xn).

(** [process_audio_vad] from the decoded mono waveform [x] on, with the
    intervals [speech_iv] the VAD returned for it. *)
Definition process_audio_vad (x : list Q) (sr : Z) (speech_iv : list (Z * Z))
    (guard_ms min_noise_ms : Z) (noise_floor_db : Q)
  : option (Z * Q * Q * Q) :=
  let n := length x in
  let speech_mask :=
    _intervals_to_mask speech_iv n sr (inject_Z guard_ms / 1000) in
  let noise_mask := map negb speech_mask in
  let min_len := py_int ((inject_Z min_noise_ms / 1000) * inject_Z sr) in
  noise_mask ← _merge_short_islands noise_mask min_len;
  let '(xs, xn) := fallbacks x sr speech_mask noise_mask noise_floor_db in
  let speech_db := rms_db xs in
  let noise_db := rms_db xn in
  let snr_db := (speech_db - noise_db)%Q in
  Some (sr, speech_db, noise_db, snr_db).

(** The ladder as the design document words it: the first rule whose test
    holds is applied and ends the ladder; (c) is the continuation of (b). *)
Definition first_match_ladder (x : list Q) (sr : Z)
    (speech_mask noise_mask : list bool) (noise_floor_db : Q)
  : list Q * list Q :=
  let xs := select x speech_mask in
  let xn := select x noise_mask in
  if decide (length xs = 0%nat) then (x, xn)
  else if decide (length xn = 0%nat) then
    let xn := low_percentile_noise x sr xn in
    if decide (length xn = 0%nat)
    then (xs, normal (pow10 (noise_floor_db / 20)) (sr / 10))
    else (xs, xn)
  else (xs, xn).

End Estimator.

(** Lines 70-76 of [process_audio_vad]: the speech mask and the noise mask
    of a waveform of [n] samples. *)
Definition vad_masks (n : nat) (sr : Z) (speech_iv : list (Z * Z))
    (guard_ms min_noise_ms : Z) : option (list bool * list bool) :=
  let speech_mask :=
    _intervals_to_mask speech_iv n sr (inject_Z guard_ms / 1000) in
  let noise_mask := map negb speech_mask in
  let min_len := py_int ((inject_Z min_noise_ms / 1000) * inject_Z sr) in
  noise_mask ← _merge_short_islands noise_mask min_len;
  Some (speech_mask, noise_mask).

End CalculateSnr.

(** ** The estimator over floats (scripts/calculate_snr.py) *)

Module CalculateSnr64.

Import Binary64 CalculateSnr.
Local Open Scope Z_scope.

(** The functions of [CalculateSnr] that compute with floats, with the
    floats as they are: binary64 numbers, and the exceptions of their
    conversions. The loops are those of [CalculateSnr]. *)

(** [int(round(guard_s * sr))], the guard in samples. *)
Definition guard_samples (guard_s : float) (sr : Z) : outcome Z :=
  r ← of_int sr; py_round (fmul guard_s r).

Definition _intervals_to_mask (intervals : list (Z * Z)) (n : nat) (sr : Z)
    (guard_s : float) : outcome (list bool) :=
  g ← guard_samples guard_s sr;
  mret (fold_left (mark n g) intervals (replicate n false)).

(** [ms / 1000.0] for an int [ms]. *)
Definition seconds (ms : Z) : outcome float :=
  a ← of_int ms; truediv a (fl 1000).

(** [int(c * sr)] for a float [c] and an int [sr]. *)
Definition samples_in (c : float) (sr : Z) : outcome Z :=
  r ← of_int sr; to_int (fmul c r).

(** The frame length and the hop of the sliding analysis, in samples:
    [max(1, int(0.025 * sr))] and [max(1, int(0.010 * sr))]. *)
Definition frame_len (sr : Z) : outcome Z :=
  f ← samples_in (fl (25 # 1000)) sr; mret (Z.max 1 f).

Definition hop_len (sr : Z) : outcome Z :=
  h ← samples_in (fl (10 # 1000)) sr; mret (Z.max 1 h).

Section Estimator.

(** The values of the arrays and the numeric kernels of numpy the estimator
    calls, kept abstract: [frame_rms f] is
    [np.sqrt(np.mean((f - f.mean())**2) + EPS)], [percentile l q] is
    [np.percentile(l, q)], [abs_le v p] is [np.abs(v) <= p],
    [normal scale size] is one draw of [np.random.normal(scale=.., size=..)]
    for a scale and a size that are not negative, [pow10 y] is [10**y],
    which raises when the power is out of range, and [rms_db] is the
    script's function of that name. *)
Variable sample : Type.
Variable frame_rms : list sample → float.
Variable percentile : list float → Z → float.
Variable abs_le : sample → float → bool.
Variable normal : float → Z → list sample.
Variable pow10 : float → outcome float.
Variable rms_db : list sample → float.

(** Lines 86-89: the energies of the frames [x[a:a+frame]] for
    [a] in [range(0, n - frame + 1, hop)]. *)
Definition frame_energies (x : list sample) (frame hop : Z) : list float :=
  map (fun a => frame_rms (take (Z.to_nat frame) (drop (Z.to_nat a) x)))
      (range3 0 (Z.of_nat (length x) - frame + 1) hop).

(** Lines 90-92: the samples at most as large as the 20th percentile of the
    energies, when there is an energy. *)
Definition quiet_samples (x : list sample) (rms : list float) (xn : list sample)
  : list sample :=
  match rms with
  | [] => xn
  | _ :: _ => filter (fun v => abs_le v (percentile rms 20) = true) x
  end.

(** Lines 84-92. *)
Definition low_percentile_noise (x : list sample) (sr : Z) (xn : list sample)
  : outcome (list sample) :=
  frame ← frame_len sr;
  hop ← hop_len sr;
  mret (quiet_samples x (frame_energies x frame hop) xn).

(** Line 94: [np.random.normal(scale=10**(noise_floor_db/20), size=sr//10)]. *)
Definition noise_burst (sr : Z) (noise_floor_db : float)
  : outcome (list sample) :=
  y ← truediv noise_floor_db (fl 20);
  scale ← pow10 y;
  mret (normal scale (sr / 10)).

(** Lines 79-94: the speech and noise sample sets after the fallbacks. *)
Definition fallbacks (x : list sample) (sr : Z)
    (speech_mask noise_mask : list bool) (noise_floor_db : float)
  : outcome (list sample * list sample) :=
  let xs := select x speech_mask in
  let xn := select x noise_mask in
  let xs := if decide (length xs = 0%nat) then x else xs in
  xn ← (if decide (length xn = 0%nat)
        then low_percentile_noise x sr xn else mret xn);
  xn ← (if decide (length xn = 0%nat)
        then noise_burst sr noise_floor_db else mret xn);
  mret (xs, xn).

(** Lines 70-76: the speech mask and the threshold of the noise mask. *)
Definition mask_and_threshold (n : nat) (sr : Z) (speech_iv : list (Z * Z))
    (guard_ms min_noise_ms : Z) : outcome (list bool * Z) :=
  guard_s ← seconds guard_ms;
  speech_mask ← _intervals_to_mask speech_iv n sr guard_s;
  t ← seconds min_noise_ms;
  min_len ← samples_in t sr;
  mret (speech_mask, min_len).

(** [process_audio_vad] from the decoded mono waveform [x] on, with the
    intervals [speech_iv] the VAD returned for it. [None]: the loop of
    [_merge_short_islands] is out of fuel. *)
Definition process_audio_vad (x : list sample) (sr : Z)
    (speech_iv : list (Z * Z)) (guard_ms min_noise_ms : Z)
    (noise_floor_db : float) : option (outcome (Z * float * float * float)) :=
  match mask_and_threshold (length x) sr speech_iv guard_ms min_noise_ms with
  | Raised e => Some (Raised e)
  | Returned (speech_mask, min_len) =>
      noise_mask ← _merge_short_islands (map negb speech_mask) min_len;
      Some ('(xs, xn) ← fallbacks x sr speech_mask noise_mask noise_floor_db;
            let speech_db := rms_db xs in
            let noise_db := rms_db xn in
            let snr_db := fsub speech_db noise_db in
            mret (sr, speech_db, noise_db, snr_db))
  end.

(** The ladder as the design document words it: the first rule whose test
    holds is applied and ends the ladder; (c) is the continuation of (b). *)
Definition first_match_ladder (x : list sample) (sr : Z)
    (speech_mask noise_mask : list bool) (noise_floor_db : float)
  : outcome (list sample * list sample) :=
  let xs := select x speech_mask in
  let xn := select x noise_mask in
  if decide (length xs = 0%nat) then mret (x, xn)
  else if decide (length xn = 0%nat) then
    xn ← low_percentile_noise x sr xn;
    if decide (length xn = 0%nat)
    then burst ← noise_burst sr noise_floor_db; mret (xs, burst)
    else mret (xs, xn)
  else mret (xs, xn).

End Estimator.

End CalculateSnr64.

(** ** Path normalisation (scripts/download_from_gcs.py) *)

Module DownloadFromGcs.

Local Open Scope string_scope.

(** Strings are sequences of bytes, the UTF-8 encoding of the Python string:
    [str.strip] removes the encodings of the characters of [str.isspace], and
    [unquote] decodes as UTF-8 with errors='replace'. *)

Definition newline : ascii := "010"%char.

(** [s] without the prefix [p], when it has it. *)
Fixpoint strip_prefix (p s : string) : option string :=
  match p, s with
  | "", _ => Some s
  | String a p', String b s' =>
      if Ascii.eqb a b then strip_prefix p' s' else None
  | String _ _, "" => None
  end.

(** [needle in hay]. *)
Fixpoint contains (needle hay : string) : bool :=
  match strip_prefix needle hay with
  | Some _ => true
  | None =>
      match hay with
      | "" => false
      | String _ hay' => contains needle hay'
      end
  end.

(** What [.+] can cover at most: the characters up to the next newline. *)
Fixpoint take_line (s : string) : string :=
  match s with
  | "" => ""
  | String c s' => if Ascii.eqb c newline then "" else String c (take_line s')
  end.

Fixpoint take_chars (k : nat) (s : string) : string :=
  match k, s with
  | S k', String c s' => String c (take_chars k' s')
  | _, _ => ""
  end.

(** Index of the last ["?"] of [s]. *)
Fixpoint last_qmark (s : string) : option nat :=
  match s with
  | "" => None
  | String c s' =>
      match last_qmark s' with
      | Some k => Some (S k)
      | None => if Ascii.eqb c "?" then Some 0%nat else None
      end
  end.

(** [(.+)\?] matched greedily at the start of [line]: group 1 runs to the
    last ["?"] that has a character before it. *)
Definition group_to_qmark (line : string) : option string :=
  match line with
  | "" => None
  | String c s' =>
      match last_qmark s' with
      | Some k => Some (String c (take_chars k s'))
      | None => None
      end
  end.

(** [re.search(r"/o/(.+)\?", path)], group 1 of the leftmost match. *)
Fixpoint search_object (path : string) : option string :=
  match strip_prefix "/o/" path ≫= (fun rest => group_to_qmark (take_line rest)) with
  | Some g => Some g
  | None =>
      match path with
      | "" => None
      | String _ path' => search_object path'
      end
  end.

Definition nonempty (s : string) : option string :=
  match s with
  | "" => None
  | String _ _ => Some s
  end.

Definition bucket_marker : string := "africa-voice-mali.firebasestorage.app/".

(** [re.search(r'africa-voice-mali\.firebasestorage\.app/(.+)', path)], group 1
    of the leftmost match. *)
Fixpoint search_bucket (path : string) : option string :=
  match strip_prefix bucket_marker path ≫= (fun rest => nonempty (take_line rest)) with
  | Some g => Some g
  | None =>
      match path with
      | "" => None
      | String _ path' => search_bucket path'
      end
  end.

Definition hex_digit (c : ascii) : option N :=
  let n := N_of_ascii c in
  if (48 <=? n)%N && (n <=? 57)%N then Some (n - 48)%N
  else if (65 <=? n)%N && (n <=? 70)%N then Some (n - 55)%N
  else if (97 <=? n)%N && (n <=? 102)%N then Some (n - 87)%N
  else None.

(** [urllib.parse.unquote_to_bytes]: every [%XX] with two hexadecimal digits
    becomes the byte [XX]. *)
Fixpoint unquote_to_bytes (s : string) : string :=
  match s with
  | "" => ""
  | String c s' =>
      match s' with
      | String h (String l t) =>
          match (if Ascii.eqb c "%" then Some tt else None), hex_digit h, hex_digit l with
          | Some _, Some a, Some b =>
              String (ascii_of_N (16 * a + b)) (unquote_to_bytes t)
          | _, _, _ => String c (unquote_to_bytes s')
          end
      | _ => String c (unquote_to_bytes s')
      end
  end.

Definition between (lo hi : N) (c : ascii) : bool :=
  ((lo <=? N_of_ascii c) && (N_of_ascii c <=? hi))%N.

(** U+FFFD, the replacement character. *)
Definition replacement : string :=
  String (ascii_of_N 239) (String (ascii_of_N 191) (String (ascii_of_N 189) "")).

(** The range of the second byte of a well-formed sequence with lead [a]. *)
Definition second_byte (a b : ascii) : bool :=
  match N_of_ascii a with
  | 224%N => between 160 191 b
  | 237%N => between 128 159 b
  | 240%N => between 144 191 b
  | 244%N => between 128 143 b
  | _ => between 128 191 b
  end.

(** [bytes.decode('utf-8', 'replace')], the result again in UTF-8: every
    maximal ill-formed part becomes U+FFFD. *)
Fixpoint decode_replace (s : string) : string :=
  match s with
  | "" => ""
  | String a s1 =>
      if between 0 127 a then String a (decode_replace s1)
      else if between 194 223 a then
        match s1 with
        | String b s2 =>
            if between 128 191 b then String a (String b (decode_replace s2))
            else replacement ++ decode_replace s1
        | "" => replacement
        end
      else if between 224 239 a then
        match s1 with
        | String b s2 =>
            if second_byte a b then
              match s2 with
              | String c s3 =>
                  if between 128 191 c
                  then String a (String b (String c (decode_replace s3)))
                  else replacement ++ decode_replace s2
              | "" => replacement
              end
            else replacement ++ decode_replace s1
        | "" => replacement
        end
      else if between 240 244 a then
        match s1 with
        | String b s2 =>
            if second_byte a b then
              match s2 with
              | String c s3 =>
                  if between 128 191 c then
                    match s3 with
                    | String d s4 =>
                        if between 128 191 d
                        then String a (String b (String c (String d (decode_replace s4))))
                        else replacement ++ decode_replace s3
                    | "" => replacement
                    end
                  else replacement ++ decode_replace s2
              | "" => replacement
              end
            else replacement ++ decode_replace s1
        | "" => replacement
        end
      else replacement ++ decode_replace s1
  end.

Fixpoint rev_append (s acc : string) : string :=
  match s with
  | "" => acc
  | String c s' => rev_append s' (String c acc)
  end.

Definition reverse (s : string) : string := rev_append s "".

(** The loop of [unquote] over the pieces of [_asciire.split]: [run] holds,
    last character first, the ASCII characters read since the last one that
    is not ASCII. *)
Fixpoint unquote_runs (s run : string) : string :=
  match s with
  | "" => decode_replace (unquote_to_bytes (reverse run))
  | String c s' =>
      if between 0 127 c then unquote_runs s' (String c run)
      else decode_replace (unquote_to_bytes (reverse run)) ++ String c (unquote_runs s' "")
  end.

(** [urllib.parse.unquote(s)] (UTF-8, errors='replace'). *)
Definition unquote (s : string) : string :=
  if contains "%" s then unquote_runs s "" else s.

(** [str.isspace] on an ASCII character. *)
Definition is_space (c : ascii) : bool :=
  between 9 13 c || between 28 32 c.

(** U+0085 and U+00A0 in UTF-8. *)
Definition space2 (a b : ascii) : bool :=
  (N_of_ascii a =? 194)%N && ((N_of_ascii b =? 133)%N || (N_of_ascii b =? 160)%N).

(** U+1680, U+2000 to U+200A, U+2028, U+2029, U+202F, U+205F and U+3000 in
    UTF-8. *)
Definition space3 (a b c : ascii) : bool :=
  match N_of_ascii a, N_of_ascii b with
  | 225%N, 154%N => (N_of_ascii c =? 128)%N
  | 226%N, 128%N =>
      between 128 138 c || between 168 169 c || (N_of_ascii c =? 175)%N
  | 226%N, 129%N => (N_of_ascii c =? 159)%N
  | 227%N, 128%N => (N_of_ascii c =? 128)%N
  | _, _ => false
  end.

(** The number of bytes of the white space character [s] starts with, 0 when
    it starts with none. *)
Definition space_at_head (s : string) : nat :=
  match s with
  | String a s1 =>
      if is_space a then 1
      else
        match s1 with
        | String b s2 =>
            if space2 a b then 2
            else
              match s2 with
              | String c _ => if space3 a b c then 3 else 0
              | "" => 0
              end
        | "" => 0
        end
  | "" => 0
  end.

(** The same for the string read backwards. *)
Definition space_at_tail (r : string) : nat :=
  match r with
  | String c r1 =>
      if is_space c then 1
      else
        match r1 with
        | String b r2 =>
            if space2 b c then 2
            else
              match r2 with
              | String a _ => if space3 a b c then 3 else 0
              | "" => 0
              end
        | "" => 0
        end
  | "" => 0
  end.

(** Drops the characters that [head] finds at the start of the string. *)
Fixpoint drop_spaces (head : string → nat) (s : string) : string :=
  match s with
  | "" => ""
  | String _ s1 =>
      match head s with
      | 0 => s
      | 1 => drop_spaces head s1
      | 2 => match s1 with
             | String _ s2 => drop_spaces head s2
             | "" => s
             end
      | _ => match s1 with
             | String _ (String _ s3) => drop_spaces head s3
             | _ => s
             end
      end
  end.

(** What [drop_spaces] needs of [head]: it counts bytes that are there. *)
Definition counts_bytes (head : string → nat) : Prop :=
  ∀ s, (head s ≤ String.length s)%nat.

Definition lstrip (s : string) : string := drop_spaces space_at_head s.

Definition rstrip (s : string) : string :=
  reverse (drop_spaces space_at_tail (reverse s)).

(** [s.strip()]. *)
Definition strip (s : string) : string := rstrip (lstrip s).

Definition normalize_path (path : string) : string :=
  match (if contains "firebasestorage.googleapis.com" path
         then search_object path else None) with
  | Some g => strip (unquote g)
  | None =>
      match search_bucket path with
      | Some g => strip g
      | None => strip path
      end
  end.

(** A key in canonical form: none of the two markers occurs in it and it has
    no white space at either end. *)
Definition canonical (key : string) : Prop :=
  contains "firebasestorage.googleapis.com" key = false ∧
  contains bucket_marker key = false ∧
  strip key = key.

End DownloadFromGcs.

(** ** Total duration of a manifest (scripts/calculate-duration.py) *)

Module CalculateDuration.

Import Binary64.

(** The values a parsed manifest entry can hold: [JInt] is a Python int,
    [JNum x] the float [json.loads] makes of a number written with a
    fraction or an exponent, of decimal value [x], and [JNaN], [JInfinity]
    the floats it makes of [NaN], [Infinity] and [-Infinity]. *)
#[warnings="-register-all"]
Inductive json : Type :=
| JNull
| JBool (b : bool)
| JInt (z : Z)
| JNum (x : Q)
| JNaN
| JInfinity (negative : bool)
| JStr (s : string)
| JArr (l : list json)
| JObj (keys : list string) (values : list json).

(** The float operand [v] is in [total + v] for a float [total]: an int (a
    boolean is one) is converted, anything that is not a number is a
    [TypeError]. *)
Definition as_float (v : json) : outcome float :=
  match v with
  | JNum x => Returned (fl x)
  | JNaN => Returned NaN
  | JInfinity negative => Returned (Infinity negative)
  | JInt z => of_int z
  | JBool b => Returned (if b then one else zero)
  | _ => Raised TypeError
  end.

(** [total += v] for a float [total]. *)
Definition add_to (total : float) (v : json) : outcome float :=
  x ← as_float v; mret (fadd total x).

(** [entry.get('duration', 0.0)]. *)
Definition get_duration (entry : gmap string json) : json :=
  default (JNum 0) (entry !! "duration"%string).

(** The loop of lines 25-26, from the running total [total]. *)
Fixpoint sum_loop (total : float) (manifest : list (gmap string json))
  : outcome float :=
  match manifest with
  | [] => Returned total
  | entry :: rest =>
      total' ← add_to total (get_duration entry); sum_loop total' rest
  end.

(** [calculate_audio_hours] on a parsed manifest: the total in seconds and
    the hours it prints. *)
Definition calculate_audio_hours (manifest : list (gmap string json))
  : outcome (float * float) :=
  total_duration_seconds ← sum_loop zero manifest;
  divisor ← of_int 3600;
  total_hours ← truediv total_duration_seconds divisor;
  mret (total_duration_seconds, total_hours).

(** The ['duration'] of an entry as a float; [0.0] when the entry has
    none. *)
Definition duration_or_zero (entry : gmap string json) : float :=
  match as_float (get_duration entry) with
  | Returned x => x
  | Raised _ => zero
  end.

(** An entry whose ['duration'], when present, is a number that a float can
    be added to: a float, a boolean, or an int within the range of the
    floats. *)
Definition numeric_duration (entry : gmap string json) : Prop :=
  ∃ x, as_float (get_duration entry) = Returned x.

(** The sum of a list of floats, added one after the other to [0.0]. *)
Definition fsum (l : list float) : float := fold_left fadd l zero.

(** ['duration' in entry]. *)
Definition has_duration (entry : gmap string json) : bool :=
  bool_decide (is_Some (entry !! "duration"%string)).

End CalculateDuration.

(** ** Downloads (scripts/download_from_gcs.py) *)

Module DownloadAudio.

Import DownloadFromGcs CalculateDuration.
Local Open Scope string_scope.

(** [s.startswith(p)]. *)
Definition startswith (p s : string) : bool :=
  match strip_prefix p s with
  | Some _ => true
  | None => false
  end.

(** A character of the class [[a-zA-Z0-9_\-\.]]. *)
Definition safe_char (c : ascii) : bool :=
  let n := N_of_ascii c in
  ((97 <=? n)%N && (n <=? 122)%N) || ((65 <=? n)%N && (n <=? 90)%N)
  || ((48 <=? n)%N && (n <=? 57)%N)
  || (n =? 95)%N || (n =? 45)%N || (n =? 46)%N.

(** A continuation byte [10xxxxxx] of a character encoded on several
    bytes. *)
Definition continuation (c : ascii) : bool :=
  let n := N_of_ascii c in (128 <=? n)%N && (n <? 192)%N.

(** [re.sub(r'[^a-zA-Z0-9_\-\.]', '_', name)]: every character outside
    the class becomes one [_]. On the UTF-8 bytes of [name] a character
    outside ASCII is a lead byte and its continuation bytes: the lead byte
    becomes the [_] and the continuation bytes go with it. *)
Fixpoint sanitize_filename (name : string) : string :=
  match name with
  | "" => ""
  | String c name' =>
      if continuation c then sanitize_filename name'
      else String (if safe_char c then c else "_"%char)
             (sanitize_filename name')
  end.

(** Every character of [s] satisfies [p]. *)
Fixpoint all_chars (p : ascii → bool) (s : string) : bool :=
  match s with
  | "" => true
  | String c s' => p c && all_chars p s'
  end.

Definition not_slash (c : ascii) : bool := negb (Ascii.eqb c "/").

(** What [[^/]+] covers at most, and what follows it. *)
Fixpoint span_no_slash (s : string) : string * string :=
  match s with
  | "" => ("", "")
  | String c s' =>
      if Ascii.eqb c "/" then ("", s)
      else let '(a, b) := span_no_slash s' in (String c a, b)
  end.

(** [re.match(r'gs://([^/]+)/(.+)', uri)]: the two groups, when the pattern
    matches at the start of [uri]. *)
Definition match_gcs_uri (uri : string) : option (string * string) :=
  rest ← strip_prefix "gs://" uri;
  let '(bucket_name, after) := span_no_slash rest in
  match bucket_name, strip_prefix "/" after with
  | String _ _, Some after' =>
      blob_name ← nonempty (take_line after'); Some (bucket_name, blob_name)
  | _, _ => None
  end.

(** [os.path.join(a, b)] on POSIX paths. *)
Definition path_join (a b : string) : string :=
  if startswith "/" b then b
  else match a with
       | "" => b
       | _ => if String.eqb (substring (String.length a - 1) 1 a) "/"
              then a ++ b else a ++ "/" ++ b
       end.

(** What can go wrong inside the [try] of [download_audio]. *)
Inductive failure : Type :=
| InvalidGcsUri
| UnsupportedUri
| TransferError (e : exn).

(** [p.rfind(c)]: the index of the last [c] of [p]; [None] stands for
    [-1]. *)
Fixpoint rfind (c : ascii) (p : string) : option nat :=
  match p with
  | "" => None
  | String d p' =>
      match rfind c p' with
      | Some i => Some (S i)
      | None => if Ascii.eqb d c then Some 0%nat else None
      end
  end.

(** [p[k:]]. *)
Fixpoint drop_chars (k : nat) (s : string) : string :=
  match k, s with
  | S k', String _ s' => drop_chars k' s'
  | _, _ => s
  end.

Definition is_dot (c : ascii) : bool := Ascii.eqb c ".".

(** [os.path.splitext(p)] on a POSIX path: the extension starts at the last
    dot, when that dot lies in the last component and some character of the
    component before it is not a dot. *)
Definition splitext (p : string) : string * string :=
  match rfind "." p with
  | None => (p, "")
  | Some dotIndex =>
      let filenameIndex :=
        match rfind "/" p with Some sepIndex => S sepIndex | None => 0%nat end
      in
      if (filenameIndex <=? dotIndex)%nat
         && negb (all_chars is_dot
                    (substring filenameIndex (dotIndex - filenameIndex) p))
      then (take_chars dotIndex p, drop_chars dotIndex p)
      else (p, "")
  end.

(** The character of code point [n], as its UTF-8 bytes. *)
Definition utf8 (n : N) : string :=
  let byte (k : N) := String (ascii_of_N k) "" in
  (if n <? 128 then byte n
   else if n <? 2048 then byte (192 + n / 64) ++ byte (128 + n mod 64)
   else if n <? 65536 then
     byte (224 + n / 4096) ++ byte (128 + (n / 64) mod 64)
     ++ byte (128 + n mod 64)
   else
     byte (240 + n / 262144) ++ byte (128 + (n / 4096) mod 64)
     ++ byte (128 + (n / 64) mod 64) ++ byte (128 + n mod 64))%N.

(** The last code point [chr] accepts. *)
Definition max_code_point : N := 1114111.

(** What escapes [download_audio]: the [KeyError] of
    [entry["audio_filepath"]], the [TypeError] of [normalize_path] on a
    value that is not a string, or the [ValueError] of [chr] once
    [unique_path] has gone through every code point. *)
Inductive escaped : Type :=
| KeyError (key : string)
| NotAString
| ChrOutOfRange.

(** Lines 47-50 of [unique_path]: the loop over the suffixes, at the suffix
    that has [remaining] code points after it. [path_exists] is
    [os.path.exists] as the file system stands during the call. *)
Fixpoint next_suffix (path_exists : string → bool) (base ext : string)
    (remaining : nat) : escaped + string :=
  let suffix := utf8 (max_code_point - N.of_nat remaining) in
  let candidate := base ++ "_" ++ suffix ++ ext in
  if path_exists candidate then
    match remaining with
    | O => inl ChrOutOfRange
    | S remaining' => next_suffix path_exists base ext remaining'
    end
  else inr candidate.

(** [unique_path(base_path)]; the first suffix is ['a'], code point 97. *)
Definition unique_path (path_exists : string → bool) (base_path : string)
  : escaped + string :=
  if negb (path_exists base_path) then inr base_path
  else
    let '(base, ext) := splitext base_path in
    next_suffix path_exists base ext (N.to_nat (max_code_point - 97)).

(** The outside world of one call of [download_audio]: which paths exist,
    and how the transfer from the object store or over HTTP ends ([None]:
    the file is written). *)
Record world : Type := World {
  path_exists : string → bool;
  blob_download : string → string → string → option exn;
  http_download : string → string → option exn
}.

(** Lines 79-86: the body of the [try]. *)
Definition transfer (w : world) (uri local_path : string) : option failure :=
  if startswith "gs://" uri then
    match match_gcs_uri uri with
    | None => Some InvalidGcsUri
    | Some (bucket_name, blob_name) =>
        TransferError <$> blob_download w bucket_name blob_name local_path
    end
  else if startswith "http" uri then
    TransferError <$> http_download w uri local_path
  else Some UnsupportedUri.

(** [download_audio(entry, out_dir)]: [inl] when an exception escapes,
    [inr None] when the download failed, [inr (Some local_entry)]
    otherwise. *)
Definition download_audio (w : world) (entry : gmap string json)
    (out_dir : string) : escaped + option (gmap string json) :=
  match entry !! "audio_filepath" with
  | None => inl (KeyError "audio_filepath")
  | Some (JStr uri) =>
      let filename := sanitize_filename (normalize_path uri) in
      let local_path := path_join out_dir filename in
      match unique_path (path_exists w) local_path with
      | inl e => inl e
      | inr local_path =>
          match transfer w uri local_path with
          | Some _ => inr None
          | None => inr (Some (<["audio_filepath" := JStr local_path]> entry))
          end
      end
  | Some _ => inl NotAString
  end.

(** Lines 99-105 of [main]: the futures are read with [as_completed], that
    is in the order [schedule] in which the jobs complete; [future.result()]
    re-raises what escaped the job; a result that is not [None] is appended.
    [worlds k] is the world the job of entry [k] runs in. *)
Fixpoint collect_completed (worlds : nat → world)
    (entries : list (gmap string json)) (out_dir : string)
    (schedule : list nat) (updated_entries : list (gmap string json))
  : escaped + list (gmap string json) :=
  match schedule with
  | [] => inr updated_entries
  | k :: schedule' =>
      match entries !! k with
      | None => collect_completed worlds entries out_dir schedule'
                  updated_entries
      | Some entry =>
          match download_audio (worlds k) entry out_dir with
          | inl e => inl e
          | inr None => collect_completed worlds entries out_dir schedule'
                          updated_entries
          | inr (Some result) =>
              collect_completed worlds entries out_dir schedule'
                (updated_entries ++ [result])
          end
      end
  end.

Definition main (worlds : nat → world) (entries : list (gmap string json))
    (out_dir : string) (schedule : list nat)
  : escaped + list (gmap string json) :=
  collect_completed worlds entries out_dir schedule [].

(** The download of entry [k] alone, when nothing escapes it. *)
Definition downloaded (worlds : nat → world) (out_dir : string)
    (k : nat) (entry : gmap string json) : option (gmap string json) :=
  match download_audio (worlds k) entry out_dir with
  | inr (Some result) => Some result
  | _ => None
  end.

(** The entries that download, in the order [schedule] in which their
    jobs complete. *)
Definition completed_downloads (worlds : nat → world) (out_dir : string)
    (entries : list (gmap string json)) (schedule : list nat)
  : list (gmap string json) :=
  omap (λ k, entry ← entries !! k; downloaded worlds out_dir k entry)
    schedule.

(** The entries that download, in the order of the manifest. *)
Definition downloads (worlds : nat → world) (out_dir : string)
    (entries : list (gmap string json)) : list (gmap string json) :=
  omap (λ k, entry ← entries !! k; downloaded worlds out_dir k entry)
    (seq 0 (length entries)).

(** The entry carries a string under [audio_filepath]. *)
Definition has_uri (entry : gmap string json) : bool :=
  match entry !! "audio_filepath" with
  | Some (JStr _) => true
  | _ => false
  end.

End DownloadAudio.

(** ** Input lists (scripts/calculate_snr.py) *)

Module SnrInputs.

Import DownloadFromGcs DownloadAudio.
Local Open Scope string_scope.

(** [item.split(",")]: the pieces between the commas; always at least
    one. *)
Fixpoint split_comma (item : string) : list string :=
  match item with
  | "" => [""]
  | String c item' =>
      if Ascii.eqb c "," then "" :: split_comma item'
      else match split_comma item' with
           | piece :: pieces => String c piece :: pieces
           | [] => [String c ""]
           end
  end.

(** The truth value of a string: it is not empty. *)
Definition truthy (p : string) : bool :=
  match p with
  | "" => false
  | String _ _ => true
  end.

(** [[p for p in (s.strip() for s in item.split(",")) if p]]. *)
Definition names_of (item : string) : list string :=
  filter (λ p, truthy p = true) (map strip (split_comma item)).

(** [parse_inputs(inputs)]. *)
Definition parse_inputs (inputs : list string) : list string :=
  foldl (λ files item, files ++ names_of item)%list [] inputs.

Definition not_comma (c : ascii) : bool := negb (Ascii.eqb c ",").

(** A name [parse_inputs] leaves as it is: not empty, without comma and
    without white space at either end. *)
Definition clean (p : string) : Prop :=
  p ≠ "" ∧ all_chars not_comma p = true ∧ strip p = p.

End SnrInputs.

(** ** Names of the pieces (scripts/save_short_and_timestamps.py,
    scripts/seg-and-transcribe.py) *)

Module SegmentNames.

Import Splitter DownloadAudio.
Local Open Scope string_scope.

(** [f"{basename}_seg_{i}_{k}.wav"]. *)
Definition seg_filename (basename : string) (i k : nat) : string :=
  basename ++ "_seg_" ++ pretty i ++ "_" ++ pretty k ++ ".wav".

(** [f"{basename}_short_seg_{start_ms_val}_{end_ms_val}.wav"]. *)
Definition short_name (basename : string) (start_ms_val end_ms_val : Z)
  : string :=
  basename ++ "_short_seg_" ++ pretty start_ms_val ++ "_"
  ++ pretty end_ms_val ++ ".wav".

(** The name [process_one_audio] writes in the first column of the row of
    a piece (lines 150, 163-164): [regular_seg_name] for a regular piece,
    [short_name], under which the piece is saved and uploaded, for a short
    one. *)
Definition segment_name (basename : string) (orig_sr : Z) (g : segment)
  : outcome string :=
  match seg_kind g with
  | regular => Returned (seg_filename basename (seg_i g) (seg_k g))
  | short =>
      start_ms_val ← SaveShort.ms (seg_start g) orig_sr;
      end_ms_val ← SaveShort.ms (seg_end g) orig_sr;
      Returned (short_name basename start_ms_val end_ms_val)
  end.

(** The interval index and the sub-index of a row. *)
Definition indices (g : segment) : nat * nat := (seg_i g, seg_k g).

(** The order of the rows of a file: by interval, then by sub-index. *)
Definition index_lt (a b : nat * nat) : Prop :=
  (a.1 < b.1)%nat ∨ (a.1 = b.1 ∧ a.2 < b.2)%nat.

(** A character of a decimal numeral. *)
Definition numeral_char (c : ascii) : bool :=
  let n := N_of_ascii c in ((48 <=? n)%N && (n <=? 57)%N) || (n =? 45)%N.

End SegmentNames.

(** ** One recording, with the object store (scripts/save_short_and_timestamps.py) *)

Module ProcessOne.

Import Splitter Harness DownloadAudio SegmentNames.
Local Open Scope string_scope.

(** [s.rstrip("/")]. *)
Fixpoint rstrip_slash (s : string) : string :=
  match s with
  | "" => ""
  | String c s' =>
      match rstrip_slash s' with
      | "" => if Ascii.eqb c "/" then "" else String c ""
      | r => String c r
      end
  end.

(** [os.path.basename(p)]: what follows the last [/]. *)
Definition os_basename (p : string) : string :=
  match rfind "/" p with
  | Some sepIndex => drop_chars (S sepIndex) p
  | None => p
  end.

(** [os.path.join(a, b, c)]. *)
Definition path_join3 (a b c : string) : string :=
  path_join (path_join a b) c.

(** [a / b] on [pathlib] paths, for a relative path [a] and a component [b]
    without [/]: an empty component or [.] adds nothing. *)
Definition path_div (a b : string) : string :=
  if String.eqb b "" || String.eqb b "." then a else a ++ "/" ++ b.

(** [round(x, 3)]. *)
Definition round3 (x : Q) : Q := (inject_Z (round (x * 1000)) / 1000)%Q.

(** The job tuple of [process_one_audio], without the time-out and the
    lock. *)
Record job : Type := Job {
  bucket_name : string;
  object_name : string;
  upload_prefix : string;
  min_duration : Q;
  max_duration : Q;
  vad_sample_rate : Z;
  no_gcs : bool
}.

(** An entry of [manifest_items]. *)
Record item : Type := Item {
  audio_gs : string;
  audio_filepath : string;
  public_url : string;
  duration : Q
}.

(** A line of the timestamp table. *)
Record tsv_row : Type := TsvRow {
  tsv_segment_name : string;
  tsv_type : seg_type;
  start_sec : Q;
  end_sec : Q;
  duration_sec : Q
}.

(** The prefix of the message of an [ERROR] tuple, with the exception. *)
Inductive error : Type :=
| download_error (e : exn)
| download_error_zero_size
| torchaudio_load_error (e : exn)
| delete_regular_error (e : exn)
| save_segment_error (e : exn)
| upload_short_error (e : exn)
| upload_manifest_error (e : exn)
| upload_tsv_error (e : exn)
| process_error (e : exn).

(** What [process_one_audio] meets outside: how each attempt of the
    download and of the saving of a short piece ends, whether the
    downloaded file is there and not empty, what the loading and the voice
    detection give, and how each call of the object store ends ([None]: no
    exception; for [make_public]: the URL, or [None] when
    [make_public_or_token_url] raises). [blob_exists] is the function of
    that name: [False] also when the test raises. Writing the local files
    is taken to succeed. *)
Record world : Type := World {
  download : Z → option exn;
  local_ok : bool;
  load : exn + Z;
  vad : exn + list (Z * Z);
  blob_exists : string → bool;
  delete : string → option exn;
  save : string → Z → option exn;
  upload : string → option exn;
  make_public : string → option string;
  upload_manifest : string → option exn;
  upload_tsv : string → option exn
}.

(** What has changed in the bucket. *)
Inductive effect : Type :=
| Deleted (dest_obj : string)
| Uploaded (dest_obj : string).

(** The table written so far, [manifest_items], and the changes made in the
    bucket. *)
Record state : Type := State {
  tsv : list tsv_row;
  manifest_items : list item;
  bucket_log : list effect
}.

Section Loop.

Variables (w : world) (p : job) (basename : string) (orig_sr : Z).

Definition dest_of (name : string) : string :=
  path_join3 (rstrip_slash (upload_prefix p)) basename name.

Definition gs_uri (dest_obj : string) : string :=
  "gs://" ++ bucket_name p ++ "/" ++ dest_obj.

(** [str(short_dir / short_name)]. *)
Definition short_path (short_name : string) : string :=
  path_div (path_div (path_div "workspace" basename) "shorts") short_name.

(** Lines 148-197: one piece [(s, e)] of rank [k] in interval [i]. [inl]
    is an early [return] (or an exception that reaches the outer
    [except]), with the state it leaves. *)
Definition one_piece (st : state) (i : nat) (ks : nat * (Z * Z))
  : error * state + state :=
  let '(k, (s, e)) := ks in
  match dur_sec s e orig_sr, truediv (inject_Z s) (inject_Z orig_sr),
        truediv (inject_Z e) (inject_Z orig_sr) with
  | Returned dur, Returned s_sec, Returned e_sec =>
      let regular_seg_name := seg_filename basename i k in
      if Qgeb dur (min_duration p) then
        let dest_obj := dest_of regular_seg_name in
        let row := TsvRow regular_seg_name regular (round3 s_sec)
                     (round3 e_sec) (round3 dur) in
        if blob_exists w dest_obj then
          match delete w dest_obj with
          | Some err => inl (delete_regular_error err, st)
          | None =>
              inr (State (tsv st ++ [row]) (manifest_items st)
                     (bucket_log st ++ [Deleted dest_obj]))
          end
        else inr (State (tsv st ++ [row]) (manifest_items st)
                    (bucket_log st))
      else
        match SaveShort.ms s orig_sr, SaveShort.ms e orig_sr with
        | Returned start_ms_val, Returned end_ms_val =>
            let short_name := short_name basename start_ms_val end_ms_val in
            match (safe_save_waveform (save w short_name) 5).1 with
            | Raised err => inl (save_segment_error err, st)
            | Returned _ =>
                let row := TsvRow short_name short (round3 s_sec)
                             (round3 e_sec) (round3 dur) in
                let dest_obj := dest_of short_name in
                match upload w dest_obj with
                | Some err =>
                    inl (upload_short_error err,
                         State (tsv st ++ [row]) (manifest_items st)
                           (bucket_log st))
                | None =>
                    let public_url :=
                      if negb (no_gcs p) then
                        default (gs_uri dest_obj) (make_public w dest_obj)
                      else gs_uri dest_obj in
                    inr (State (tsv st ++ [row])
                           (manifest_items st
                            ++ [Item (gs_uri dest_obj)
                                  (short_path short_name) public_url
                                  (round3 dur)])
                           (bucket_log st ++ [Uploaded dest_obj]))
                end
            end
        | Raised err, _ | _, Raised err => inl (process_error err, st)
        end
  | Raised err, _, _ | _, Raised err, _ | _, _, Raised err =>
      inl (process_error err, st)
  end.

(** The loop over the pieces of interval [i]. *)
Fixpoint pieces_loop (st : state) (i : nat) (splits : list (nat * (Z * Z)))
  : error * state + state :=
  match splits with
  | [] => inr st
  | ks :: rest =>
      match one_piece st i ks with
      | inl stop => inl stop
      | inr st' => pieces_loop st' i rest
      end
  end.

(** Lines 132-197: the loop over the intervals. *)
Fixpoint intervals_loop (sr_ratio : Q) (st : state)
    (timestamps : list (nat * (Z * Z))) : error * state + state :=
  match timestamps with
  | [] => inr st
  | (i, (start_16k, end_16k)) :: rest =>
      let start_orig := rescale start_16k sr_ratio in
      let end_orig := rescale end_16k sr_ratio in
      match SaveShort.splits_of start_orig end_orig orig_sr
              (max_duration p) with
      | Raised err => inl (process_error err, st)
      | Returned splits =>
          match pieces_loop st i (enumerate splits) with
          | inl stop => inl stop
          | inr st' => intervals_loop sr_ratio st' rest
          end
      end
  end.

End Loop.

(** [os.path.splitext(os.path.basename(object_name))[0]]. *)
Definition stem (object_name : string) : string :=
  (splitext (os_basename object_name)).1.

(** [basename[-13:]]. *)
Definition last13 (basename : string) : string :=
  drop_chars (String.length basename - 13) basename.

(** The tuple [process_one_audio] returns. *)
Definition returned : Type :=
  string * status * option (list item) * option error.

(** [process_one_audio], from the download on: the tuple returned, and
    the state the call leaves behind. *)
Definition process_one_audio (w : world) (p : job) : returned * state :=
  let basename := stem (object_name p) in
  let st0 := State [] [] [] in
  let failed (err : error) (st : state) : returned * state :=
    ((object_name p, ERROR, None, Some err), st) in
  match (safe_download_blob (download w) 2).1 with
  | Raised e => failed (download_error e) st0
  | Returned _ =>
      if negb (local_ok w) then failed download_error_zero_size st0
      else
        match load w with
        | inl e => failed (torchaudio_load_error e) st0
        | inr orig_sr =>
            match vad w with
            | inl e => failed (process_error e) st0
            | inr speech_timestamps =>
                match truediv (inject_Z orig_sr)
                        (inject_Z (vad_sample_rate p)) with
                | Raised e => failed (process_error e) st0
                | Returned sr_ratio =>
                    match intervals_loop w p basename orig_sr sr_ratio st0
                            (enumerate speech_timestamps) with
                    | inl (err, st) => failed err st
                    | inr st =>
                        let dest_manifest_obj :=
                          path_join3 "short-manifests" (last13 basename)
                            (basename ++ ".jsonl") in
                        match upload_manifest w dest_manifest_obj with
                        | Some e => failed (upload_manifest_error e) st
                        | None =>
                            let dest_tsv_obj :=
                              path_join3 "tsv_timestamps" (last13 basename)
                                (basename ++ ".tsv") in
                            match upload_tsv w dest_tsv_obj with
                            | Some e => failed (upload_tsv_error e) st
                            | None =>
                                ((object_name p, OK,
                                  Some (manifest_items st), None), st)
                            end
                        end
                    end
                end
            end
        end
  end.

(** The line [main] writes in the final manifest for an item (lines
    292-296); an item of [process_one_audio] has no ["text"]. *)
Record out_item : Type := OutItem {
  semi_label : string;
  out_duration : Q;
  out_audio_filepath : string
}.

Definition out_item_of (no_gcs : bool) (it : item) : out_item :=
  OutItem "" (duration it)
    (if negb no_gcs then public_url it else audio_gs it).

(** The objects a log records as uploaded. *)
Definition uploaded (log : list effect) : list string :=
  omap (λ ef, match ef with
              | Uploaded dest_obj => Some dest_obj
              | Deleted _ => None
              end) log.

Definition is_short (kind : seg_type) : bool :=
  match kind with
  | short => true
  | regular => false
  end.

(** The duration of a piece, in seconds. *)
Definition piece_duration (orig_sr : Z) (g : segment) : Q :=
  (inject_Z (seg_end g - seg_start g) / inject_Z orig_sr)%Q.

(** The short pieces among the rows of the segmentation. *)
Definition short_pieces (rows : list segment) : list segment :=
  filter (λ g, is_short (seg_kind g) = true) rows.

(** No call to the outside fails. *)
Definition never_fails (w : world) : Prop :=
  (safe_download_blob (download w) 2).1 = Returned tt ∧
  local_ok w = true ∧
  (∀ dest_obj, delete w dest_obj = None) ∧
  (∀ short_name, (safe_save_waveform (save w short_name) 5).1 = Returned tt) ∧
  (∀ dest_obj, upload w dest_obj = None) ∧
  (∀ dest_obj, upload_manifest w dest_obj = None) ∧
  (∀ dest_obj, upload_tsv w dest_obj = None).

(** The short rows of a table. *)
Definition short_rows (rows : list tsv_row) : list tsv_row :=
  filter (λ row, is_short (tsv_type row) = true) rows.

(** What holds of the state at every point of the loop: an item is
    recorded for exactly the uploaded pieces; an item's public address is
    its [gs://] address when [no_gcs] is set; every item has its row in the
    table. [slack] is [1] between the writing of a short row and the
    recording of its item. *)
Definition inv (p : job) (slack : nat) (st : state) : Prop :=
  map audio_gs (manifest_items st)
  = map (gs_uri p) (uploaded (bucket_log st)) ∧
  (no_gcs p = true →
   Forall (λ it, public_url it = audio_gs it) (manifest_items st)) ∧
  length (short_rows (tsv st)) = (length (manifest_items st) + slack)%nat.

(** What the loop has added to a state: the kinds and the names of the new
    rows of the table, and the durations of the new items. *)
Definition added (st st' : state) (kinds : list seg_type)
    (names : list string) (durations : list Q) : Prop :=
  map tsv_type (tsv st') = (map tsv_type (tsv st) ++ kinds)%list ∧
  map tsv_segment_name (tsv st')
  = (map tsv_segment_name (tsv st) ++ names)%list ∧
  map duration (manifest_items st')
  = (map duration (manifest_items st) ++ durations)%list.

End ProcessOne.

(** * Properties *)

(** ** Rounding to the nearest float *)

Module Binary64Props.

Import Py Binary64.
Local Open Scope Z_scope.

Lemma round_proper (x y : Q) : (x == y)%Q → round x = round y.
Proof.
  intros H. unfold round. rewrite (Qfloor_comp _ _ H).
  assert (((x - inject_Z (Qfloor y)) ?= (1 # 2))%Q
          = ((y - inject_Z (Qfloor y)) ?= (1 # 2))%Q)
    as -> by (apply Qcompare_comp; [by rewrite H | reflexivity]).
  reflexivity.
Qed.

Lemma round_inject_Z (z : Z) : round (inject_Z z) = z.
Proof.
  unfold round. rewrite Qfloor_Z.
  assert (((inject_Z z - inject_Z z) ?= (1 # 2))%Q = Lt) as ->; [| done].
  rewrite <- Qlt_alt.
  assert (inject_Z z - inject_Z z == 0)%Q as -> by ring. reflexivity.
Qed.

Lemma round_whole (x : Q) (z : Z) : (x == inject_Z z)%Q → round x = z.
Proof. intros H. rewrite (round_proper _ _ H). apply round_inject_Z. Qed.

Lemma round_between (x : Q) : Qfloor x ≤ round x ≤ Qfloor x + 1.
Proof. unfold round. repeat case_match; lia. Qed.

Lemma round_mono (x y : Q) : (x <= y)%Q → round x ≤ round y.
Proof.
  intros H. pose proof (Qfloor_resp_le _ _ H) as Hf.
  destruct (decide (Qfloor x = Qfloor y)) as [E | NE].
  - unfold round. rewrite E.
    destruct (Qcompare_spec (x - inject_Z (Qfloor y)) (1 # 2)) as [H1 | H1 | H1];
      destruct (Qcompare_spec (y - inject_Z (Qfloor y)) (1 # 2)) as [H2 | H2 | H2];
      try (destruct (Z.even (Qfloor y))); try lia; exfalso; lra.
  - pose proof (round_between x). pose proof (round_between y). lia.
Qed.

Lemma spacing_pos (a : Q) : 0 < spacing a.
Proof. unfold spacing. apply Z.pow_pos_nonneg; lia. Qed.

Lemma Qdiv_whole (n c d : Z) : 0 < d → n = c * d → (inject_Z n / inject_Z d == inject_Z c)%Q.
Proof.
  intros Hd ->. rewrite inject_Z_mult. field.
  intros H. apply (inject_Z_injective d 0) in H. lia.
Qed.

Lemma Qdiv_le_mono (a b : Q) (d : Z) :
  0 < d → (a <= b)%Q → (a / inject_Z d <= b / inject_Z d)%Q.
Proof.
  intros Hd H. apply Qmult_le_compat_r; [done |].
  apply Qinv_le_0_compat. change 0%Q with (inject_Z 0).
  rewrite <- Zle_Qle. lia.
Qed.

Lemma Qdiv_below (a : Q) (n d : Z) :
  0 < d → (a <= inject_Z (n * d))%Q → (a / inject_Z d <= inject_Z n)%Q.
Proof.
  intros Hd H. apply (Qdiv_le_mono _ _ d Hd) in H.
  by rewrite (Qdiv_whole (n * d) n d) in H.
Qed.

Lemma Qdiv_above (a : Q) (n d : Z) :
  0 < d → (inject_Z (n * d) <= a)%Q → (inject_Z n <= a / inject_Z d)%Q.
Proof.
  intros Hd H. apply (Qdiv_le_mono _ _ d Hd) in H.
  by rewrite (Qdiv_whole (n * d) n d) in H.
Qed.

Lemma Qfloor_nonneg (a : Q) : (0 <= a)%Q → 0 ≤ Qfloor a.
Proof. intros H. change 0 with (Qfloor 0). by apply Qfloor_resp_le. Qed.

Lemma below_next_binade (a : Q) (e : Z) :
  (0 <= a)%Q → Z.log2 (Qfloor a) - 52 ≤ e → 0 ≤ e →
  (a <= inject_Z (2 ^ 53 * 2 ^ e))%Q.
Proof.
  intros Ha He He0. pose proof (Qfloor_nonneg a Ha) as Hf.
  pose proof (Qlt_floor a) as Hlt.
  apply Qlt_le_weak. eapply Qlt_le_trans; [exact Hlt |].
  rewrite <- Zle_Qle. rewrite <- Z.pow_add_r by lia.
  destruct (decide (Qfloor a = 0)) as [-> | Hne].
  - pose proof (Z.pow_pos_nonneg 2 (53 + e)). lia.
  - pose proof (Z.log2_spec (Qfloor a) ltac:(lia)) as [_ Hhi].
    assert (2 ^ Z.succ (Z.log2 (Qfloor a)) ≤ 2 ^ (53 + e))
      by (apply Z.pow_le_mono_r; lia).
    lia.
Qed.

Lemma above_binade (a : Q) :
  (0 <= a)%Q → 0 < Z.log2 (Qfloor a) - 52 →
  (inject_Z (2 ^ 52 * 2 ^ (Z.log2 (Qfloor a) - 52)) <= a)%Q.
Proof.
  intros Ha He. eapply Qle_trans; [| apply Qfloor_le].
  rewrite <- Zle_Qle. rewrite <- Z.pow_add_r by lia.
  replace (52 + (Z.log2 (Qfloor a) - 52)) with (Z.log2 (Qfloor a)) by lia.
  assert (0 < Qfloor a) as Hpos.
  { destruct (decide (0 < Qfloor a)); [done |].
    rewrite Z.log2_nonpos in He by lia. lia. }
  by apply Z.log2_spec.
Qed.

Lemma nearest_proper (a b : Q) : (a == b)%Q → nearest a = nearest b.
Proof.
  intros H. unfold nearest, spacing. rewrite (Qfloor_comp _ _ H).
  f_equal. apply round_proper. by rewrite H.
Qed.

Lemma nearest_range (a : Q) :
  (0 <= a)%Q →
  ∃ r, nearest a = r * spacing a ∧ 0 ≤ r ≤ 2 ^ 53 ∧
       (0 < Z.log2 (Qfloor a) - 52 → 2 ^ 52 ≤ r).
Proof.
  intros Ha. exists (round (a / inject_Z (spacing a))). split; [done |].
  pose proof (spacing_pos a) as Hsp. split_and!.
  - rewrite <- (round_inject_Z 0). apply round_mono.
    apply (Qdiv_above a 0 _ Hsp). by rewrite Z.mul_0_l.
  - rewrite <- (round_inject_Z (2 ^ 53)). apply round_mono.
    apply (Qdiv_below a _ _ Hsp). unfold spacing.
    apply below_next_binade; [done | lia | lia].
  - intros He. rewrite <- (round_inject_Z (2 ^ 52)). apply round_mono.
    apply (Qdiv_above a _ _ Hsp). unfold spacing.
    rewrite Z.max_r by lia. by apply above_binade.
Qed.

Lemma nearest_nonneg (a : Q) : (0 <= a)%Q → 0 ≤ nearest a.
Proof.
  intros Ha. destruct (nearest_range a Ha) as (r & -> & Hr & _).
  pose proof (spacing_pos a). nia.
Qed.

Lemma nearest_mono (a b : Q) : (0 <= a)%Q → (a <= b)%Q → nearest a ≤ nearest b.
Proof.
  intros Ha Hab. assert (0 <= b)%Q as Hb by lra.
  pose proof (Qfloor_resp_le _ _ Hab) as Hf.
  pose proof (Z.log2_le_mono _ _ Hf) as Hlog.
  destruct (decide (Z.max 0 (Z.log2 (Qfloor a) - 52)
                    = Z.max 0 (Z.log2 (Qfloor b) - 52))) as [E | NE].
  - unfold nearest, spacing. rewrite E.
    apply Z.mul_le_mono_nonneg_r; [apply Z.pow_nonneg; lia |].
    apply round_mono, Qdiv_le_mono; [apply Z.pow_pos_nonneg; lia | done].
  - destruct (nearest_range a Ha) as (ra & -> & Hra & _).
    destruct (nearest_range b Hb) as (rb & -> & Hrb & Hlo).
    specialize (Hlo ltac:(lia)). unfold spacing.
    set (ea := Z.max 0 (Z.log2 (Qfloor a) - 52)) in *.
    set (eb := Z.max 0 (Z.log2 (Qfloor b) - 52)) in *.
    assert (ea + 1 ≤ eb) as Hlt by lia.
    assert (2 ^ (ea + 1) ≤ 2 ^ eb) as Hpow by (apply Z.pow_le_mono_r; lia).
    rewrite Z.pow_add_r in Hpow by lia.
    assert (0 < 2 ^ ea) by (apply Z.pow_pos_nonneg; lia).
    nia.
Qed.

(** A float that is [k * 2^j] units with [k] of at most 53 bits is its own
    rounding. *)
Lemma nearest_exact (k j : Z) :
  0 ≤ k ≤ 2 ^ 53 → 0 ≤ j → nearest (inject_Z (k * 2 ^ j)) = k * 2 ^ j.
Proof.
  intros Hk Hj. unfold nearest, spacing. rewrite Qfloor_Z.
  set (n := k * 2 ^ j). set (e := Z.max 0 (Z.log2 n - 52)).
  assert (0 < 2 ^ j) as Hpj by (apply Z.pow_pos_nonneg; lia).
  assert (0 < 2 ^ e) as Hpe by (apply Z.pow_pos_nonneg; lia).
  assert (∃ c, n = c * 2 ^ e) as [c Hc].
  { destruct (decide (e = 0)) as [-> | He]; [exists n; lia |].
    assert (e = Z.log2 n - 52) as Hlog by lia.
    assert (0 < n) as Hn.
    { destruct (decide (0 < n)); [done |].
      rewrite Z.log2_nonpos in Hlog by lia. lia. }
    pose proof (Z.log2_spec n Hn) as [Hlo _].
    replace (Z.log2 n) with (52 + e) in Hlo by lia.
    destruct (decide (e ≤ j)) as [Hle | Hgt].
    - exists (k * 2 ^ (j - e)). unfold n.
      rewrite <- Z.mul_assoc, <- Z.pow_add_r by lia. do 2 f_equal. lia.
    - assert (2 ^ (52 + e) = 2 ^ (52 + e - j) * 2 ^ j) as Hsplit
        by (rewrite <- Z.pow_add_r by lia; f_equal; lia).
      assert (2 ^ (52 + e - j) ≤ k) as Hk2 by (unfold n in Hlo; nia).
      assert (52 + e - j ≤ 53) as Hej.
      { destruct (decide (52 + e - j ≤ 53)); [done |].
        assert (2 ^ 54 ≤ 2 ^ (52 + e - j)) by (apply Z.pow_le_mono_r; lia).
        lia. }
      assert (e = j + 1) as -> by lia.
      replace (52 + (j + 1) - j) with 53 in Hk2 by lia.
      assert (k = 2 ^ 53) as -> by lia.
      exists (2 ^ 52). unfold n. rewrite <- !Z.pow_add_r by lia. f_equal. lia. }
  rewrite (round_whole _ c); [lia |].
  apply Qdiv_whole; [done | exact Hc].
Qed.

(** The result of a rounding is a float. *)
Lemma nearest_idem (a : Q) :
  (0 <= a)%Q → nearest (inject_Z (nearest a)) = nearest a.
Proof.
  intros Ha. destruct (nearest_range a Ha) as (r & -> & Hr & _).
  unfold spacing. apply nearest_exact; lia.
Qed.

Lemma Qle_bool_true (a b : Q) : (a <= b)%Q → Qle_bool a b = true.
Proof. apply Qle_bool_iff. Qed.

Lemma Qle_bool_false' (a b : Q) : (b < a)%Q → Qle_bool a b = false.
Proof.
  intros H. destruct (Qle_bool a b) eqn:E; [| done].
  apply Qle_bool_iff in E. lra.
Qed.

Lemma round_units_nonneg (a : Q) : (0 <= a)%Q → round_units a = nearest a.
Proof. intros H. unfold round_units. by rewrite Qle_bool_true. Qed.

Lemma round_units_neg (a : Q) : (a < 0)%Q → round_units a = - nearest (- a).
Proof. intros H. unfold round_units. by rewrite Qle_bool_false'. Qed.

Lemma round_units_proper (a b : Q) : (a == b)%Q → round_units a = round_units b.
Proof.
  intros H. unfold round_units.
  assert (Qle_bool 0 a = Qle_bool 0 b) as ->.
  { destruct (Qle_bool 0 b) eqn:E.
    - apply Qle_bool_iff. apply Qle_bool_iff in E. by rewrite H.
    - destruct (Qle_bool 0 a) eqn:E'; [| done].
      apply Qle_bool_iff in E'. rewrite H in E'.
      apply Qle_bool_iff in E'. congruence. }
  destruct (Qle_bool 0 b); [by apply nearest_proper |].
  f_equal. apply nearest_proper. by rewrite H.
Qed.

Lemma round_units_mono (a b : Q) : (a <= b)%Q → round_units a ≤ round_units b.
Proof.
  intros H. destruct (Qlt_le_dec a 0) as [Ha | Ha];
    destruct (Qlt_le_dec b 0) as [Hb | Hb].
  - rewrite !round_units_neg by done.
    assert (nearest (- b) ≤ nearest (- a)); [| lia].
    apply nearest_mono; lra.
  - rewrite round_units_neg, round_units_nonneg by done.
    pose proof (nearest_nonneg (- a) ltac:(lra)).
    pose proof (nearest_nonneg b Hb). lia.
  - exfalso. lra.
  - rewrite !round_units_nonneg by done. by apply nearest_mono.
Qed.

Lemma round_units_exact (k j : Z) :
  Z.abs k ≤ 2 ^ 53 → 0 ≤ j → round_units (inject_Z (k * 2 ^ j)) = k * 2 ^ j.
Proof.
  intros Hk Hj. assert (0 < 2 ^ j) by (apply Z.pow_pos_nonneg; lia).
  destruct (decide (0 ≤ k)) as [Hpos | Hneg].
  - rewrite round_units_nonneg
      by (change 0%Q with (inject_Z 0); rewrite <- Zle_Qle; nia).
    apply nearest_exact; lia.
  - rewrite round_units_neg
      by (change 0%Q with (inject_Z 0); rewrite <- Zlt_Qlt; nia).
    rewrite <- inject_Z_opp, <- Z.mul_opp_l.
    rewrite nearest_exact by lia. lia.
Qed.

Lemma round_units_whole (a : Q) (k j : Z) :
  Z.abs k ≤ 2 ^ 53 → 0 ≤ j → (a == inject_Z (k * 2 ^ j))%Q →
  round_units a = k * 2 ^ j.
Proof.
  intros Hk Hj H. rewrite (round_units_proper _ _ H).
  by apply round_units_exact.
Qed.

Lemma round_units_range (a : Q) :
  ∃ k j, Z.abs k ≤ 2 ^ 53 ∧ 0 ≤ j ∧ round_units a = k * 2 ^ j.
Proof.
  destruct (Qlt_le_dec a 0) as [Ha | Ha].
  - rewrite round_units_neg by done.
    destruct (nearest_range (- a) ltac:(lra)) as (r & -> & Hr & _).
    exists (- r), (Z.max 0 (Z.log2 (Qfloor (- a)) - 52)).
    unfold spacing. split_and!; lia.
  - rewrite round_units_nonneg by done.
    destruct (nearest_range a Ha) as (r & -> & Hr & _).
    exists r, (Z.max 0 (Z.log2 (Qfloor a) - 52)).
    unfold spacing. split_and!; lia.
Qed.

Lemma round_units_idem (a : Q) :
  round_units (inject_Z (round_units a)) = round_units a.
Proof.
  destruct (round_units_range a) as (k & j & Hk & Hj & ->).
  by apply round_units_exact.
Qed.

Lemma round_units_zero : round_units 0 = 0.
Proof. reflexivity. Qed.

Lemma of_units_is_float (a : Q) : is_float (of_units (round_units a)).
Proof.
  unfold of_units.
  destruct (Z.leb_spec out_of_range (Z.abs (round_units a))); [done |].
  split; [apply round_units_idem | done].
Qed.

Lemma fl_is_float (q : Q) : is_float (fl q).
Proof. apply of_units_is_float. Qed.

Lemma fadd_is_float (x y : float) : is_float (fadd x y).
Proof.
  destruct x as [a | s |], y as [b | t |]; cbn [fadd]; try done.
  - apply of_units_is_float.
  - by destruct (Bool.eqb s t).
Qed.

Lemma of_int_is_float (z : Z) (x : float) : of_int z = Returned x → is_float x.
Proof.
  unfold of_int. pose proof (fl_is_float (inject_Z z)) as H.
  destruct (fl (inject_Z z)); [| done |]; by intros [= <-].
Qed.

(** Adding [0.0] changes nothing. *)
Lemma fadd_zero_r (x : float) : is_float x → fadd x zero = x.
Proof.
  destruct x as [n | s |]; [| done | done]. intros [Hn Hr].
  cbn [fadd zero]. rewrite Z.add_0_r, Hn. unfold of_units.
  destruct (Z.leb_spec out_of_range (Z.abs n)); [lia | done].
Qed.

Lemma of_units_finite (n : Z) :
  Z.abs n < out_of_range → of_units n = Finite n.
Proof.
  intros H. unfold of_units.
  destruct (Z.leb_spec out_of_range (Z.abs n)); [lia | done].
Qed.

Lemma of_units_inv (n c : Z) : of_units n = Finite c → c = n.
Proof.
  unfold of_units. destruct (out_of_range <=? Z.abs n); [done |].
  by intros [= <-].
Qed.

Lemma round_units_sign (q : Q) :
  ((0 <= q)%Q → 0 ≤ round_units q) ∧ ((q <= 0)%Q → round_units q ≤ 0).
Proof.
  split; intros H; apply round_units_mono in H;
    by rewrite round_units_zero in H.
Qed.

(** A rounding stays within a power of two that bounds what is rounded. *)
Lemma round_units_bound (q : Q) (j : Z) :
  0 ≤ j → (- inject_Z (2 ^ j) <= q <= inject_Z (2 ^ j))%Q →
  Z.abs (round_units q) ≤ 2 ^ j.
Proof.
  intros Hj [Hlo Hhi].
  apply round_units_mono in Hhi. rewrite <- inject_Z_opp in Hlo.
  apply round_units_mono in Hlo.
  pose proof (round_units_exact 1 j ltac:(lia) Hj) as E1.
  pose proof (round_units_exact (-1) j ltac:(lia) Hj) as E2.
  rewrite Z.mul_1_l in E1. rewrite E1 in Hhi.
  replace (-1 * 2 ^ j) with (- 2 ^ j) in E2 by lia. rewrite E2 in Hlo.
  lia.
Qed.

Lemma out_of_range_eq : out_of_range = 2 ^ 2098.
Proof. reflexivity. Qed.

Lemma units_eq : units = 2 ^ 1074.
Proof. reflexivity. Qed.

Lemma units_pos : 0 < units.
Proof. rewrite units_eq. by apply Z.pow_pos_nonneg. Qed.

Lemma round_units_in_range (q : Q) :
  (- inject_Z (2 ^ 2097) <= q <= inject_Z (2 ^ 2097))%Q →
  of_units (round_units q) = Finite (round_units q).
Proof.
  intros H. apply of_units_finite. rewrite out_of_range_eq.
  pose proof (round_units_bound q 2097 ltac:(lia) H).
  assert (2 ^ 2097 < 2 ^ 2098) by (apply Z.pow_lt_mono_r; lia). lia.
Qed.

(** An int of at most 53 bits is a float. *)
Lemma of_int_exact (z : Z) :
  Z.abs z ≤ 2 ^ 53 → of_int z = Returned (Finite (z * units)).
Proof.
  intros Hz. unfold of_int, fl.
  rewrite (round_units_whole _ z 1074);
    [| exact Hz | lia | rewrite inject_Z_mult, units_eq; reflexivity].
  rewrite <- units_eq. rewrite of_units_finite; [done |].
  rewrite out_of_range_eq, units_eq, Z.abs_mul.
  rewrite (Z.abs_eq (2 ^ 1074)) by (apply Z.pow_nonneg; lia).
  assert (2 ^ 53 * 2 ^ 1074 < 2 ^ 2098)
    by (rewrite <- Z.pow_add_r by lia; apply Z.pow_lt_mono_r; lia).
  assert (0 < 2 ^ 1074) by (by apply Z.pow_pos_nonneg).
  nia.
Qed.

Lemma of_int_returned (z : Z) (x : float) :
  of_int z = Returned x →
  ∃ c, x = Finite c ∧ (0 ≤ z → 0 ≤ c) ∧ (z ≤ 0 → c ≤ 0).
Proof.
  unfold of_int, fl.
  destruct (of_units _) as [c | |] eqn:E; [| done |];
    [| unfold of_units in E; by destruct (_ <=? _)].
  intros [= <-]. exists c. split; [done |].
  apply of_units_inv in E. rewrite E.
  pose proof units_pos as Hu.
  destruct (round_units_sign (inject_Z z * inject_Z units)) as [H1 H2].
  rewrite <- inject_Z_mult in *.
  split; intros Hz.
  - apply H1. change 0%Q with (inject_Z 0). rewrite <- Zle_Qle. nia.
  - apply H2. change 0%Q with (inject_Z 0). rewrite <- Zle_Qle. nia.
Qed.

(** The product of two finite floats of the same sign is not negative. *)
Lemma fmul_finite_sign (a b c : Z) :
  fmul (Finite a) (Finite b) = Finite c →
  (0 ≤ a * b → 0 ≤ c) ∧ (a * b ≤ 0 → c ≤ 0).
Proof.
  cbn [fmul]. intros E. apply of_units_inv in E. rewrite E.
  pose proof units_pos as Hu.
  destruct (round_units_sign (inject_Z (a * b) / inject_Z units)) as [H1 H2].
  split; intros H.
  - apply H1. apply (Qdiv_above _ 0 _ Hu). rewrite Z.mul_0_l.
    change 0%Q with (inject_Z 0). by rewrite <- Zle_Qle.
  - apply H2. apply (Qdiv_below _ 0 _ Hu). rewrite Z.mul_0_l.
    change 0%Q with (inject_Z 0). by rewrite <- Zle_Qle.
Qed.

(** The product of a float with an int of at most 53 bits: the exact
    product, rounded. *)
Lemma fmul_of_int (a z : Z) :
  fmul (Finite a) (Finite (z * units))
  = of_units (round_units (inject_Z (a * z))).
Proof.
  cbn [fmul]. f_equal. apply round_units_proper.
  pose proof units_pos as Hu. rewrite Z.mul_assoc.
  apply Qdiv_whole; [done | lia].
Qed.

Lemma value_nonneg (n : Z) : 0 ≤ n → (0 <= value n)%Q.
Proof.
  intros H. unfold value. apply (Qdiv_above _ 0 _ units_pos).
  rewrite Z.mul_0_l. change 0%Q with (inject_Z 0). by rewrite <- Zle_Qle.
Qed.

End Binary64Props.


(** ** SNR categories *)

Module CategorizeSnrProps.

Import CalculateSnr.
Local Open Scope Q_scope.

Lemma Qltb_spec (a b : Q) : reflect (a < b) (Qltb a b).
Proof.
  unfold Qltb. destruct (Qle_bool b a) eqn:E; constructor.
  - apply Qle_bool_iff in E. lra.
  - apply Qnot_le_lt. intros H. apply Qle_bool_iff in H. congruence.
Qed.

Ltac by_thresholds :=
  unfold categorize_snr;
  repeat match goal with
         | |- context [Qltb ?a ?b] => destruct (Qltb_spec a b); try lra
         end;
  try reflexivity.

(** C8: [categorize_snr] is a total function of the score with the fixed
    half-open thresholds 0, 5, 15 and 25; scores that are equal as numbers
    get the same label; 0 is low, 24.999 is high and 25 is very high. *)
Theorem categorize_snr_thresholds (x : Q) :
  (x < 0 → categorize_snr x = "Very low SNR"%string) ∧
  (0 <= x < 5 → categorize_snr x = "Low SNR"%string) ∧
  (5 <= x < 15 → categorize_snr x = "Medium SNR"%string) ∧
  (15 <= x < 25 → categorize_snr x = "High SNR"%string) ∧
  (25 <= x → categorize_snr x = "Very high SNR"%string) ∧
  (∀ y, x == y → categorize_snr x = categorize_snr y) ∧
  categorize_snr 0 = "Low SNR"%string ∧
  categorize_snr (24999 # 1000) = "High SNR"%string ∧
  categorize_snr 25 = "Very high SNR"%string.
Proof.
  repeat split; try (intros; by_thresholds).
Qed.

Lemma categorize_snr_thresholds_witness :
  categorize_snr (-3) = "Very low SNR"%string ∧
  categorize_snr (7 # 2) = "Low SNR"%string ∧
  categorize_snr (149 # 10) = "Medium SNR"%string ∧
  categorize_snr 15 = "High SNR"%string ∧
  categorize_snr 40 = "Very high SNR"%string.
Proof.
  split; [apply (proj1 (categorize_snr_thresholds (-3))); reflexivity |].
  split; [apply (proj1 (proj2 (categorize_snr_thresholds (7 # 2)))); split; [discriminate | reflexivity] |].
  split; [apply (proj1 (proj2 (proj2 (categorize_snr_thresholds (149 # 10))))); split; [discriminate | reflexivity] |].
  split; [apply (proj1 (proj2 (proj2 (proj2 (categorize_snr_thresholds 15))))); split; [discriminate | reflexivity] |].
  apply (proj1 (proj2 (proj2 (proj2 (proj2 (categorize_snr_thresholds 40)))))); discriminate.
Defined.

End CategorizeSnrProps.

(** ** Total duration *)

Module CalculateDurationProps.

Import Binary64 CalculateDuration.

Lemma add_to_numeric total entry :
  numeric_duration entry →
  add_to total (get_duration entry)
  = Returned (fadd total (duration_or_zero entry)).
Proof.
  unfold numeric_duration, duration_or_zero, add_to. intros [x ->]. done.
Qed.

Lemma sum_loop_total manifest : ∀ total,
  Forall numeric_duration manifest →
  sum_loop total manifest
  = Returned (fold_left fadd (map duration_or_zero manifest) total).
Proof.
  induction manifest as [| entry rest IH]; intros total Hall; [done |].
  apply Forall_cons in Hall as [He Hrest]. cbn [sum_loop map fold_left].
  rewrite (add_to_numeric total entry He). by apply IH.
Qed.

Lemma missing_duration (entry : gmap string json) :
  entry !! "duration"%string = None →
  get_duration entry = JNum 0 ∧ duration_or_zero entry = zero.
Proof.
  intros Hn. unfold duration_or_zero, get_duration. by rewrite Hn.
Qed.

Lemma fold_fadd_is_float (l : list float) : ∀ total,
  is_float total → is_float (fold_left fadd l total).
Proof.
  induction l as [| x l IH]; intros total Ht; [done |].
  apply IH, Binary64Props.fadd_is_float.
Qed.

Lemma fold_without_missing manifest : ∀ total,
  is_float total →
  fold_left fadd
    (map duration_or_zero (filter (fun e => has_duration e = true) manifest))
    total
  = fold_left fadd (map duration_or_zero manifest) total.
Proof.
  induction manifest as [| entry rest IH]; intros total Ht; [done |].
  rewrite filter_cons.
  destruct (decide (has_duration entry = true)) as [Hd | Hd].
  - cbn [map fold_left]. apply IH, Binary64Props.fadd_is_float.
  - unfold has_duration in Hd.
    assert (entry !! "duration"%string = None) as Hn.
    { destruct (entry !! "duration"%string) eqn:E; [| done].
      exfalso. apply Hd. apply bool_decide_eq_true. eauto. }
    cbn [map fold_left]. destruct (missing_duration entry Hn) as [_ ->].
    rewrite Binary64Props.fadd_zero_r by done. by apply IH.
Qed.

Lemma bind_returned {A B : Type} (a : A) (f : A → outcome B) :
  (Returned a ≫= f) = f a.
Proof. reflexivity. Qed.

Lemma hours_of (total : float) :
  (of_int 3600 ≫= λ divisor,
     truediv total divisor ≫= λ total_hours, mret (total, total_hours))
  = Returned (total, quotient total (Finite (3600 * units))).
Proof.
  assert (of_int 3600 = Returned (Finite (3600 * units))) as ->
    by (vm_compute; reflexivity).
  reflexivity.
Qed.



End CalculateDurationProps.

(** ** Retry wrappers *)

Module RetryProps.

Import Harness.
Local Open Scope Z_scope.

Lemma range_succ (n : Z) : 0 ≤ n → range (n + 1) = range n ++ [n].
Proof.
  intros Hn. unfold range.
  replace (Z.to_nat (n + 1)) with (S (Z.to_nat n)) by lia.
  rewrite seq_S, map_app. simpl. by rewrite Z2Nat.id.
Qed.

Lemma elem_of_range (n a : Z) : a ∈ range n ↔ 0 ≤ a < n.
Proof.
  unfold range. rewrite list_elem_of_fmap. split.
  - intros (k & -> & Hk). apply elem_of_seq in Hk. lia.
  - intros Ha. exists (Z.to_nat a). split; [lia |]. apply elem_of_seq. lia.
Qed.

Lemma length_range (n : Z) : length (range n) = Z.to_nat n.
Proof. unfold range. by rewrite length_map, length_seq. Qed.

(** Either some attempt succeeds, after failed attempts each followed by its
    sleep, or every attempt fails and the last exception is raised. *)
Lemma retry_loop_cases base op : ∀ attempts last_exc log,
  (∃ pre a post,
      attempts = pre ++ a :: post ∧ Forall (fun b => is_Some (op b)) pre ∧
      op a = None ∧
      retry_loop base op attempts last_exc log
      = (Returned (), log ++ trail base pre ++ [Call a])) ∨
  (Forall (fun b => is_Some (op b)) attempts ∧
   retry_loop base op attempts last_exc log
   = (match from_option op last_exc (last attempts) with
      | Some e => Raised e
      | None => Raised TypeError
      end, log ++ trail base attempts)).
Proof.
  induction attempts as [| a rest IH]; intros last_exc log; simpl.
  - right. split; [constructor |]. by rewrite app_nil_r.
  - destruct (op a) as [e |] eqn:Ha.
    + destruct (IH (Some e) (log ++ [Call a; Sleep (base * inject_Z (a + 1))]))
        as [(pre & b & post & -> & Hpre & Hb & ->) | [Hall ->]].
      * left. exists (a :: pre), b, post. split_and!.
        -- reflexivity.
        -- constructor; [by rewrite Ha | done].
        -- exact Hb.
        -- f_equal. simpl. rewrite <- !app_assoc. reflexivity.
      * right. split; [constructor; [by rewrite Ha | done] |].
        f_equal.
        -- destruct rest as [| c rest']; simpl; [by rewrite Ha |].
           change (last (a :: c :: rest')) with (last (c :: rest')).
           destruct (last (c :: rest')) eqn:El; [done |].
           by apply last_None in El.
        -- rewrite <- app_assoc. reflexivity.
    + left. exists [], a, rest. split_and!; [reflexivity | constructor | done |].
      reflexivity.
Qed.

Lemma retry_loop_exhausted base op retries :
  0 ≤ retries →
  (∀ a, 0 ≤ a ≤ retries → is_Some (op a)) →
  ∃ e, op retries = Some e ∧
       retry_loop base op (range (retries + 1)) None []
       = (Raised e, trail base (range (retries + 1))).
Proof.
  intros Hr Hfail.
  destruct (Hfail retries ltac:(lia)) as [e He]. exists e. split; [done |].
  destruct (retry_loop_cases base op (range (retries + 1)) None [])
    as [(pre & a & post & Heq & _ & Ha & _) | [_ ->]].
  - assert (a ∈ range (retries + 1)) as Hin by (rewrite Heq; set_solver).
    apply elem_of_range in Hin. destruct (Hfail a ltac:(lia)) as [? ?]. congruence.
  - rewrite range_succ by done. rewrite last_snoc. simpl. by rewrite He.
Qed.

Lemma calls_app l1 l2 : calls (l1 ++ l2) = (calls l1 + calls l2)%nat.
Proof. unfold calls. by rewrite filter_app, length_app. Qed.

Lemma calls_trail base attempts : calls (trail base attempts) = length attempts.
Proof.
  induction attempts as [| a rest IH]; [done |].
  change (trail base (a :: rest))
    with ([Call a; Sleep (base * inject_Z (a + 1))] ++ trail base rest).
  rewrite calls_app, IH. reflexivity.
Qed.

(** Whatever the operation does, it is called at most once per attempt. *)
Lemma retry_loop_bounded base op attempts :
  (calls (retry_loop base op attempts None []).2 ≤ length attempts)%nat.
Proof.
  destruct (retry_loop_cases base op attempts None [])
    as [(pre & a & post & -> & _ & _ & ->) | [_ ->]]; simpl.
  - rewrite calls_app, calls_trail, length_app. simpl. unfold calls. simpl. lia.
  - by rewrite calls_trail.
Qed.

(** C3: a wrapped download or save is attempted at most [retries + 1] times,
    a failed attempt number [a] is followed by a sleep of [base * (a + 1)]
    seconds (0.5 s for downloads, 0.2 s for saves), and when every attempt
    fails the last error is raised by the wrapper; it is the caller,
    [process_one_audio], that catches it and returns an [ERROR] tuple. *)
Theorem retry_exhausted_raises (op : Z → option exn) (retries : Z) :
  0 ≤ retries →
  (∀ a, 0 ≤ a ≤ retries → is_Some (op a)) →
  ∃ e, op retries = Some e ∧
    safe_download_blob op retries
    = (Raised e, trail (1 # 2) (range (retries + 1))) ∧
    safe_save_waveform op retries
    = (Raised e, trail (2 # 10) (range (retries + 1))) ∧
    (∀ op' : Z → option exn,
       (calls (safe_download_blob op' retries).2 ≤ Z.to_nat (retries + 1))%nat ∧
       (calls (safe_save_waveform op' retries).2 ≤ Z.to_nat (retries + 1))%nat) ∧
    (retries = 2 → ∀ (item : Type) name (rest : unit → result item),
       download_stage name op rest
       = Result name ERROR None (Some (download_error e))) ∧
    (retries = 5 → ∀ (item : Type) name (rest : unit → result item),
       save_stage name op rest
       = Result name ERROR None (Some (save_segment_error e))).
Proof.
  intros Hr Hfail.
  destruct (retry_loop_exhausted (1 # 2) op retries Hr Hfail) as (e & He & Hd).
  destruct (retry_loop_exhausted (2 # 10) op retries Hr Hfail) as (e' & He' & Hs).
  assert (e' = e) as -> by congruence.
  exists e. split; [done |]. split; [exact Hd |]. split; [exact Hs |].
  split.
  { intros op'. rewrite <- length_range.
    split; apply retry_loop_bounded. }
  split.
  - intros -> item name rest. unfold download_stage, safe_download_blob.
    by rewrite Hd.
  - intros -> item name rest. unfold save_stage, safe_save_waveform.
    by rewrite Hs.
Qed.

Lemma retry_exhausted_raises_witness :
  safe_download_blob (fun _ => Some (IOError 7)) 2
  = (Raised (IOError 7),
     [Call 0; Sleep ((1 # 2) * inject_Z 1); Call 1; Sleep ((1 # 2) * inject_Z 2);
      Call 2; Sleep ((1 # 2) * inject_Z 3)]).
Proof.
  destruct (retry_exhausted_raises (fun _ => Some (IOError 7)) 2) as (e & He & Hd & _).
  - lia.
  - intros a _. by eexists.
  - injection He as <-. exact Hd.
Defined.

Lemma retry_loop_failed_prefix base op pre : ∀ rest last_exc log,
  Forall (fun b => is_Some (op b)) pre →
  ∃ last_exc',
    retry_loop base op (pre ++ rest) last_exc log
    = retry_loop base op rest last_exc' (log ++ trail base pre).
Proof.
  induction pre as [| a pre IH]; intros rest last_exc log Hall; simpl.
  - exists last_exc. by rewrite app_nil_r.
  - apply Forall_cons in Hall as [[e Ha] Hpre]. rewrite Ha.
    destruct (IH rest (Some e) (log ++ [Call a; Sleep (base * inject_Z (a + 1))]) Hpre)
      as [l' ->].
    exists l'. rewrite <- app_assoc. reflexivity.
Qed.

Lemma range_split (n k : Z) :
  0 ≤ k < n → ∃ post, range n = range k ++ k :: post.
Proof.
  intros Hk. unfold range.
  replace (Z.to_nat n) with (Z.to_nat k + S (Z.to_nat (n - k - 1)))%nat by lia.
  rewrite seq_app, map_app. simpl. rewrite Z2Nat.id by lia. eauto.
Qed.

(** The wrapper stops at the first attempt that succeeds. *)
Lemma retry_first_success base op retries k :
  0 ≤ k ≤ retries →
  (∀ a, 0 ≤ a < k → is_Some (op a)) → op k = None →
  retry_loop base op (range (retries + 1)) None []
  = (Returned (), trail base (range k) ++ [Call k]).
Proof.
  intros Hk Hfail Hok.
  destruct (range_split (retries + 1) k ltac:(lia)) as [post ->].
  destruct (retry_loop_failed_prefix base op (range k) (k :: post) None [])
    as [l' ->].
  - apply Forall_forall. intros a Ha. apply elem_of_range in Ha. by apply Hfail.
  - simpl. by rewrite Hok.
Qed.

(** Counterexample to the wording of C3: with every attempt failing, the
    wrapper does not return, it raises. *)
Lemma retry_error_is_raised_not_returned :
  ¬ (∀ (op : Z → option exn) (retries : Z),
       0 ≤ retries → (∀ a, 0 ≤ a ≤ retries → is_Some (op a)) →
       ∃ v, (safe_download_blob op retries).1 = Returned v).
Proof.
  intros H. destruct (H (fun _ => Some (IOError 7)) 2) as [v Hv].
  - lia.
  - intros a _. by eexists.
  - vm_compute in Hv. discriminate.
Qed.

End RetryProps.

(** ** Order of the final manifest *)

Module HarnessProps.

Import Harness.

Section Pool.

Context {job item : Type}.
Variable worker : job → result item.
Variable jobs : list job.

Abbreviation consistent := (consistent worker jobs).
Abbreviation settles := (@settles item).

Lemma submit_all_consistent : consistent (submit_all jobs).
Proof.
  split; [apply length_replicate |].
  intros c r H. unfold submit_all in H.
  apply lookup_replicate in H as [? _]. discriminate.
Qed.

Lemma complete_consistent c fs :
  consistent fs → consistent (complete worker jobs c fs).
Proof.
  intros [Hlen Hfs]. unfold complete.
  destruct (jobs !! c) as [p |] eqn:Hp; [| by split].
  split; [by rewrite length_insert |].
  intros c' r H. destruct (decide (c = c')) as [<- | Hne].
  - rewrite list_lookup_insert_eq in H.
    + injection H as <-. by rewrite Hp.
    + rewrite Hlen. by eapply lookup_lt_Some.
  - rewrite list_lookup_insert_ne in H by done. by apply Hfs.
Qed.

Lemma complete_settles c schedule fs k :
  consistent fs → (k < length jobs)%nat →
  settles (c :: schedule) fs k →
  settles schedule (complete worker jobs c fs) k.
Proof.
  intros [Hlen Hfs] Hk [[r Hr] | Hin]; unfold complete.
  - destruct (jobs !! c) as [p |] eqn:Hp; [| left; eauto].
    destruct (decide (c = k)) as [-> | Hne].
    + left. exists (worker p). apply list_lookup_insert_eq.
      by eapply lookup_lt_Some.
    + left. exists r. by rewrite list_lookup_insert_ne.
  - apply elem_of_cons in Hin as [-> | Hin]; [| by right].
    destruct (lookup_lt_is_Some_2 jobs c Hk) as [p Hp]. rewrite Hp.
    left. exists (worker p). apply list_lookup_insert_eq. by rewrite Hlen.
Qed.

Lemma wait_result_settled k : ∀ schedule fs,
  consistent fs → (k < length jobs)%nat → settles schedule fs k →
  ∃ r schedule' fs',
    wait_result worker jobs k schedule fs = Some (r, schedule', fs') ∧
    worker <$> jobs !! k = Some r ∧
    consistent fs' ∧
    ∀ k', (k' < length jobs)%nat → settles schedule fs k' →
          settles schedule' fs' k'.
Proof.
  induction schedule as [| c schedule IH]; intros fs Hc Hk Hs.
  - destruct Hs as [[r Hr] | Hin]; [| by apply elem_of_nil in Hin].
    exists r, [], fs. simpl. rewrite Hr. split_and!; try done.
    by apply Hc.
  - destruct (fs !! k) as [[r |] |] eqn:Hr.
    + exists r, (c :: schedule), fs. simpl. rewrite Hr. split_and!; try done.
      by apply Hc.
    + destruct (IH (complete worker jobs c fs)) as (r & s' & fs' & Hw & Hres & Hc' & Hrest).
      * by apply complete_consistent.
      * done.
      * by apply complete_settles.
      * exists r, s', fs'. simpl. rewrite Hr. split_and!; try done.
        intros k' Hk' Hs'. apply Hrest; [done |]. by apply complete_settles.
    + apply lookup_ge_None in Hr. destruct Hc as [Hlen _]. lia.
Qed.

Lemma map_yield_in_order : ∀ ks schedule fs,
  consistent fs →
  (∀ k, k ∈ ks → (k < length jobs)%nat ∧ settles schedule fs k) →
  map_yield worker jobs ks schedule fs
  = Some (omap (fun k => worker <$> jobs !! k) ks).
Proof.
  induction ks as [| k ks IH]; intros schedule fs Hc Hks; [done |].
  destruct (Hks k) as [Hk Hs]; [by left |].
  destruct (wait_result_settled k schedule fs Hc Hk Hs)
    as (r & s' & fs' & Hw & Hres & Hc' & Hrest).
  simpl. rewrite Hw, Hres.
  rewrite (IH s' fs' Hc'); [done |].
  intros k' Hk'. destruct (Hks k') as [? ?]; [by right |]. split; [done |].
  by apply Hrest.
Qed.

Lemma lookup_all_in_order (l0 l : list job) :
  omap (fun k => worker <$> (l0 ++ l) !! k) (seq (length l0) (length l))
  = map worker l.
Proof.
  revert l0. induction l as [| p l IH]; intros l0; [done |].
  simpl. rewrite list_lookup_middle by done. simpl. f_equal.
  replace (l0 ++ p :: l) with ((l0 ++ [p]) ++ l) by (by rewrite <- app_assoc).
  replace (S (length l0)) with (length (l0 ++ [p])) by (rewrite length_app; simpl; lia).
  apply IH.
Qed.

Lemma executor_map_in_order schedule :
  (∀ k, (k < length jobs)%nat → k ∈ schedule) →
  executor_map worker jobs schedule = Some (map worker jobs).
Proof.
  intros Hall. unfold executor_map.
  rewrite map_yield_in_order.
  - f_equal. apply (lookup_all_in_order [] jobs).
  - apply submit_all_consistent.
  - intros k Hk. apply elem_of_seq in Hk. split; [lia |]. right. apply Hall. lia.
Qed.

Lemma collect_counts (rs : list (result item)) : ∀ t,
  (processed (fold_left collect rs t) + errors (fold_left collect rs t)
   = processed t + errors t + length rs)%nat.
Proof.
  induction rs as [| r rs IH]; intros t; simpl; [lia |].
  rewrite IH. unfold collect.
  destruct (res_status r), (res_items r); simpl; lia.
Qed.

End Pool.

(** C2: whatever the order in which the pool completes the jobs, as long
    as each of them completes, [main] reads the results of [ex.map] in
    submission order: the final manifest lists the successful items in the
    order of the input work-item list, and every job is counted once as
    processed or as an error. *)
Theorem main_keeps_submission_order {job item : Type}
    (worker : job → result item) (jobs : list job) (schedule : list nat) :
  (∀ k, (k < length jobs)%nat → k ∈ schedule) →
  ∃ t, main worker jobs schedule = Some t ∧
       all_manifest_items t = submission_order_items worker jobs ∧
       (processed t + errors t = length jobs)%nat.
Proof.
  intros Hall. unfold main. rewrite executor_map_in_order by done. simpl.
  eexists. split; [reflexivity |]. split; [reflexivity |].
  rewrite collect_counts. simpl. by rewrite length_map.
Qed.

Lemma main_keeps_submission_order_witness :
  ∃ t, main (fun j : nat => Result ""%string OK (Some [j; j]) None)
         [10; 20; 30]%nat [2; 0; 1]%nat = Some t ∧
       all_manifest_items t = [10; 10; 20; 20; 30; 30]%nat.
Proof.
  destruct (main_keeps_submission_order
              (fun j : nat => Result ""%string OK (Some [j; j]) None)
              [10; 20; 30]%nat [2; 0; 1]%nat) as (t & Ht & Hitems & _).
  - intros k Hk. simpl in Hk.
    destruct k as [| [| [| k]]]; [set_solver | set_solver | set_solver | lia].
  - exists t. split; [exact Ht |]. rewrite Hitems. reflexivity.
Defined.

(** Counterexample to the wording of C2: two jobs, the second completing
    first; the manifest is in submission order, not in completion order. *)
Lemma manifest_not_in_completion_order :
  main (fun j : nat => Result ""%string OK (Some [j]) None)
       [1; 2]%nat [1; 0]%nat
  = Some (Totals [1; 2]%nat 0 2) ∧
  completion_order_items (fun j : nat => Result ""%string OK (Some [j]) None)
       [1; 2]%nat [1; 0]%nat = [2; 1]%nat ∧
  ¬ (∀ t, main (fun j : nat => Result ""%string OK (Some [j]) None)
               [1; 2]%nat [1; 0]%nat = Some t →
          all_manifest_items t
          = completion_order_items
              (fun j : nat => Result ""%string OK (Some [j]) None)
              [1; 2]%nat [1; 0]%nat).
Proof.
  split; [reflexivity |]. split; [reflexivity |].
  intros H. specialize (H _ eq_refl). discriminate.
Qed.

End HarnessProps.

(** ** Interval masks *)

Module MaskProps.

Import Binary64 CalculateSnr.
Local Open Scope Z_scope.

Lemma slice_assign_lookup (m : list bool) (s e : Z) (v : bool) (k : nat) :
  slice_assign m s e v !! k
  = (fun b => if (s <=? Z.of_nat k) && (Z.of_nat k <? e) then v else b)
      <$> m !! k.
Proof. unfold slice_assign. by rewrite list_lookup_imap. Qed.

Lemma slice_assign_length (m : list bool) (s e : Z) (v : bool) :
  length (slice_assign m s e v) = length m.
Proof. unfold slice_assign. apply length_imap. Qed.

Lemma mark_length n g m iv : length (mark n g m iv) = length m.
Proof.
  unfold mark. destruct (_ <? _); [apply slice_assign_length | done].
Qed.

Lemma mark_true n g (m : list bool) iv (k : nat) :
  length m = n →
  mark n g m iv !! k = Some true ↔
  m !! k = Some true ∨
  ((k < n)%nat ∧ iv.1 - g ≤ Z.of_nat k < iv.2 + g).
Proof.
  intros Hlen. unfold mark.
  destruct (Z.ltb_spec (Z.max 0 (iv.1 - g)) (Z.min (Z.of_nat n) (iv.2 + g)))
    as [Hlt | Hge].
  - rewrite slice_assign_lookup.
    destruct (m !! k) as [b |] eqn:Hk; simpl.
    + apply lookup_lt_Some in Hk as Hkn.
      destruct (Z.leb_spec (Z.max 0 (iv.1 - g)) (Z.of_nat k));
        destruct (Z.ltb_spec (Z.of_nat k) (Z.min (Z.of_nat n) (iv.2 + g)));
        simpl; split; intros H'; try (left; done); try (right; lia);
        try done; destruct H' as [H' | H']; try done; try lia.
    + apply lookup_ge_None in Hk. split; [done |].
      intros [H' | H']; [done | lia].
  - split; [by left |]. intros [H' | H']; [done | lia].
Qed.

Lemma fold_mark_length n g ivs : ∀ m,
  length (fold_left (mark n g) ivs m) = length m.
Proof.
  induction ivs as [| iv ivs IH]; intros m; simpl; [done |].
  by rewrite IH, mark_length.
Qed.

Lemma fold_mark_true n g ivs (k : nat) : ∀ m : list bool,
  length m = n →
  fold_left (mark n g) ivs m !! k = Some true ↔
  m !! k = Some true ∨
  ((k < n)%nat ∧ ∃ iv, iv ∈ ivs ∧ iv.1 - g ≤ Z.of_nat k < iv.2 + g).
Proof.
  induction ivs as [| iv ivs IH]; intros m Hlen; simpl.
  - split; [by left |]. intros [H | (_ & iv & Hin & _)]; [done |].
    by apply elem_of_nil in Hin.
  - rewrite IH by (by rewrite mark_length). rewrite mark_true by done.
    split.
    + intros [[H | [Hk H]] | (Hk & iv' & Hin & H)].
      * by left.
      * right. split; [done |]. exists iv. split; [by left | done].
      * right. split; [done |]. exists iv'. split; [by right | done].
    + intros [H | (Hk & iv' & Hin & H)]; [by left; left |].
      apply elem_of_cons in Hin as [-> | Hin].
      * left. by right.
      * right. split; [done |]. by exists iv'.
Qed.

Lemma round_nonneg (x : Q) : (0 <= x)%Q → 0 ≤ round x.
Proof.
  intros Hx. unfold round.
  assert (0 ≤ Qfloor x) as Hf.
  { change 0 with (Qfloor 0). by apply Qfloor_resp_le. }
  destruct (_ ?= _)%Q; [destruct (Z.even _) | |]; lia.
Qed.

Lemma guard_samples_nonneg (guard_s : float) (sr g : Z) :
  fle zero guard_s = true → 0 ≤ sr →
  CalculateSnr64.guard_samples guard_s sr = Returned g → 0 ≤ g.
Proof.
  intros Hguard Hsr. unfold CalculateSnr64.guard_samples.
  destruct (of_int sr) as [r |] eqn:Hr; [| done].
  apply Binary64Props.of_int_returned in Hr as (b & -> & Hb & _).
  specialize (Hb Hsr). cbn [mbind outcome_bind].
  destruct guard_s as [a | s |]; [| | done].
  - cbn [fle zero] in Hguard. apply Z.leb_le in Hguard.
    destruct (fmul (Finite a) (Finite b)) as [c | |] eqn:Hc; [| done | done].
    apply Binary64Props.fmul_finite_sign in Hc as [Hc _].
    cbn [py_round]. intros [= <-].
    apply round_nonneg, Binary64Props.value_nonneg, Hc. nia.
  - cbn [fmul]. by destruct (is_zero (Finite b)).
Qed.

Lemma guard_samples_finite (a sr : Z) :
  Z.abs sr ≤ 2 ^ 53 → Z.abs (a * sr) ≤ 2 ^ 2097 →
  CalculateSnr64.guard_samples (Finite a) sr
  = Returned (round (value (round_units (inject_Z (a * sr))))).
Proof.
  intros Hsr Hprod. unfold CalculateSnr64.guard_samples.
  rewrite Binary64Props.of_int_exact by done. cbn [mbind outcome_bind].
  rewrite Binary64Props.fmul_of_int.
  rewrite Binary64Props.round_units_in_range; [done |].
  rewrite <- inject_Z_opp, <- !Zle_Qle. lia.
Qed.

(** C5: with [g = int(round(guard_s * sr))] the guard in samples, the
    product being the float product, the mask has length [n] and marks
    exactly the samples of [0, n) that lie in some interval widened by [g]
    on both sides; so for a non-negative guard every sample inside an
    interval, or among the [g] samples before its start or after its end, is
    present, every sample outside all widened intervals is absent, and an
    empty interval list gives the all-[False] mask. The mask is returned
    whenever the guard in samples is: for a finite guard whose product with
    the rate is in the range of the floats. *)
Theorem intervals_to_mask_exact (intervals : list (Z * Z)) (n : nat) (sr : Z)
    (guard_s : float) :
  (∀ a, guard_s = Finite a → Z.abs sr ≤ 2 ^ 53 → Z.abs (a * sr) ≤ 2 ^ 2097 →
        CalculateSnr64.guard_samples guard_s sr
        = Returned (round (value (round_units (inject_Z (a * sr)))))) ∧
  (∀ e, CalculateSnr64.guard_samples guard_s sr = Raised e →
        CalculateSnr64._intervals_to_mask intervals n sr guard_s = Raised e) ∧
  (∀ g, CalculateSnr64.guard_samples guard_s sr = Returned g →
     ∃ m,
       CalculateSnr64._intervals_to_mask intervals n sr guard_s = Returned m ∧
       length m = n ∧
       (∀ k : nat,
          m !! k = Some true ↔
          (k < n)%nat ∧
          ∃ s e, (s, e) ∈ intervals ∧
                 Z.max 0 (s - g) ≤ Z.of_nat k < Z.min (Z.of_nat n) (e + g)) ∧
       (∀ k : nat,
          (k < n)%nat →
          (¬ ∃ s e, (s, e) ∈ intervals ∧ s - g ≤ Z.of_nat k < e + g) →
          m !! k = Some false) ∧
       (fle zero guard_s = true → 0 ≤ sr →
        0 ≤ g ∧
        ∀ s e (k : nat),
          (s, e) ∈ intervals → s ≤ e → (k < n)%nat →
          s ≤ Z.of_nat k < e ∨ s - g ≤ Z.of_nat k < s
          ∨ e ≤ Z.of_nat k < e + g →
          m !! k = Some true) ∧
       CalculateSnr64._intervals_to_mask [] n sr guard_s
       = Returned (replicate n false)).
Proof.
  split_and!.
  - intros a -> Hsr Hprod. by apply guard_samples_finite.
  - intros e He. unfold CalculateSnr64._intervals_to_mask. by rewrite He.
  - intros g Hg. unfold CalculateSnr64._intervals_to_mask. rewrite Hg.
    cbn [mbind outcome_bind mret outcome_ret].
    set (m := fold_left (mark n g) intervals (replicate n false)).
    assert (∀ k : nat, m !! k = Some true ↔
              (k < n)%nat ∧
              ∃ iv, iv ∈ intervals ∧ iv.1 - g ≤ Z.of_nat k < iv.2 + g)
      as Hexact.
    { intros k. unfold m.
      rewrite fold_mark_true by apply length_replicate.
      split; [| by right].
      intros [H | H]; [| done]. apply lookup_replicate in H as [? _]. done. }
    assert (length m = n) as Hlen
      by (unfold m; by rewrite fold_mark_length, length_replicate).
    exists m. split_and!; [done | done | | | | done].
    + intros k. rewrite Hexact. split.
      * intros (Hk & [s e] & Hin & H). split; [done |]. exists s, e.
        simpl in H. split; [done | lia].
      * intros (Hk & s & e & Hin & H). split; [done |]. exists (s, e).
        split; [done | simpl; lia].
    + intros k Hk Hout.
      destruct (lookup_lt_is_Some_2 m k ltac:(lia)) as [[|] Hb]; [| done].
      apply Hexact in Hb as (_ & [s e] & Hin & H). exfalso. apply Hout. eauto.
    + intros Hguard Hsr.
      pose proof (guard_samples_nonneg guard_s sr g Hguard Hsr Hg) as Hg0.
      split; [done |]. intros s e k Hin Hse Hk H. apply Hexact.
      split; [done |]. exists (s, e). split; [done | simpl; lia].
Qed.

Lemma intervals_to_mask_exact_witness :
  CalculateSnr64.guard_samples (fl (85 # 1000)) 44100 = Returned 3749 ∧
  ∃ m,
    CalculateSnr64._intervals_to_mask [(3750, 3760)] 4000 44100
      (fl (85 # 1000)) = Returned m ∧
    m !! 0%nat = Some false ∧ m !! 1%nat = Some true.
Proof.
  assert (CalculateSnr64.guard_samples (fl (85 # 1000)) 44100
          = Returned 3749) as Hg by (vm_compute; reflexivity).
  split; [exact Hg |].
  destruct (intervals_to_mask_exact [(3750, 3760)] 4000 44100
              (fl (85 # 1000))) as (_ & _ & H).
  destruct (H 3749 Hg) as (m & Hm & _ & Hexact & Hout & _).
  exists m. split; [exact Hm |]. split.
  - apply Hout; [lia |]. intros (s & e & Hse & Hin).
    apply list_elem_of_singleton in Hse as [= -> ->]. lia.
  - apply Hexact. split; [lia |].
    exists 3750, 3760. split; [by left | lia].
Defined.

End MaskProps.

(** ** Short-run suppression *)

Module IslandProps.

Import CalculateSnr.
Local Open Scope Z_scope.

Lemma scan_run_spec (mask : list bool) (n : nat) : ∀ fuel j,
  length mask = n → (j ≤ n)%nat → (n - j ≤ fuel)%nat →
  ∃ j', scan_run fuel mask n j = Some j' ∧
        (j ≤ j' ≤ n)%nat ∧
        (∀ k, (j ≤ k < j')%nat → mask !! k = Some true) ∧
        (j' = n ∨ mask !! j' = Some false).
Proof.
  induction fuel as [| fuel IH]; intros j Hlen Hj Hfuel.
  - assert (j = n) as -> by lia. exists n. simpl.
    rewrite (proj2 (Nat.ltb_ge n n)) by lia. simpl.
    split_and!; [done | lia | lia | intros; lia | by left].
  - simpl. destruct (Nat.ltb_spec j n) as [Hlt | Hge]; simpl.
    + destruct (mask !!! j) eqn:Hb.
      * destruct (IH (j + 1)%nat Hlen ltac:(lia) ltac:(lia))
          as (j' & -> & Hj' & Htrue & Hend).
        exists j'. split_and!; [done | lia | lia | | done].
        intros k Hk. destruct (decide (k = j)) as [-> | Hne].
        -- rewrite list_lookup_lookup_total_lt by lia. by rewrite Hb.
        -- apply Htrue. lia.
      * exists j. split_and!; [done | lia | lia | intros; lia |].
        right. rewrite list_lookup_lookup_total_lt by lia. by rewrite Hb.
    + exists j. split_and!; [done | lia | lia | intros; lia | left; lia].
Qed.

Lemma is_run_unique (m : list bool) (a b a' b' k : nat) :
  is_run m a b → is_run m a' b' → (a ≤ k < b)%nat → (a' ≤ k < b')%nat →
  a = a' ∧ b = b'.
Proof.
  intros (Hab & Ht & Ha & Hb) (Hab' & Ht' & Ha' & Hb') Hk Hk'.
  split.
  - destruct (Nat.lt_trichotomy a a') as [Hlt | [-> | Hgt]]; [| done |].
    + destruct Ha' as [-> | Hf]; [lia |].
      rewrite Ht in Hf by lia. discriminate.
    + destruct Ha as [-> | Hf]; [lia |].
      rewrite Ht' in Hf by lia. discriminate.
  - destruct (Nat.lt_trichotomy b b') as [Hlt | [-> | Hgt]]; [| done |].
    + destruct Hb as [-> | Hf]; [lia |].
      rewrite Ht' in Hf by lia. discriminate.
    + destruct Hb' as [-> | Hf]; [lia |].
      rewrite Ht in Hf by lia. discriminate.
Qed.

Lemma in_long_run_true m min_len k :
  in_long_run m min_len k → m !! k = Some true.
Proof. intros (a & b & (_ & Ht & _) & Hk & _). by apply Ht. Qed.

Lemma loop_inv_start m0 min_len : loop_inv m0 min_len m0 0.
Proof.
  split_and!; [done | lia | done | intros; lia | by left].
Qed.

(** Past a [False] sample. *)
Lemma loop_inv_skip m0 min_len mask i :
  loop_inv m0 min_len mask i → (i < length m0)%nat → mask !!! i = false →
  loop_inv m0 min_len mask (i + 1).
Proof.
  intros (Hlen & Hi & Hrest & Hdone & Hedge) Hlt Hb.
  assert (m0 !! i = Some false) as Hf.
  { rewrite <- Hrest by lia. rewrite list_lookup_lookup_total_lt by lia.
    by rewrite Hb. }
  split_and!; [done | lia | intros; apply Hrest; lia | |].
  - intros k Hk. destruct (decide (k = i)) as [-> | Hne]; [| apply Hdone; lia].
    rewrite Hrest, Hf by lia. split; [done |].
    intros H. apply in_long_run_true in H. congruence.
  - right. left. by replace (i + 1 - 1)%nat with i by lia.
Qed.

(** Past the run that starts at [i] and ends before [j]. *)
Lemma loop_inv_run m0 min_len mask i j :
  loop_inv m0 min_len mask i → (i < length m0)%nat → mask !!! i = true →
  (i + 1 ≤ j ≤ length m0)%nat →
  (∀ k, (i + 1 ≤ k < j)%nat → mask !! k = Some true) →
  (j = length m0 ∨ mask !! j = Some false) →
  loop_inv m0 min_len
    (if Z.of_nat j - Z.of_nat i <? min_len
     then slice_assign mask (Z.of_nat i) (Z.of_nat j) false else mask) j.
Proof.
  intros (Hlen & Hi & Hrest & Hdone & Hedge) Hlt Hb Hj Htrue Hend.
  assert (m0 !! i = Some true) as Hti.
  { rewrite <- Hrest by lia. rewrite list_lookup_lookup_total_lt by lia.
    by rewrite Hb. }
  assert (is_run m0 i j) as Hrun.
  { split_and!; [lia | lia | | |].
    - intros k Hk. destruct (decide (k = i)) as [-> | Hne]; [done |].
      rewrite <- Hrest by lia. apply Htrue. lia.
    - destruct Hedge as [-> | [Hf | [-> | Hf]]];
        [by left | by right | lia | congruence].
    - destruct Hend as [-> | Hf]; [by left | right].
      by rewrite <- Hrest by lia. }
  assert (j = length m0 ∨ m0 !! j = Some false) as Hend0 by apply Hrun.
  destruct (Z.ltb_spec (Z.of_nat j - Z.of_nat i) min_len) as [Hshort | Hlong].
  - split_and!; [by rewrite MaskProps.slice_assign_length | lia | | | ].
    + intros k Hk. rewrite MaskProps.slice_assign_lookup, Hrest by lia.
      destruct (m0 !! k); [simpl | done].
      by rewrite (proj2 (Z.ltb_ge (Z.of_nat k) (Z.of_nat j))), andb_false_r by lia.
    + intros k Hk. rewrite MaskProps.slice_assign_lookup.
      destruct (decide (k < i)%nat) as [Hki | Hki].
      * rewrite <- Hdone by done. destruct (mask !! k); [simpl | done].
        by rewrite (proj2 (Z.leb_gt (Z.of_nat i) (Z.of_nat k))) by lia.
      * assert (mask !! k = Some true) as ->.
        { rewrite Hrest by lia. apply Hrun. lia. }
        simpl. rewrite (proj2 (Z.leb_le (Z.of_nat i) (Z.of_nat k))) by lia.
        rewrite (proj2 (Z.ltb_lt (Z.of_nat k) (Z.of_nat j))) by lia. simpl.
        split; [done |]. intros (a & b & Hab & Hkab & Hlen').
        destruct (is_run_unique m0 a b i j k Hab Hrun) as [-> ->]; lia.
    + destruct Hend0 as [-> | Hf]; [by right; right; left | by right; right; right].
  - split_and!; [done | lia | intros; apply Hrest; lia | | ].
    + intros k Hk. destruct (decide (k < i)%nat) as [Hki | Hki];
        [by apply Hdone |].
      rewrite Hrest by lia. split.
      * intros _. exists i, j. split_and!; [done | lia | lia | lia].
      * apply in_long_run_true.
    + destruct Hend0 as [-> | Hf]; [by right; right; left | by right; right; right].
Qed.

Lemma islands_loop_spec m0 min_len : ∀ fuel mask i,
  loop_inv m0 min_len mask i → (length m0 - i ≤ fuel)%nat →
  ∃ res, islands_loop fuel min_len mask (length m0) i = Some res ∧
         length res = length m0 ∧
         ∀ k, res !! k = Some true ↔ in_long_run m0 min_len k.
Proof.
  induction fuel as [| fuel IH]; intros mask i Hinv Hfuel.
  - pose proof Hinv as (Hlen & Hi & Hrest & Hdone & Hedge).
    assert (i = length m0) as -> by lia. exists mask. simpl.
    rewrite (proj2 (Nat.ltb_ge _ _)) by lia.
    split_and!; [done | done |].
    intros k. destruct (decide (k < length m0)%nat) as [Hk | Hk];
      [by apply Hdone |].
    rewrite (proj2 (lookup_ge_None mask k)) by lia. split; [done |].
    intros H. apply in_long_run_true in H. apply lookup_lt_Some in H. lia.
  - pose proof Hinv as (Hlen & Hi & Hrest & Hdone & Hedge).
    simpl. destruct (Nat.ltb_spec i (length m0)) as [Hlt | Hge].
    + destruct (mask !!! i) eqn:Hb.
      * destruct (scan_run_spec mask (length m0) (length m0) (i + 1)%nat
                    Hlen ltac:(lia) ltac:(lia))
          as (j & -> & Hj & Htrue & Hend).
        simpl. apply IH; [| lia].
        by apply loop_inv_run.
      * apply IH; [| lia]. by apply loop_inv_skip.
    + assert (i = length m0) as -> by lia. exists mask.
      split_and!; [done | done |].
      intros k. destruct (decide (k < length m0)%nat) as [Hk | Hk];
        [by apply Hdone |].
      rewrite (proj2 (lookup_ge_None mask k)) by lia. split; [done |].
      intros H. apply in_long_run_true in H. apply lookup_lt_Some in H. lia.
Qed.

Lemma long_run_kept (m res : list bool) (min_len : Z) (a b : nat) :
  length res = length m →
  (∀ k, res !! k = Some true ↔ in_long_run m min_len k) →
  is_run m a b → min_len ≤ Z.of_nat b - Z.of_nat a → is_run res a b.
Proof.
  intros Hlen Hres Hrun Hlong. pose proof Hrun as (Hab & Ht & Ha & Hb).
  assert (∀ k, m !! k = Some false → res !! k = Some false) as Hfalse.
  { intros k Hk. apply lookup_lt_Some in Hk as Hlt.
    destruct (lookup_lt_is_Some_2 res k ltac:(lia)) as [[|] Hr]; [| done].
    apply Hres, in_long_run_true in Hr. congruence. }
  split_and!; [lia | lia | | |].
  - intros k Hk. apply Hres. by exists a, b.
  - destruct Ha as [-> | Hf]; [by left | right; by apply Hfalse].
  - destruct Hb as [-> | Hf]; [by left | right; by apply Hfalse].
Qed.

(** C6: suppression returns a mask of the same length in which no maximal
    [True] run is shorter than [min_len], every maximal run of the input of
    at least [min_len] samples is a maximal run of the output, and nothing is
    ever set. *)
Theorem merge_short_islands_runs (mask : list bool) (min_len : Z) :
  ∃ res, _merge_short_islands mask min_len = Some res ∧
         length res = length mask ∧
         (∀ a b, is_run res a b → min_len ≤ Z.of_nat b - Z.of_nat a) ∧
         (∀ a b, is_run mask a b → min_len ≤ Z.of_nat b - Z.of_nat a →
                 is_run res a b) ∧
         (∀ k, res !! k = Some true → mask !! k = Some true).
Proof.
  destruct (islands_loop_spec mask min_len (length mask) mask 0%nat
              (loop_inv_start mask min_len) ltac:(lia))
    as (res & Hloop & Hlen & Hres).
  exists res. split_and!; [exact Hloop | done | | |].
  - intros a b Hrun. pose proof Hrun as (Hab & Ht & _).
    destruct (proj1 (Hres a) (Ht a ltac:(lia))) as (a' & b' & Hrun' & Hk & Hlong).
    pose proof (long_run_kept mask res min_len a' b' Hlen Hres Hrun' Hlong) as Hkept.
    destruct (is_run_unique res a b a' b' a Hrun Hkept) as [-> ->]; [lia | lia |].
    done.
  - intros a b. by apply long_run_kept.
  - intros k Hk. by apply Hres, in_long_run_true in Hk.
Qed.

Lemma merge_short_islands_runs_witness :
  ∃ res, _merge_short_islands [true; false; true; true] 2 = Some res ∧
         is_run res 2 4 ∧ res !! 0%nat = Some false.
Proof.
  destruct (merge_short_islands_runs [true; false; true; true] 2)
    as (res & Hres & Hlen & Hshort & Hkeep & _).
  exists res. split; [exact Hres |]. split.
  - apply Hkeep; [| lia].
    split_and!; [simpl; lia | simpl; lia | | by right | by left].
    intros k Hk. destruct k as [| [| [| [| k]]]]; try lia; reflexivity.
  - vm_compute in Hres. by injection Hres as <-.
Defined.

End IslandProps.

(** ** Path normalisation *)

Module NormalizeProps.

Import DownloadFromGcs.
Local Open Scope string_scope.

Lemma contains_unfold needle hay :
  contains needle hay
  = match strip_prefix needle hay with
    | Some _ => true
    | None =>
        match hay with
        | "" => false
        | String _ hay' => contains needle hay'
        end
    end.
Proof. by destruct hay. Qed.

Lemma search_bucket_unfold path :
  search_bucket path
  = match strip_prefix bucket_marker path
          ≫= (fun rest => nonempty (take_line rest)) with
    | Some g => Some g
    | None =>
        match path with
        | "" => None
        | String _ path' => search_bucket path'
        end
    end.
Proof. by destruct path. Qed.

(** Without the bucket marker the second pattern does not match. *)
Lemma search_bucket_absent path :
  contains bucket_marker path = false → search_bucket path = None.
Proof.
  induction path as [| c path IH]; rewrite contains_unfold, search_bucket_unfold.
  - by destruct (strip_prefix bucket_marker "").
  - destruct (strip_prefix bucket_marker (String c path)); [done |].
    simpl. exact IH.
Qed.

Lemma search_bucket_skip c rest :
  strip_prefix bucket_marker (String c rest) = None →
  search_bucket (String c rest) = search_bucket rest.
Proof. intros H. rewrite search_bucket_unfold. by rewrite H. Qed.

Lemma normalize_path_canonical_id key :
  canonical key → normalize_path key = key.
Proof.
  intros (Hfb & Hbucket & Hstrip). unfold normalize_path.
  by rewrite Hfb, (search_bucket_absent key Hbucket).
Qed.

Lemma strip_prefix_app p s : strip_prefix p (p ++ s) = Some s.
Proof.
  induction p as [| a p IH]; simpl; [by destruct s |].
  by rewrite Ascii.eqb_refl.
Qed.

Lemma normalize_path_bucket_uri key :
  canonical key → key ≠ "" → take_line key = key →
  normalize_path ("gs://" ++ bucket_marker ++ key) = key.
Proof.
  intros (Hfb & Hbucket & Hstrip) Hne Hline. unfold normalize_path.
  assert (contains "firebasestorage.googleapis.com"
            ("gs://" ++ bucket_marker ++ key) = false) as ->.
  { unfold bucket_marker. cbn -[contains strip_prefix].
    repeat (rewrite contains_unfold; cbn -[contains]).
    exact Hfb. }
  assert (search_bucket ("gs://" ++ bucket_marker ++ key) = Some key) as ->.
  { change ("gs://" ++ bucket_marker ++ key)
      with (String "g" (String "s" (String ":" (String "/" (String "/"
              (bucket_marker ++ key)))))).
    rewrite !search_bucket_skip by reflexivity.
    rewrite search_bucket_unfold, strip_prefix_app. simpl. rewrite Hline.
    destruct key; [done | reflexivity]. }
  exact Hstrip.
Qed.




End NormalizeProps.

(** ** Fallbacks of the signal quality estimator *)

Module EstimatorProps.

Import CalculateSnr.
Local Open Scope Z_scope.

Section Kernels.

Variable frame_rms : list Q → Q.
Variable percentile : list Q → Q → Q.
Variable normal : Q → Z → list Q.
Variable pow10 : Q → Q.
Variable rms_db : list Q → Q.

Lemma range3_nil start stop step :
  0 < step → stop ≤ start → range3 start stop step = [].
Proof.
  intros Hstep Hstop. unfold range3.
  replace (Z.to_nat _) with 0%nat; [done |].
  assert ((stop - start + step - 1) / step ≤ 0); [| lia].
  apply Z.lt_succ_r. apply Z.div_lt_upper_bound; lia.
Qed.

Lemma range3_cons start stop step :
  0 < step → start < stop → ∃ rest, range3 start stop step = start :: rest.
Proof.
  intros Hstep Hstop. unfold range3.
  assert (1 ≤ (stop - start + step - 1) / step) as H.
  { apply Z.div_le_lower_bound; lia. }
  destruct (Z.to_nat _) as [| k] eqn:E; [lia |].
  simpl. eexists. f_equal. lia.
Qed.

(** A waveform shorter than one frame has no frame energies: step (b)
    leaves the noise set as it is. *)
Lemma low_percentile_noise_short x sr xn :
  Z.of_nat (length x) < frame_len sr →
  low_percentile_noise frame_rms percentile x sr xn = xn.
Proof.
  intros Hshort. unfold low_percentile_noise, frame_len in *.
  rewrite range3_nil; [done | lia | lia].
Qed.

(** With one frame or more, step (b) keeps the samples whose magnitude is at
    most the 20th percentile of the frame energies. *)
Lemma low_percentile_noise_frames x sr xn :
  frame_len sr ≤ Z.of_nat (length x) →
  ∃ rms, low_percentile_noise frame_rms percentile x sr xn
         = filter (fun v => Qabs_le (percentile rms 20) v = true) x.
Proof.
  intros Hfits. unfold low_percentile_noise, frame_len in *.
  destruct (range3_cons 0 (Z.of_nat (length x)
                           - Z.max 1 (py_int ((25 # 1000) * inject_Z sr)) + 1)
              (Z.max 1 (py_int ((10 # 1000) * inject_Z sr))))
    as [rest ->]; [lia | lia |].
  simpl. eauto.
Qed.


End Kernels.



End EstimatorProps.

(** ** Splitting of long intervals *)

Module SplitterProps.

Import Splitter.
Local Open Scope Z_scope.

Lemma Qfloor_unique (x : Q) (z : Z) :
  (inject_Z z <= x)%Q → (x < inject_Z (z + 1))%Q → Qfloor x = z.
Proof.
  intros Hle Hlt.
  pose proof (Qfloor_le x) as H1. pose proof (Qlt_floor x) as H2.
  assert (Qfloor x < z + 1) by (rewrite Zlt_Qlt; lra).
  assert (z < Qfloor x + 1) by (rewrite Zlt_Qlt; lra).
  lia.
Qed.

Lemma py_int_nonneg (x : Q) : (0 <= x)%Q → py_int x = Qfloor x.
Proof.
  destruct x as [n d]. unfold Qle, py_int, Qfloor. simpl. intros H.
  apply Z.quot_div_nonneg; lia.
Qed.

Lemma Qceiling_floor (x : Q) :
  (∀ k : Z, ¬ (x == inject_Z k)%Q) → Qceiling x = Qfloor x + 1.
Proof.
  intros Hfrac.
  pose proof (Qfloor_le x) as H1. pose proof (Qlt_floor x) as H2.
  pose proof (Qle_ceiling x) as H3. pose proof (Qceiling_lt x) as H4.
  assert (inject_Z (Qfloor x) < x)%Q as H5.
  { destruct (Qlt_le_dec (inject_Z (Qfloor x)) x) as [? | Hge]; [done |].
    exfalso. apply (Hfrac (Qfloor x)). lra. }
  assert (Qfloor x < Qceiling x) by (rewrite Zlt_Qlt; lra).
  assert (Qceiling x - 1 < Qfloor x + 1) by (rewrite Zlt_Qlt; lra).
  lia.
Qed.

Section Interval.

Variables (start_orig end_orig orig_sr : Z) (max_duration : Q).

(** [X]: [max_duration] in samples; [D]: the interval in samples; [b j]: the
    offset of the boundary number [j]. *)
Local Abbreviation X := (max_duration * inject_Z orig_sr)%Q.
Local Abbreviation D := (end_orig - start_orig).
Local Abbreviation b := (boundary orig_sr max_duration).

Hypothesis Hsr : 0 < orig_sr.
Hypothesis HX : (1 <= X)%Q.

Lemma b_floor j : 0 ≤ j → b j = Qfloor (inject_Z j * X).
Proof.
  intros Hj. unfold boundary.
  assert (0 <= inject_Z j)%Q by (change 0%Q with (inject_Z 0); by rewrite <- Zle_Qle).
  rewrite py_int_nonneg.
  - apply Qfloor_comp. ring.
  - assert (inject_Z j * max_duration * inject_Z orig_sr == inject_Z j * X)%Q
      as -> by ring.
    apply Qmult_le_0_compat; [done | lra].
Qed.

Lemma b_bounds j :
  0 ≤ j →
  (inject_Z (b j) <= inject_Z j * X)%Q ∧
  (inject_Z j * X < inject_Z (b j) + 1)%Q.
Proof.
  intros Hj. rewrite b_floor by done. split; [apply Qfloor_le |].
  pose proof (Qlt_floor (inject_Z j * X)) as H.
  by rewrite inject_Z_plus in H.
Qed.

Lemma b_zero : b 0 = 0.
Proof.
  rewrite b_floor by lia.
  apply Qfloor_unique; change (inject_Z 0) with 0%Q;
    change (inject_Z (0 + 1)) with 1%Q; lra.
Qed.

Lemma b_step j :
  0 ≤ j → Qfloor X ≤ b (j + 1) - b j ≤ Qceiling X.
Proof.
  intros Hj.
  destruct (b_bounds j Hj) as [L1 U1].
  destruct (b_bounds (j + 1) ltac:(lia)) as [L2 U2].
  rewrite inject_Z_plus in L2, U2. change (inject_Z 1) with 1%Q in L2, U2.
  pose proof (Qfloor_le X) as F1. pose proof (Qle_ceiling X) as F2.
  split.
  - assert (b j + Qfloor X < b (j + 1) + 1); [| lia].
    rewrite Zlt_Qlt, !inject_Z_plus. change (inject_Z 1) with 1%Q. lra.
  - assert (b (j + 1) < b j + 1 + Qceiling X); [| lia].
    rewrite Zlt_Qlt, !inject_Z_plus. change (inject_Z 1) with 1%Q. lra.
Qed.

Lemma b_increasing j : 0 ≤ j → b j < b (j + 1).
Proof.
  intros Hj. pose proof (b_step j Hj) as [H _].
  assert (1 ≤ Qfloor X); [| lia].
  change 1 with (Qfloor (inject_Z 1)). by apply Qfloor_resp_le.
Qed.

(** [q]: the duration over [max_duration]. *)
Local Abbreviation q :=
  (duration_ratio start_orig end_orig orig_sr max_duration).

Hypothesis Hlong : (X < inject_Z D)%Q.

Lemma max_duration_pos : (0 < max_duration)%Q.
Proof.
  destruct (Qlt_le_dec 0 max_duration) as [? | Hle]; [done |].
  exfalso. assert (0 <= inject_Z orig_sr)%Q as Hs.
  { change 0%Q with (inject_Z 0). rewrite <- Zle_Qle. lia. }
  assert (max_duration * inject_Z orig_sr <= 0 * inject_Z orig_sr)%Q
    by (by apply Qmult_le_compat_r).
  lra.
Qed.

Lemma sr_pos : (0 < inject_Z orig_sr)%Q.
Proof. change 0%Q with (inject_Z 0). by rewrite <- Zlt_Qlt. Qed.

Lemma q_times_X : (q * X == inject_Z D)%Q.
Proof.
  pose proof max_duration_pos. pose proof sr_pos.
  unfold duration_ratio. field. split; lra.
Qed.

Lemma q_floor_bounds :
  (inject_Z (Qfloor q) * X <= inject_Z D)%Q ∧
  (inject_Z D < (inject_Z (Qfloor q) + 1) * X)%Q.
Proof.
  assert (0 < X)%Q as HX0 by lra.
  pose proof (Qfloor_le q) as H1. pose proof (Qlt_floor q) as H2.
  rewrite inject_Z_plus in H2. change (inject_Z 1) with 1%Q in H2.
  rewrite <- q_times_X. split.
  - apply Qmult_le_compat_r; [done | lra].
  - by apply Qmult_lt_compat_r.
Qed.

Lemma q_floor_pos : 1 ≤ Qfloor q.
Proof.
  change 1 with (Qfloor (inject_Z 1)). apply Qfloor_resp_le.
  change (inject_Z 1) with 1%Q.
  destruct (Qlt_le_dec q 1) as [Hlt | ?]; [| done].
  exfalso. assert (q * X < 1 * X)%Q by (apply Qmult_lt_compat_r; lra).
  rewrite q_times_X in *. lra.
Qed.

Lemma b_inside j : 0 ≤ j ≤ Qfloor q → b j ≤ D.
Proof.
  intros Hj. destruct (b_bounds j ltac:(lia)) as [L _].
  destruct q_floor_bounds as [H _].
  assert (inject_Z j * X <= inject_Z (Qfloor q) * X)%Q.
  { apply Qmult_le_compat_r; [| lra]. rewrite <- Zle_Qle. lia. }
  rewrite Zle_Qle. lra.
Qed.

Lemma b_outside : D ≤ b (Qfloor q + 1).
Proof.
  pose proof q_floor_pos.
  destruct (b_bounds (Qfloor q + 1) ltac:(lia)) as [_ U].
  rewrite inject_Z_plus in U. change (inject_Z 1) with 1%Q in U.
  destruct q_floor_bounds as [_ H'].
  assert (D < b (Qfloor q + 1) + 1); [| lia].
  rewrite Zlt_Qlt, inject_Z_plus. change (inject_Z 1) with 1%Q. lra.
Qed.

Lemma last_length : D - b (Qfloor q) ≤ Qceiling X.
Proof.
  pose proof q_floor_pos.
  destruct (b_bounds (Qfloor q) ltac:(lia)) as [_ U].
  destruct q_floor_bounds as [_ H'].
  pose proof (Qle_ceiling X) as F.
  assert (D < b (Qfloor q) + 1 + Qceiling X); [| lia].
  rewrite Zlt_Qlt, !inject_Z_plus. change (inject_Z 1) with 1%Q. lra.
Qed.

(** The duration is not a whole multiple of [max_duration]. *)
Hypothesis Hfrac :
  ∀ k : Z, ¬ (inject_Z D / inject_Z orig_sr == inject_Z k * max_duration)%Q.

Lemma q_fractional : ∀ k : Z, ¬ (q == inject_Z k)%Q.
Proof.
  intros k Hk. apply (Hfrac k). pose proof max_duration_pos.
  pose proof sr_pos.
  unfold duration_ratio in Hk. rewrite <- Hk. field. split; lra.
Qed.

Lemma b_last_inside : b (Qfloor q) < D.
Proof.
  pose proof q_floor_pos.
  destruct (b_bounds (Qfloor q) ltac:(lia)) as [L _].
  assert (inject_Z (Qfloor q) < q)%Q as Hlt.
  { pose proof (Qfloor_le q).
    destruct (Qlt_le_dec (inject_Z (Qfloor q)) q) as [? | Hge]; [done |].
    exfalso. apply (q_fractional (Qfloor q)). lra. }
  assert (inject_Z (Qfloor q) * X < q * X)%Q
    by (apply Qmult_lt_compat_r; [lra | done]).
  rewrite q_times_X in *. rewrite Zlt_Qlt. lra.
Qed.

(** The sub-ranges from number [j] on tile what is left of the interval. *)
Lemma subsegs_tile (k : nat) : ∀ j : nat,
  Z.of_nat j + Z.of_nat k = Qfloor q →
  tiles (start_orig + b (Z.of_nat j)) end_orig
    (map (subseg start_orig end_orig orig_sr max_duration)
         (map Z.of_nat (seq j (S k)))).
Proof.
  induction k as [| k IH]; intros j Hj.
  - simpl. unfold subseg. fold (b (Z.of_nat j)) (b (Z.of_nat j + 1)).
    replace (Z.of_nat j) with (Qfloor q) by lia.
    pose proof b_last_inside. pose proof b_outside.
    rewrite Z.min_r by lia.
    split_and!; [done | lia | done].
  - change (seq j (S (S k))) with (j :: seq (S j) (S k)).
    rewrite !map_cons. unfold subseg at 1.
    fold (b (Z.of_nat j)) (b (Z.of_nat j + 1)).
    pose proof (b_inside (Z.of_nat j + 1) ltac:(lia)).
    pose proof (b_increasing (Z.of_nat j) ltac:(lia)).
    rewrite Z.min_l by lia.
    split_and!; [done | lia |].
    replace (Z.of_nat j + 1) with (Z.of_nat (S j)) by lia.
    apply IH. lia.
Qed.

End Interval.

Lemma Qeq_bool_false (x : Q) : ¬ (x == 0)%Q → Qeq_bool x 0 = false.
Proof.
  intros H. destruct (Qeq_bool x 0) eqn:E; [| done].
  by apply Qeq_bool_iff in E.
Qed.

Lemma py_int_inject_Z (z : Z) : py_int (inject_Z z) = z.
Proof. unfold py_int. simpl. apply Z.quot_1_r. Qed.

Lemma range_succ_seq (n : Z) :
  0 ≤ n → range (n + 1) = map Z.of_nat (seq 0 (S (Z.to_nat n))).
Proof. intros Hn. unfold range. by replace (Z.to_nat (n + 1)) with (S (Z.to_nat n)) by lia. Qed.

Lemma Qle_bool_false (x y : Q) : (y < x)%Q → Qle_bool x y = false.
Proof.
  intros H. destruct (Qle_bool x y) eqn:E; [| done].
  apply Qle_bool_iff in E. lra.
Qed.

Section Long.

Variables (start_orig end_orig orig_sr : Z) (max_duration : Q).

Local Abbreviation seg_sec :=
  (inject_Z (end_orig - start_orig) / inject_Z orig_sr)%Q.
Local Abbreviation X := (max_duration * inject_Z orig_sr)%Q.
Local Abbreviation q :=
  (duration_ratio start_orig end_orig orig_sr max_duration).

Hypothesis Hsr : 0 < orig_sr.
Hypothesis HX : (1 <= X)%Q.
Hypothesis Hlong : (max_duration < seg_sec)%Q.

Lemma long_in_samples : (X < inject_Z (end_orig - start_orig))%Q.
Proof.
  pose proof (sr_pos orig_sr Hsr) as Hs.
  assert (seg_sec * inject_Z orig_sr == inject_Z (end_orig - start_orig))%Q
    as E by (field; lra).
  rewrite <- E. by apply Qmult_lt_compat_r.
Qed.

Lemma save_short_splits_long :
  SaveShort.splits_of start_orig end_orig orig_sr max_duration
  = Returned (map (subseg start_orig end_orig orig_sr max_duration)
                  (range (Qfloor q + 1))).
Proof.
  pose proof (sr_pos orig_sr Hsr) as Hs.
  pose proof (max_duration_pos orig_sr max_duration Hsr HX) as Hm.
  unfold SaveShort.splits_of, dur_sec, truediv, floordiv.
  rewrite (Qeq_bool_false (inject_Z orig_sr)), (Qeq_bool_false max_duration)
    by lra.
  unfold mbind, outcome_bind. cbv beta iota.
  unfold Qgtb. rewrite Qle_bool_false by done. simpl negb. cbv beta iota.
  by rewrite py_int_inject_Z.
Qed.

Lemma seg_transcribe_splits_long min_duration :
  SegTranscribe.splits_of start_orig end_orig orig_sr min_duration max_duration
  = Returned
      (filter (fun se : Z * Z =>
                 Qgeb (inject_Z (se.2 - se.1) / inject_Z orig_sr) min_duration
                 = true)
         (map (subseg start_orig end_orig orig_sr max_duration)
              (range (Qfloor q + 1)))).
Proof.
  pose proof (sr_pos orig_sr Hsr) as Hs.
  pose proof (max_duration_pos orig_sr max_duration Hsr HX) as Hm.
  unfold SegTranscribe.splits_of, dur_sec, truediv, floordiv.
  rewrite (Qeq_bool_false (inject_Z orig_sr)), (Qeq_bool_false max_duration)
    by lra.
  unfold mbind, outcome_bind. cbv beta iota.
  unfold Qgtb. rewrite Qle_bool_false by done. simpl negb. cbv beta iota.
  by rewrite py_int_inject_Z.
Qed.

End Long.

Lemma lookup_range (n : Z) (k : nat) (j : Z) :
  range n !! k = Some j ↔ j = Z.of_nat k ∧ (k < Z.to_nat n)%nat.
Proof.
  unfold range. rewrite list_lookup_fmap. split.
  - intros H. apply fmap_Some in H as (i & Hi & ->).
    apply lookup_seq in Hi. simpl in Hi. destruct Hi as [-> ?]. done.
  - intros [-> Hk]. by rewrite (lookup_seq_lt 0 (Z.to_nat n) k Hk).
Qed.




(** C4, evaluated where it fails: a 10 s interval at 16 kHz with
    [max_duration = 5]. [process_one_audio] computes
    [int(seg_sec // max_duration) + 1 = 3] sub-ranges; the third is empty
    and is emitted as a short segment. *)
Theorem zero_length_segment_at_exact_multiple :
  SaveShort.process_one_audio [(0, 160000)] 16000 16000 1 5
  = Returned [Segment 0 0 0 80000 regular;
              Segment 0 1 80000 160000 regular;
              Segment 0 2 160000 160000 short] ∧
  ¬ (∀ segs, SaveShort.process_one_audio [(0, 160000)] 16000 16000 1 5
             = Returned segs →
             Forall (fun g => 0 < seg_end g - seg_start g) segs) ∧
  SegTranscribe.segment_audio_with_vad [(0, 160000)] 16000 16000 1 5
  = Returned [Segment 0 0 0 80000 regular;
              Segment 0 1 80000 160000 regular].
Proof.
  split_and!; [reflexivity | | reflexivity].
  intros H. specialize (H _ eq_refl).
  rewrite Forall_forall in H.
  specialize (H (Segment 0 2 160000 160000 short)). simpl in H.
  assert (0 < 0) as Habs; [| lia].
  apply H. set_solver.
Qed.

End SplitterProps.

(** ** More on the splitter *)

Module SplitterMore.

Import Splitter SplitterProps.
Local Open Scope Z_scope.

Section Interval.

Variables (start_orig end_orig orig_sr : Z) (max_duration : Q).

Local Abbreviation X := (max_duration * inject_Z orig_sr)%Q.
Local Abbreviation D := (end_orig - start_orig).
Local Abbreviation b := (boundary orig_sr max_duration).
Local Abbreviation q :=
  (duration_ratio start_orig end_orig orig_sr max_duration).

Hypothesis Hsr : 0 < orig_sr.
Hypothesis HX : (1 <= X)%Q.
Hypothesis Hlong : (X < inject_Z D)%Q.

(** The sub-ranges from number [j] on are laid end to end up to the end of
    the interval. *)
Lemma subsegs_laid (k : nat) : ∀ j : nat,
  Z.of_nat j + Z.of_nat k = Qfloor q →
  laid_end_to_end (start_orig + b (Z.of_nat j)) end_orig
    (map (subseg start_orig end_orig orig_sr max_duration)
         (map Z.of_nat (seq j (S k)))).
Proof.
  induction k as [| k IH]; intros j Hj.
  - simpl. unfold subseg. fold (b (Z.of_nat j)) (b (Z.of_nat j + 1)).
    replace (Z.of_nat j) with (Qfloor q) by lia.
    pose proof (b_outside start_orig end_orig orig_sr max_duration
                  Hsr HX Hlong).
    rewrite Z.min_r by lia. done.
  - change (seq j (S (S k))) with (j :: seq (S j) (S k)).
    rewrite !map_cons. unfold subseg at 1.
    fold (b (Z.of_nat j)) (b (Z.of_nat j + 1)).
    pose proof (b_inside start_orig end_orig orig_sr max_duration Hsr HX
                  (Z.of_nat j + 1) ltac:(lia)).
    rewrite Z.min_l by lia.
    split; [done |].
    replace (Z.of_nat j + 1) with (Z.of_nat (S j)) by lia.
    apply IH. lia.
Qed.

(** Where each sub-range lies. *)
Lemma subseg_bounds (j : Z) s e :
  0 ≤ j ≤ Qfloor q →
  subseg start_orig end_orig orig_sr max_duration j = (s, e) →
  start_orig ≤ s ∧ s ≤ e ∧ e ≤ end_orig ∧ (j < Qfloor q → s < e).
Proof.
  intros Hj Hse. unfold subseg in Hse. fold (b j) (b (j + 1)) in Hse.
  injection Hse as <- <-.
  pose proof (b_inside start_orig end_orig orig_sr max_duration Hsr HX
                j ltac:(lia)) as Hin.
  pose proof (b_increasing orig_sr max_duration HX j ltac:(lia)) as Hinc.
  assert (0 ≤ b j) as Hnn.
  { rewrite (b_floor orig_sr max_duration HX j) by lia.
    change 0 with (Qfloor (inject_Z 0)).
    apply Qfloor_resp_le. change (inject_Z 0) with 0%Q.
    apply Qmult_le_0_compat; [| lra].
    change 0%Q with (inject_Z 0). rewrite <- Zle_Qle. lia. }
  split_and!; [lia | lia | lia |].
  intros Hlt.
  pose proof (b_inside start_orig end_orig orig_sr max_duration Hsr HX
                (j + 1) ltac:(lia)).
  lia.
Qed.

End Interval.



(** X3: whatever the interval, [segment_audio_with_vad] keeps no range
    shorter than [min_duration]; with a positive [min_duration] and rate every
    kept range is therefore non-empty. *)
Theorem seg_transcribe_min_duration (start_orig end_orig orig_sr : Z)
    (min_duration max_duration : Q) (l : list (Z * Z)) :
  SegTranscribe.splits_of start_orig end_orig orig_sr min_duration max_duration
  = Returned l →
  ∀ s e, (s, e) ∈ l →
    (min_duration <= inject_Z (e - s) / inject_Z orig_sr)%Q ∧
    ((0 < min_duration)%Q → 0 < orig_sr → s < e).
Proof.
  intros Hl s e Hin.
  assert (min_duration <= inject_Z (e - s) / inject_Z orig_sr)%Q as Hmin.
  { unfold SegTranscribe.splits_of, dur_sec, truediv, floordiv in Hl.
    destruct (Qeq_bool (inject_Z orig_sr) 0); [discriminate |].
    unfold mbind, outcome_bind in Hl. cbv beta iota in Hl.
    destruct (Qgtb _ max_duration).
    - destruct (Qeq_bool max_duration 0); [discriminate |].
      cbv beta iota in Hl. injection Hl as <-.
      apply list_elem_of_filter in Hin as [Hge _]. simpl in Hge.
      unfold Qgeb in Hge. by apply Qle_bool_iff in Hge.
    - destruct (Qgeb _ min_duration) eqn:Hge.
      + injection Hl as <-. apply list_elem_of_singleton in Hin as [= -> ->].
        unfold Qgeb in Hge. by apply Qle_bool_iff in Hge.
      + injection Hl as <-. by apply elem_of_nil in Hin. }
  split; [done |]. intros Hpos Hsr.
  pose proof (sr_pos orig_sr Hsr) as Hs.
  assert (0 < inject_Z (e - s) / inject_Z orig_sr)%Q as Hd by lra.
  assert (0 < e - s); [| lia].
  rewrite Zlt_Qlt. change (inject_Z 0) with 0%Q.
  assert (inject_Z (e - s) / inject_Z orig_sr * inject_Z orig_sr
          == inject_Z (e - s))%Q as <- by (field; lra).
  apply Qmult_lt_0_compat; done.
Qed.

Lemma seg_transcribe_min_duration_witness :
  (1 <= inject_Z (160000 - 80000) / inject_Z 16000)%Q ∧ 80000 < 160000.
Proof.
  destruct (seg_transcribe_min_duration 0 168000 16000 1 5
              [(0, 80000); (80000, 160000)] eq_refl 80000 160000) as [H1 H2].
  - set_solver.
  - split; [exact H1 | apply H2; [reflexivity | lia]].
Defined.

Lemma py_int_nonpos (x : Q) : (x <= 0)%Q → py_int x = Qceiling x.
Proof.
  destruct x as [n d]. unfold Qle, py_int, Qceiling, Qfloor. simpl. intros H.
  rewrite <- (Z.opp_involutive n) at 1. rewrite Z.quot_opp_l by lia.
  f_equal. apply Z.quot_div_nonneg; lia.
Qed.

#[local] Instance py_int_proper : Proper (Qeq ==> eq) py_int.
Proof.
  intros x y Hxy. destruct (Qlt_le_dec x 0) as [Hneg | Hpos].
  - rewrite !py_int_nonpos by lra. by rewrite Hxy.
  - rewrite !py_int_nonneg by lra. by rewrite Hxy.
Qed.

(** The rescaled index, in integer arithmetic. *)
Lemma rescale_floor (x orig_sr vad_sample_rate : Z) :
  0 < vad_sample_rate → 0 ≤ orig_sr → 0 ≤ x →
  rescale x (inject_Z orig_sr / inject_Z vad_sample_rate)
  = x * orig_sr / vad_sample_rate.
Proof.
  intros Hv Hs Hx. unfold rescale.
  pose proof (sr_pos vad_sample_rate Hv) as Hvq.
  assert (inject_Z x * (inject_Z orig_sr / inject_Z vad_sample_rate)
          == inject_Z (x * orig_sr) / inject_Z vad_sample_rate)%Q as ->.
  { rewrite inject_Z_mult. field. lra. }
  rewrite py_int_nonneg.
  - symmetry. apply Zdiv_Qdiv.
  - apply Qle_shift_div_l; [done |]. rewrite Qmult_0_l.
    change 0%Q with (inject_Z 0). rewrite <- Zle_Qle. nia.
Qed.



(** X5: [ms] is [1000 * n_samples // sr] on non-negative sample counts: it
    keeps the order of positions, and positions at least one millisecond
    apart get different values; at [sr = 0] it raises. *)
Theorem ms_floor (n n' sr : Z) :
  0 < sr → 0 ≤ n ≤ n' →
  SaveShort.ms n sr = Returned (1000 * n / sr) ∧
  SaveShort.ms n' sr = Returned (1000 * n' / sr) ∧
  1000 * n / sr ≤ 1000 * n' / sr ∧
  (sr ≤ 1000 * (n' - n) → 1000 * n / sr < 1000 * n' / sr) ∧
  SaveShort.ms n 0 = Raised ZeroDivisionError.
Proof.
  intros Hsr Hn.
  assert (∀ m, 0 ≤ m → SaveShort.ms m sr = Returned (1000 * m / sr)) as Hms.
  { intros m Hm. unfold SaveShort.ms, truediv.
    pose proof (sr_pos sr Hsr) as Hs.
    rewrite Qeq_bool_false by lra. unfold mbind, outcome_bind, mret, outcome_ret.
    f_equal.
    assert (1000 * inject_Z m / inject_Z sr
            == inject_Z (1000 * m) / inject_Z sr)%Q as ->
      by (rewrite inject_Z_mult; reflexivity).
    rewrite py_int_nonneg.
    - symmetry. apply Zdiv_Qdiv.
    - apply Qle_shift_div_l; [done |]. rewrite Qmult_0_l.
      change 0%Q with (inject_Z 0). rewrite <- Zle_Qle. lia. }
  split_and!.
  - apply Hms. lia.
  - apply Hms. lia.
  - apply Z.div_le_mono; lia.
  - intros Hgap.
    assert (1000 * n / sr + 1 ≤ 1000 * n' / sr); [| lia].
    rewrite <- (Z.div_add _ 1 sr) by lia. apply Z.div_le_mono; lia.
  - reflexivity.
Qed.

Lemma ms_floor_witness :
  SaveShort.ms 24000 16000 = Returned 1500 ∧
  1000 * 24000 / 16000 < 1000 * 24016 / 16000.
Proof.
  destruct (ms_floor 24000 24016 16000) as (H1 & _ & _ & H4 & _);
    [lia | lia |].
  split; [rewrite H1; reflexivity | apply H4; lia].
Defined.

Lemma mapM_cons {A B : Type} (f : A → outcome B) (x : A) (l : list A) :
  mapM f (x :: l) = y ← f x; k ← mapM f l; mret (y :: k).
Proof. reflexivity. Qed.

Lemma bind_Returned {A B : Type} (f : A → outcome B) (a : A) :
  Returned a ≫= f = f a.
Proof. reflexivity. Qed.

Lemma replicate_sorted (n j : nat) : StronglySorted le (replicate n j).
Proof.
  induction n as [| n IH]; simpl; constructor; [done |].
  apply Forall_forall. intros x Hx. apply elem_of_replicate in Hx as [-> _].
  done.
Qed.

Lemma same_index_replicate (rows : list segment) (j : nat) :
  Forall (fun g => seg_i g = j) rows →
  map seg_i rows = replicate (length rows) j.
Proof.
  induction 1 as [| g rows' Hg _ IH]; [done |]. simpl. by rewrite Hg, IH.
Qed.

Lemma ordered_from_weaken lo lo' l :
  lo' ≤ lo → ordered_from lo l → ordered_from lo' l.
Proof. destruct l as [| [s e] l]; simpl; [done |]. intros ? (? & ? & ?). split_and!; [lia | done | done]. Qed.

Lemma ordered_from_app lo hi l1 l2 :
  ordered_from lo l1 → lo ≤ hi → (∀ s e, (s, e) ∈ l1 → e ≤ hi) →
  ordered_from hi l2 → ordered_from lo (l1 ++ l2).
Proof.
  revert lo. induction l1 as [| [s e] l1 IH]; intros lo H1 Hlo Hends H2; simpl.
  - by apply (ordered_from_weaken hi).
  - destruct H1 as (Hs & Hse & Hrest). split_and!; [done | done |].
    apply IH; [done | | | done].
    + apply (Hends s e). by left.
    + intros s' e' Hin. apply (Hends s' e'). by right.
Qed.

Lemma laid_ordered (a b : Z) (l : list (Z * Z)) :
  laid_end_to_end a b l →
  (∀ (k : nat) s e, l !! k = Some (s, e) → s ≤ e) →
  ordered_from a l.
Proof.
  revert a. induction l as [| [s e] l IH]; intros a Hlaid Hle; simpl; [done |].
  destruct Hlaid as [-> Hrest]. split_and!; [lia | by apply (Hle 0%nat) |].
  apply IH; [done |]. intros k s' e' Hk. by apply (Hle (S k)).
Qed.

(** The shape of the cut of a long interval. *)
Lemma long_splits_shape (start_orig end_orig orig_sr : Z) (max_duration : Q) :
  0 < orig_sr →
  (1 <= max_duration * inject_Z orig_sr)%Q →
  (max_duration < inject_Z (end_orig - start_orig) / inject_Z orig_sr)%Q →
  ∃ l,
    SaveShort.splits_of start_orig end_orig orig_sr max_duration = Returned l ∧
    Z.of_nat (length l)
    = Qfloor (inject_Z (end_orig - start_orig) / inject_Z orig_sr
              / max_duration) + 1 ∧
    laid_end_to_end start_orig end_orig l ∧
    ∀ (k : nat) s e,
      l !! k = Some (s, e) →
      start_orig ≤ s ∧ s ≤ e ∧ e ≤ end_orig ∧
      ((S k < length l)%nat → s < e).
Proof.
  intros Hsr HX Hlong.
  pose proof (long_in_samples start_orig end_orig orig_sr max_duration
                Hsr Hlong) as Hsamples.
  pose proof (q_floor_pos start_orig end_orig orig_sr max_duration
                Hsr HX Hsamples) as Hfq.
  change (inject_Z (end_orig - start_orig) / inject_Z orig_sr / max_duration)%Q
    with (duration_ratio start_orig end_orig orig_sr max_duration).
  remember (Qfloor (duration_ratio start_orig end_orig orig_sr max_duration))
    as fq eqn:Efq.
  exists (map (subseg start_orig end_orig orig_sr max_duration)
              (range (fq + 1))).
  assert (length (map (subseg start_orig end_orig orig_sr max_duration)
                      (range (fq + 1))) = S (Z.to_nat fq)) as Hlen.
  { unfold range. rewrite !length_map, length_seq. lia. }
  split_and!.
  - rewrite Efq. by apply save_short_splits_long.
  - rewrite Hlen. lia.
  - rewrite range_succ_seq by lia.
    pose proof (subsegs_laid start_orig end_orig orig_sr max_duration
                  Hsr HX Hsamples (Z.to_nat fq) 0%nat) as Ht.
    change (Z.of_nat 0) with 0 in Ht.
    rewrite (b_zero orig_sr max_duration HX), Z.add_0_r in Ht.
    apply Ht. lia.
  - intros k s e Hk. rewrite list_lookup_fmap in Hk.
    apply fmap_Some in Hk as (j & Hj & Hse).
    apply lookup_range in Hj as [-> Hk]. symmetry in Hse.
    destruct (subseg_bounds start_orig end_orig orig_sr max_duration
                Hsr HX (Z.of_nat k) s e) as (H1 & H2 & H3 & H4);
      [lia | done |].
    split_and!; [done | done | done |].
    rewrite Hlen. intros Hnl. apply H4. lia.
Qed.



(** The cut of any interval with [start <= end]: never empty, in order,
    inside the interval. *)
Lemma splits_of_ordered (start_orig end_orig orig_sr : Z) (max_duration : Q) :
  0 < orig_sr →
  (1 <= max_duration * inject_Z orig_sr)%Q →
  start_orig ≤ end_orig →
  ∃ l,
    SaveShort.splits_of start_orig end_orig orig_sr max_duration = Returned l ∧
    l ≠ [] ∧
    ordered_from start_orig l ∧
    ∀ s e, (s, e) ∈ l → e ≤ end_orig.
Proof.
  intros Hsr HX Hse.
  destruct (Qlt_le_dec max_duration
              (inject_Z (end_orig - start_orig) / inject_Z orig_sr))
    as [Hlong | Hshort].
  - destruct (long_splits_shape start_orig end_orig orig_sr max_duration
                Hsr HX Hlong) as (l & Hl & Hlen & Hlaid & Hb).
    exists l. split_and!; [done | | |].
    + intros ->. change (Z.of_nat (length [])) with 0 in Hlen.
      pose proof (q_floor_pos start_orig end_orig orig_sr max_duration Hsr HX
                    (long_in_samples start_orig end_orig orig_sr max_duration
                       Hsr Hlong)) as Hfq.
      unfold duration_ratio in Hfq. lia.
    + apply (laid_ordered _ end_orig); [done |].
      intros k s e Hk. by destruct (Hb k s e Hk) as (_ & ? & _).
    + intros s e Hin. apply list_elem_of_lookup in Hin as [k Hk].
      by destruct (Hb k s e Hk) as (_ & _ & ? & _).
  - exists [(start_orig, end_orig)].
    split_and!; [| done | simpl; lia |].
    + pose proof (sr_pos orig_sr Hsr) as Hs.
      unfold SaveShort.splits_of, dur_sec, truediv.
      rewrite (Qeq_bool_false (inject_Z orig_sr)) by lra.
      unfold mbind, outcome_bind. cbv beta iota. unfold Qgtb.
      by rewrite (proj2 (Qle_bool_iff _ _) Hshort).
    + intros s e Hin. apply list_elem_of_singleton in Hin as [= -> ->]. lia.
Qed.

(** The rows of one interval repeat its cut, under the interval's index. *)
Lemma classify_rows (orig_sr : Z) (min_duration : Q) (i : nat)
    (splits : list (Z * Z)) : ∀ j : nat,
  0 < orig_sr →
  ∃ rows,
    mapM (SaveShort.classify orig_sr min_duration i)
         (combine (seq j (length splits)) splits) = Returned rows ∧
    map (fun g => (seg_start g, seg_end g)) rows = splits ∧
    Forall (fun g => seg_i g = i ∧
                     (seg_kind g = regular ↔
                      (min_duration
                       <= inject_Z (seg_end g - seg_start g)
                          / inject_Z orig_sr)%Q)) rows.
Proof.
  intros j Hsr. pose proof (sr_pos orig_sr Hsr) as Hs.
  revert j. induction splits as [| [s e] splits IH]; intros j.
  - exists []. split_and!; [reflexivity | reflexivity | constructor].
  - destruct (IH (S j)) as (rows & Hrows & Hmap & Hall).
    exists (Segment i j s e
              (if Qgeb (inject_Z (e - s) / inject_Z orig_sr) min_duration
               then regular else short) :: rows).
    split_and!.
    + simpl. unfold dur_sec, truediv.
      rewrite (Qeq_bool_false (inject_Z orig_sr)) by lra. simpl.
      simpl in Hrows. rewrite Hrows. reflexivity.
    + simpl. by rewrite Hmap.
    + constructor; [| done]. simpl. split; [done |].
      unfold Qgeb. destruct (Qle_bool _ _) eqn:E.
      * split; [intros _; by apply Qle_bool_iff | done].
      * split; [done |]. intros Hle. apply Qle_bool_iff in Hle. congruence.
Qed.

Section File.

Variables (orig_sr vad_sample_rate : Z) (min_duration max_duration : Q).

Hypothesis Hsr : 0 < orig_sr.
Hypothesis Hvad : 0 < vad_sample_rate.
Hypothesis HX : (1 <= max_duration * inject_Z orig_sr)%Q.

Local Abbreviation sr_ratio :=
  (inject_Z orig_sr / inject_Z vad_sample_rate)%Q.

(** The body of the loop over the timestamps. *)
Local Abbreviation body := (fun its : nat * (Z * Z) =>
  let '(i, (start_16k, end_16k)) := its in
  let start_orig := rescale start_16k sr_ratio in
  let end_orig := rescale end_16k sr_ratio in
  splits ← SaveShort.splits_of start_orig end_orig orig_sr max_duration;
  mapM (SaveShort.classify orig_sr min_duration i) (enumerate splits)).

Lemma rescale_mono (x y : Z) :
  0 ≤ x ≤ y → 0 ≤ rescale x sr_ratio ∧ rescale x sr_ratio ≤ rescale y sr_ratio.
Proof.
  intros Hxy. rewrite !rescale_floor by lia. split.
  - apply Z.div_pos; nia.
  - apply Z.div_le_mono; nia.
Qed.

Lemma loop_ordered (ts : list (Z * Z)) : ∀ (j : nat) (lo : Z),
  0 ≤ lo → ordered_from lo ts →
  ∃ blocks,
    mapM body (combine (seq j (length ts)) ts) = Returned blocks ∧
    length blocks = length ts ∧
    Forall (fun block => block ≠ []) blocks ∧
    ordered_from (rescale lo sr_ratio)
      (map (fun g => (seg_start g, seg_end g)) (List.concat blocks)) ∧
    Forall (fun g => (j ≤ seg_i g)%nat) (List.concat blocks) ∧
    StronglySorted le (map seg_i (List.concat blocks)) ∧
    Forall (fun g => seg_kind g = regular ↔
                     (min_duration
                      <= inject_Z (seg_end g - seg_start g)
                         / inject_Z orig_sr)%Q) (List.concat blocks).
Proof.
  induction ts as [| [s16 e16] ts IH]; intros j lo Hlo Hord.
  - exists []. simpl. split_and!; try done; constructor.
  - destruct Hord as (Hs & Hse & Hrest).
    destruct (rescale_mono lo s16) as (Hl1 & Hl2); [lia |].
    destruct (rescale_mono s16 e16) as (Hm1 & Hm2); [lia |].
    destruct (splits_of_ordered (rescale s16 sr_ratio) (rescale e16 sr_ratio)
                orig_sr max_duration Hsr HX Hm2)
      as (splits & Hsplits & Hne & Hso & Hends).
    destruct (classify_rows orig_sr min_duration j splits 0%nat Hsr)
      as (rows & Hrows & Hmap & Hall).
    destruct (IH (S j) e16 ltac:(lia) Hrest)
      as (blocks & Hblocks & Hlen & Hnes & Hob & Hidx & Hsorted & Hkinds).
    exists (rows :: blocks). split_and!.
    + change (combine (seq j (length ((s16, e16) :: ts))) ((s16, e16) :: ts))
        with ((j, (s16, e16)) :: combine (seq (S j) (length ts)) ts).
      rewrite mapM_cons, Hblocks. cbv beta iota zeta. rewrite Hsplits.
      rewrite bind_Returned. unfold enumerate. rewrite Hrows. reflexivity.
    + simpl. by rewrite Hlen.
    + constructor; [| done]. intros ->. by destruct splits.
    + simpl. rewrite map_app, Hmap.
      apply (ordered_from_app _ (rescale e16 sr_ratio));
        [by apply (ordered_from_weaken (rescale s16 sr_ratio)) | lia | done
        | done].
    + simpl. apply Forall_app. split.
      * eapply Forall_impl; [exact Hall |]. intros g [-> _]. simpl. lia.
      * eapply Forall_impl; [exact Hidx |]. intros g Hg. simpl in Hg. lia.
    + simpl. rewrite map_app. apply StronglySorted_app_2.
      * intros x1 x2 Hx1 Hx2.
        apply list_elem_of_fmap in Hx1 as (g1 & -> & Hg1).
        apply list_elem_of_fmap in Hx2 as (g2 & -> & Hg2).
        rewrite Forall_forall in Hall, Hidx.
        destruct (Hall g1 Hg1) as [-> _]. specialize (Hidx g2 Hg2).
        simpl in Hidx. lia.
      * rewrite (same_index_replicate rows j); [apply replicate_sorted |].
        eapply Forall_impl; [exact Hall |]. by intros g [? _].
      * done.
    + simpl. apply Forall_app. split; [| done].
      eapply Forall_impl; [exact Hall |]. by intros g [_ ?].
Qed.

End File.

Lemma concat_length_nonempty {A : Type} (blocks : list (list A)) :
  Forall (fun block => block ≠ []) blocks →
  (length blocks ≤ length (List.concat blocks))%nat.
Proof.
  induction 1 as [| block blocks Hne _ IH]; simpl; [done |].
  rewrite length_app. destruct block; [done | simpl; lia].
Qed.

(** X6: for VAD timestamps that are in order and do not overlap (each
    [start <= end], each start at or after the previous end, from 0 on),
    [process_one_audio] returns its rows without raising; every interval
    gives at least one row; the rows' sample ranges are again in order
    without overlap, each with [start <= end]; the rows come in the order of
    the interval index; and a row is [regular] exactly when it is at least
    [min_duration] long. *)
Theorem process_one_audio_ordered (speech_timestamps : list (Z * Z))
    (orig_sr vad_sample_rate : Z) (min_duration max_duration : Q) :
  0 < orig_sr → 0 < vad_sample_rate →
  (1 <= max_duration * inject_Z orig_sr)%Q →
  ordered_from 0 speech_timestamps →
  ∃ rows,
    SaveShort.process_one_audio speech_timestamps orig_sr vad_sample_rate
      min_duration max_duration = Returned rows ∧
    (length speech_timestamps ≤ length rows)%nat ∧
    ordered_from 0 (map (fun g => (seg_start g, seg_end g)) rows) ∧
    StronglySorted le (map seg_i rows) ∧
    Forall (fun g => seg_kind g = regular ↔
                     (min_duration
                      <= inject_Z (seg_end g - seg_start g)
                         / inject_Z orig_sr)%Q) rows.
Proof.
  intros Hsr Hvad HX Hord.
  destruct (loop_ordered orig_sr vad_sample_rate min_duration max_duration
              Hsr Hvad HX speech_timestamps 0%nat 0 ltac:(lia) Hord)
    as (blocks & Hblocks & Hlen & Hne & Hob & _ & Hsorted & Hkinds).
  exists (List.concat blocks). split_and!.
  - unfold SaveShort.process_one_audio, truediv.
    pose proof (sr_pos vad_sample_rate Hvad) as Hv.
    rewrite (Qeq_bool_false (inject_Z vad_sample_rate)) by lra.
    rewrite bind_Returned. cbv beta.
    lazymatch type of Hblocks with
    | ?lhs = _ =>
        lazymatch goal with
        | |- _ <$> ?m = _ => change m with lhs
        end
    end.
    rewrite Hblocks. reflexivity.
  - rewrite <- Hlen. by apply concat_length_nonempty.
  - rewrite rescale_floor in Hob by lia. exact Hob.
  - exact Hsorted.
  - exact Hkinds.
Qed.

Lemma process_one_audio_ordered_witness :
  ∃ rows,
    SaveShort.process_one_audio [(0, 160000); (170000, 180001)] 16000 16000
      1 5 = Returned rows ∧
    ordered_from 0 (map (fun g => (seg_start g, seg_end g)) rows).
Proof.
  destruct (process_one_audio_ordered [(0, 160000); (170000, 180001)]
              16000 16000 1 5) as (rows & Hrows & _ & Hord & _).
  - lia.
  - lia.
  - discriminate.
  - simpl. lia.
  - exists rows. split; [exact Hrows | exact Hord].
Defined.

End SplitterMore.

(** ** More on the retry wrappers and the pools *)

Module HarnessMore.

Import Harness RetryProps HarnessProps.
Local Open Scope Z_scope.

Lemma slept_app l1 l2 : (slept (l1 ++ l2) == slept l1 + slept l2)%Q.
Proof.
  induction l1 as [| [a | q] l1 IH]; simpl; [lra | done | rewrite IH; lra].
Qed.

Lemma slept_trail_nonneg base attempts :
  (0 <= base)%Q → Forall (fun a => 0 ≤ a) attempts →
  (0 <= slept (trail base attempts))%Q.
Proof.
  intros Hb. induction 1 as [| a rest Ha _ IH]; simpl; [lra |].
  assert (0 <= inject_Z (a + 1))%Q
    by (change 0%Q with (inject_Z 0); rewrite <- Zle_Qle; lia).
  assert (0 <= base * inject_Z (a + 1))%Q by (by apply Qmult_le_0_compat).
  lra.
Qed.

Lemma slept_trail_range base (n : nat) :
  (slept (trail base (range (Z.of_nat n)))
   == base * inject_Z (Z.of_nat n * (Z.of_nat n + 1)) / 2)%Q.
Proof.
  induction n as [| n IH].
  - change (slept (trail base (range (Z.of_nat 0)))) with 0%Q.
    change (inject_Z (Z.of_nat 0 * (Z.of_nat 0 + 1))) with 0%Q. field.
  - replace (Z.of_nat (S n)) with (Z.of_nat n + 1) by lia.
    rewrite range_succ by lia. unfold trail in *. rewrite flat_map_app.
    rewrite slept_app, IH. simpl.
    rewrite !inject_Z_mult, !inject_Z_plus. change (inject_Z 1) with 1%Q.
    field.
Qed.

Lemma range_nonneg (n : Z) : Forall (fun a => 0 ≤ a) (range n).
Proof. apply Forall_forall. intros a Ha. apply elem_of_range in Ha. lia. Qed.

(** The sleeps of any run are those of a run in which every attempt fails,
    or fewer. *)
Lemma retry_loop_slept base op attempts :
  (0 <= base)%Q → Forall (fun a => 0 ≤ a) attempts →
  (slept (retry_loop base op attempts None []).2
   <= slept (trail base attempts))%Q.
Proof.
  intros Hb Hnn.
  destruct (retry_loop_cases base op attempts None [])
    as [(pre & a & post & -> & _ & _ & ->) | [_ ->]]; simpl;
    [| apply Qle_refl].
  apply Forall_app in Hnn as [Hpre Hrest].
  unfold trail. rewrite flat_map_app. fold (trail base pre).
  fold (trail base (a :: post)). rewrite !slept_app. simpl.
  pose proof (slept_trail_nonneg base (a :: post) Hb Hrest) as H.
  simpl in H. lra.
Qed.

(** X7: the total time a wrapper sleeps is at most
    [base * (retries + 1) * (retries + 2) / 2] seconds, whatever the
    operation does, and exactly that when every attempt fails: at most 3 s
    for a download with [retries = 2] and 4.2 s for a save with
    [retries = 5]. *)
Theorem retry_total_backoff (op : Z → option exn) (retries : Z) :
  0 ≤ retries →
  (slept (safe_download_blob op retries).2
   <= (1 # 2) * inject_Z ((retries + 1) * (retries + 2)) / 2)%Q ∧
  (slept (safe_save_waveform op retries).2
   <= (2 # 10) * inject_Z ((retries + 1) * (retries + 2)) / 2)%Q ∧
  ((∀ a, 0 ≤ a ≤ retries → is_Some (op a)) →
   (slept (safe_download_blob op retries).2
    == (1 # 2) * inject_Z ((retries + 1) * (retries + 2)) / 2)%Q ∧
   (slept (safe_save_waveform op retries).2
    == (2 # 10) * inject_Z ((retries + 1) * (retries + 2)) / 2)%Q).
Proof.
  intros Hr.
  assert (∀ base, slept (trail base (range (retries + 1)))
                  == base * inject_Z ((retries + 1) * (retries + 2)) / 2)%Q
    as Hsum.
  { intros base.
    pose proof (slept_trail_range base (Z.to_nat (retries + 1))) as H.
    rewrite Z2Nat.id in H by lia.
    by replace (retries + 1 + 1) with (retries + 2) in H by lia. }
  split_and!.
  - rewrite <- Hsum. apply retry_loop_slept; [discriminate | apply range_nonneg].
  - rewrite <- Hsum. apply retry_loop_slept; [discriminate | apply range_nonneg].
  - intros Hfail.
    destruct (retry_loop_exhausted (1 # 2) op retries Hr Hfail) as (e & _ & Hd).
    destruct (retry_loop_exhausted (2 # 10) op retries Hr Hfail) as (e' & _ & Hs).
    unfold safe_download_blob, safe_save_waveform. rewrite Hd, Hs. simpl.
    split; apply Hsum.
Qed.

Lemma retry_total_backoff_witness :
  (slept (safe_download_blob (fun _ => Some (IOError 7)) 2).2 == 3)%Q ∧
  (slept (safe_save_waveform (fun _ => Some (IOError 7)) 5).2 == 42 # 10)%Q.
Proof.
  split.
  - destruct (retry_total_backoff (fun _ => Some (IOError 7)) 2) as (_ & _ & H);
      [lia |].
    destruct H as [H _]; [intros a _; by eexists |]. rewrite H. reflexivity.
  - destruct (retry_total_backoff (fun _ => Some (IOError 7)) 5) as (_ & _ & H);
      [lia |].
    destruct H as [_ H]; [intros a _; by eexists |]. rewrite H. reflexivity.
Defined.

(** X8: when attempt number [k] is the first to succeed, the wrapper
    returns after exactly [k + 1] calls, having slept after each of the [k]
    failures, and the caller goes on with the rest of [process_one_audio]. *)
Theorem retry_stops_at_first_success (op : Z → option exn) (retries k : Z) :
  0 ≤ k ≤ retries →
  (∀ a, 0 ≤ a < k → is_Some (op a)) → op k = None →
  safe_download_blob op retries
  = (Returned (), trail (1 # 2) (range k) ++ [Call k]) ∧
  safe_save_waveform op retries
  = (Returned (), trail (2 # 10) (range k) ++ [Call k]) ∧
  calls (safe_download_blob op retries).2 = Z.to_nat (k + 1) ∧
  (retries = 2 → ∀ (item : Type) name (rest : unit → result item),
     download_stage name op rest = rest ()) ∧
  (retries = 5 → ∀ (item : Type) name (rest : unit → result item),
     save_stage name op rest = rest ()).
Proof.
  intros Hk Hfail Hok.
  pose proof (retry_first_success (1 # 2) op retries k Hk Hfail Hok) as Hd.
  pose proof (retry_first_success (2 # 10) op retries k Hk Hfail Hok) as Hs.
  split_and!.
  - exact Hd.
  - exact Hs.
  - unfold safe_download_blob. rewrite Hd. simpl.
    rewrite calls_app, calls_trail, length_range. unfold calls. simpl. lia.
  - intros -> item name rest. unfold download_stage, safe_download_blob.
    by rewrite Hd.
  - intros -> item name rest. unfold save_stage, safe_save_waveform.
    by rewrite Hs.
Qed.

Lemma retry_stops_at_first_success_witness :
  safe_download_blob (fun a => if a <? 1 then Some (IOError 7) else None) 2
  = (Returned (), [Call 0; Sleep ((1 # 2) * inject_Z 1); Call 1]).
Proof.
  destruct (retry_stops_at_first_success
              (fun a => if a <? 1 then Some (IOError 7) else None) 2 1)
    as (H & _).
  - lia.
  - intros a Ha. assert (a = 0) as -> by lia. by eexists.
  - reflexivity.
  - exact H.
Defined.

(** X9: with a negative [retries] the operation is never attempted: the
    wrappers raise [TypeError] (from [raise None]) without a call or a
    sleep. *)
Theorem retry_negative_retries (op : Z → option exn) (retries : Z) :
  retries < 0 →
  safe_download_blob op retries = (Raised TypeError, []) ∧
  safe_save_waveform op retries = (Raised TypeError, []).
Proof.
  intros Hr. unfold safe_download_blob, safe_save_waveform, range.
  by replace (Z.to_nat (retries + 1)) with 0%nat by lia.
Qed.

Lemma retry_negative_retries_witness :
  safe_download_blob (fun _ => None) (-1) = (Raised TypeError, []).
Proof.
  destruct (retry_negative_retries (fun _ => None) (-1)) as [H _]; [lia |].
  exact H.
Defined.

Lemma omap_length_le {A B : Type} (f : A → option B) (l : list A) :
  (length (omap f l) ≤ length l)%nat.
Proof.
  induction l as [| x l IH]; csimpl; [done |]. destruct (f x); csimpl; lia.
Qed.

Lemma collect_kept {item : Type} (t : totals) (r : result item) :
  collect t r
  = match kept_items r with
    | Some items =>
        Totals (all_manifest_items t ++ items) (errors t) (S (processed t))
    | None => Totals (all_manifest_items t) (S (errors t)) (processed t)
    end.
Proof. unfold collect, kept_items. by destruct (res_status r), (res_items r). Qed.

Lemma fold_collect {item : Type} (rs : list (result item)) : ∀ t,
  fold_left collect rs t
  = Totals (all_manifest_items t ++ List.concat (omap kept_items rs))
           (errors t + (length rs - length (omap kept_items rs)))
           (processed t + length (omap kept_items rs)).
Proof.
  assert (∀ (a a' : list item) (b b' c c' : nat),
            a = a' → b = b' → c = c' → Totals a b c = Totals a' b' c')
    as Heq by (by intros; subst).
  induction rs as [| r rs IH]; intros [items e p]; csimpl.
  - apply Heq; [by rewrite app_nil_r | lia | lia].
  - rewrite IH. pose proof (omap_length_le kept_items rs).
    rewrite collect_kept. destruct (kept_items r); csimpl;
      (apply Heq; [by rewrite <- ?app_assoc | lia | lia]).
Qed.

(** X10: provided every job completes, [main] counts each job once, as
    processed when its result is [OK] with items and as an error otherwise;
    the manifest holds the items of the processed jobs only, in submission
    order, so a failed job costs nothing but its own items. *)
Theorem main_isolates_failures {job item : Type}
    (worker : job → result item) (jobs : list job) (schedule : list nat) :
  (∀ k, (k < length jobs)%nat → k ∈ schedule) →
  ∃ t, main worker jobs schedule = Some t ∧
       all_manifest_items t
       = List.concat (omap kept_items (map worker jobs)) ∧
       processed t = length (omap kept_items (map worker jobs)) ∧
       errors t = (length jobs - processed t)%nat.
Proof.
  intros Hall. unfold main. rewrite executor_map_in_order by done. simpl.
  eexists. split; [reflexivity |]. rewrite fold_collect. simpl.
  rewrite length_map. done.
Qed.

Lemma main_isolates_failures_witness :
  ∃ t, main (fun j : nat =>
               if decide (j = 3%nat) then Result ""%string ERROR None None
               else Result ""%string OK (Some [j]) None)
         [0; 1; 2; 3; 4; 5; 6; 7; 8; 9]%nat
         [3; 2; 1; 0; 7; 6; 5; 4; 9; 8]%nat = Some t ∧
       processed t = 9%nat ∧ errors t = 1%nat ∧
       all_manifest_items t = [0; 1; 2; 4; 5; 6; 7; 8; 9]%nat.
Proof.
  destruct (main_isolates_failures
              (fun j : nat =>
                 if decide (j = 3%nat) then Result ""%string ERROR None None
                 else Result ""%string OK (Some [j]) None)
              [0; 1; 2; 3; 4; 5; 6; 7; 8; 9]%nat
              [3; 2; 1; 0; 7; 6; 5; 4; 9; 8]%nat)
    as (t & Ht & Hitems & Hp & He).
  - intros k Hk. simpl in Hk.
    do 10 (destruct k as [| k]; [set_solver |]). lia.
  - exists t. split; [exact Ht |]. rewrite He, Hp, Hitems.
    split_and!; reflexivity.
Defined.

End HarnessMore.

(** ** More on masks *)

Module MaskMore.

Import CalculateSnr MaskProps IslandProps.
Local Open Scope Z_scope.

Lemma bool_list_eq (l1 l2 : list bool) :
  length l1 = length l2 →
  (∀ k, l1 !! k = Some true ↔ l2 !! k = Some true) →
  l1 = l2.
Proof.
  intros Hlen H. apply list_eq. intros k.
  destruct (l1 !! k) as [b1 |] eqn:E1, (l2 !! k) as [b2 |] eqn:E2.
  - destruct b1, b2; try done.
    + apply H in E1. congruence.
    + apply H in E2. congruence.
  - apply lookup_lt_Some in E1. apply lookup_ge_None in E2. lia.
  - apply lookup_ge_None in E1. apply lookup_lt_Some in E2. lia.
  - done.
Qed.

Lemma mask_true (intervals : list (Z * Z)) (n : nat) (sr : Z) (guard_s : Q)
    (k : nat) :
  _intervals_to_mask intervals n sr guard_s !! k = Some true ↔
  (k < n)%nat ∧
  ∃ iv, iv ∈ intervals ∧
        iv.1 - round (guard_s * inject_Z sr) ≤ Z.of_nat k
        < iv.2 + round (guard_s * inject_Z sr).
Proof.
  unfold _intervals_to_mask.
  rewrite fold_mark_true by apply length_replicate.
  split; [| by right].
  intros [H | H]; [| done]. apply lookup_replicate in H as [? _]. done.
Qed.

Lemma mask_length (intervals : list (Z * Z)) (n : nat) (sr : Z) (guard_s : Q) :
  length (_intervals_to_mask intervals n sr guard_s) = n.
Proof.
  unfold _intervals_to_mask. by rewrite fold_mark_length, length_replicate.
Qed.

(** X11: the mask of a list of intervals is the union of the masks of its
    parts, so overlapping or repeated intervals merge, and the order of the
    intervals does not matter. *)
Theorem intervals_to_mask_union (l1 l2 l : list (Z * Z)) (n : nat) (sr : Z)
    (guard_s : Q) :
  _intervals_to_mask (l1 ++ l2) n sr guard_s
  = zip_with orb (_intervals_to_mask l1 n sr guard_s)
                 (_intervals_to_mask l2 n sr guard_s) ∧
  (l1 ≡ₚ l →
   _intervals_to_mask l1 n sr guard_s = _intervals_to_mask l n sr guard_s).
Proof.
  split.
  - apply bool_list_eq.
    + rewrite length_zip_with, !mask_length. lia.
    + intros k. rewrite lookup_zip_with, mask_true.
      split.
      * intros (Hk & iv & Hin & Hiv).
        destruct (lookup_lt_is_Some_2 (_intervals_to_mask l1 n sr guard_s) k)
          as [b1 Hb1]; [by rewrite mask_length |].
        destruct (lookup_lt_is_Some_2 (_intervals_to_mask l2 n sr guard_s) k)
          as [b2 Hb2]; [by rewrite mask_length |].
        rewrite Hb1, Hb2. simpl. f_equal.
        apply elem_of_app in Hin as [Hin | Hin].
        -- assert (b1 = true) as ->; [| done].
           assert (_intervals_to_mask l1 n sr guard_s !! k = Some true)
             by (apply mask_true; eauto). congruence.
        -- assert (b2 = true) as ->; [| by destruct b1].
           assert (_intervals_to_mask l2 n sr guard_s !! k = Some true)
             by (apply mask_true; eauto). congruence.
      * intros H.
        destruct (_intervals_to_mask l1 n sr guard_s !! k) as [b1 |] eqn:Hb1;
          [| done].
        destruct (_intervals_to_mask l2 n sr guard_s !! k) as [b2 |] eqn:Hb2;
          [| done].
        simpl in H. injection H as H. apply orb_true_iff in H as [-> | ->].
        -- apply mask_true in Hb1 as (Hk & iv & Hin & Hiv).
           split; [done |]. exists iv.
           split; [apply elem_of_app; by left | done].
        -- apply mask_true in Hb2 as (Hk & iv & Hin & Hiv).
           split; [done |]. exists iv.
           split; [apply elem_of_app; by right | done].
  - intros Hperm. apply bool_list_eq; [by rewrite !mask_length |].
    intros k. rewrite !mask_true. by setoid_rewrite Hperm.
Qed.

Lemma intervals_to_mask_union_witness :
  _intervals_to_mask [(2, 4); (7, 8)] 10 1 1
  = _intervals_to_mask [(7, 8); (2, 4)] 10 1 1.
Proof.
  destruct (intervals_to_mask_union [(2, 4); (7, 8)] [] [(7, 8); (2, 4)]
              10 1 1) as [_ H].
  apply H. apply Permutation_swap.
Defined.



Lemma merge_spec (mask : list bool) (min_len : Z) :
  ∃ res, _merge_short_islands mask min_len = Some res ∧
         length res = length mask ∧
         ∀ k, res !! k = Some true ↔ in_long_run mask min_len k.
Proof.
  apply (islands_loop_spec mask min_len (length mask) mask 0%nat
           (loop_inv_start mask min_len)). lia.
Qed.

(** X13: suppression is idempotent: running it again on its own result,
    with the same threshold, changes nothing. *)
Theorem merge_short_islands_idempotent (mask : list bool) (min_len : Z) :
  ∃ res, _merge_short_islands mask min_len = Some res ∧
         _merge_short_islands res min_len = Some res.
Proof.
  destruct (merge_spec mask min_len) as (res & Hres & Hlen & Hchar).
  destruct (merge_spec res min_len) as (res' & Hres' & Hlen' & Hchar').
  exists res. split; [done |]. rewrite Hres'. f_equal.
  apply bool_list_eq; [done |].
  intros k. rewrite Hchar'. split.
  - apply in_long_run_true.
  - intros Hk. apply Hchar in Hk as (a & b & Hrun & Hab & Hlong).
    exists a, b. split_and!; [| lia | lia | done].
    by apply (long_run_kept mask res min_len).
Qed.

Lemma islands_loop_noop (min_len : Z) (mask : list bool) :
  min_len ≤ 1 →
  ∀ fuel i, (length mask - i ≤ fuel)%nat →
            islands_loop fuel min_len mask (length mask) i = Some mask.
Proof.
  intros Hmin. induction fuel as [| fuel IH]; intros i Hfuel.
  - simpl. by rewrite (proj2 (Nat.ltb_ge _ _)) by lia.
  - simpl. destruct (Nat.ltb_spec i (length mask)) as [Hlt | Hge]; [| done].
    destruct (mask !!! i).
    + destruct (scan_run_spec mask (length mask) (length mask) (i + 1)%nat
                  eq_refl ltac:(lia) ltac:(lia)) as (j & -> & Hj & _).
      simpl. rewrite (proj2 (Z.ltb_ge _ _)) by lia. apply IH. lia.
    + apply IH. lia.
Qed.

(** X14: the two ends of the threshold. With [min_len <= 1] no run is
    short and the mask comes back unchanged; with [min_len] above the length
    of the mask every run is short and the result is all [False]. *)
Theorem merge_short_islands_extremes (mask : list bool) (min_len : Z) :
  (min_len ≤ 1 → _merge_short_islands mask min_len = Some mask) ∧
  (Z.of_nat (length mask) < min_len →
   _merge_short_islands mask min_len
   = Some (replicate (length mask) false)).
Proof.
  split.
  - intros Hmin. unfold _merge_short_islands.
    apply islands_loop_noop; [done | lia].
  - intros Hbig. destruct (merge_spec mask min_len) as (res & -> & Hlen & Hchar).
    f_equal. apply bool_list_eq; [by rewrite length_replicate |].
    intros k. rewrite Hchar. split.
    + intros (a & b & (Hab & _) & _ & Hlong). lia.
    + intros H. apply lookup_replicate in H as [? _]. done.
Qed.

Lemma merge_short_islands_extremes_witness :
  _merge_short_islands [true; false; true] 1 = Some [true; false; true] ∧
  _merge_short_islands [true; true; true] 4 = Some [false; false; false].
Proof.
  split.
  - apply (proj1 (merge_short_islands_extremes [true; false; true] 1)). lia.
  - apply (proj2 (merge_short_islands_extremes [true; true; true] 4)).
    simpl. lia.
Defined.

Lemma select_disjoint_length {A : Type} (x : list A) : ∀ m1 m2 : list bool,
  (∀ k, ¬ (m1 !! k = Some true ∧ m2 !! k = Some true)) →
  (length (select x m1) + length (select x m2) ≤ length x)%nat.
Proof.
  unfold select. induction x as [| v x IH]; intros m1 m2 Hd; [simpl; lia |].
  destruct m1 as [| b1 m1], m2 as [| b2 m2]; csimpl.
  - lia.
  - pose proof (IH [] m2 ltac:(by intros k [? _])) as H. csimpl in H.
    destruct b2; csimpl; lia.
  - pose proof (IH m1 [] ltac:(by intros k [_ ?])) as H.
    replace (zip x []) with (@nil (A * bool)) in H by (by destruct x).
    csimpl in H. destruct b1; csimpl; lia.
  - pose proof (IH m1 m2 ltac:(intros k; apply (Hd (S k)))) as H.
    destruct b1, b2; csimpl; try lia.
    exfalso. by apply (Hd 0%nat).
Qed.


End MaskMore.

(** ** Downloads *)

Module DownloadProps.

Import DownloadFromGcs CalculateDuration DownloadAudio.
Local Open Scope string_scope.

Lemma strip_prefix_Some (p s r : string) :
  strip_prefix p s = Some r → s = p ++ r.
Proof.
  revert s. induction p as [| a p IH]; intros s H.
  - destruct s; simpl in H; by injection H as <-.
  - destruct s as [| b s]; simpl in H; [done |].
    destruct (Ascii.eqb_spec a b) as [-> | ?]; [| done].
    change (String b s = String b (p ++ r)). f_equal. by apply IH.
Qed.

Lemma sanitize_all_safe (name : string) :
  all_chars safe_char (sanitize_filename name) = true.
Proof.
  induction name as [| c name IH]; [done |]. simpl.
  destruct (continuation c); [done |]. simpl. rewrite IH, andb_true_r.
  by destruct (safe_char c) eqn:E.
Qed.

Lemma safe_not_continuation (c : ascii) :
  safe_char c = true → continuation c = false.
Proof. by destruct c as [[] [] [] [] [] [] [] []]. Qed.

Lemma sanitize_safe_id (name : string) :
  all_chars safe_char name = true → sanitize_filename name = name.
Proof.
  induction name as [| c name IH]; [done |]. simpl.
  intros [Hc Hrest]%andb_true_iff.
  by rewrite (safe_not_continuation c Hc), Hc, IH.
Qed.

Lemma strip_prefix_char (a c : ascii) (s : string) :
  strip_prefix (String a "") (String c s)
  = if Ascii.eqb a c then Some s else None.
Proof. reflexivity. Qed.

Lemma all_chars_cons (p : ascii → bool) (c : ascii) (s : string) :
  all_chars p (String c s) = p c && all_chars p s.
Proof. reflexivity. Qed.

Lemma safe_no_slash (name : string) :
  all_chars safe_char name = true → contains "/" name = false.
Proof.
  induction name as [| c name IH]; [done |].
  rewrite all_chars_cons. intros [Hc Hrest]%andb_true_iff.
  rewrite NormalizeProps.contains_unfold, strip_prefix_char.
  destruct (Ascii.eqb_spec "/" c) as [<- | ?]; [done |]. by apply IH.
Qed.

Lemma safe_not_absolute (name : string) :
  all_chars safe_char name = true → startswith "/" name = false.
Proof.
  destruct name as [| c name]; [done |].
  rewrite all_chars_cons. intros [Hc _]%andb_true_iff.
  unfold startswith. rewrite strip_prefix_char.
  by destruct (Ascii.eqb_spec "/" c) as [<- | ?].
Qed.

Lemma append_cons (c : ascii) (a b : string) :
  String c a ++ b = String c (a ++ b).
Proof. reflexivity. Qed.

Lemma append_nil_l (b : string) : "" ++ b = b.
Proof. reflexivity. Qed.

(** The test [a.endswith("/")] of [os.path.join], as [path_join] writes
    it. *)
Lemma last_char_slash (c : ascii) (a : string) :
  String.eqb (substring (String.length (String c a) - 1) 1 (String c a)) "/"
  = true
  ↔ ∃ d, String c a = d ++ "/".
Proof.
  revert c. induction a as [| c' a IH]; intros c.
  - change (String.eqb (String c "") "/" = true ↔ ∃ d, String c "" = d ++ "/").
    rewrite String.eqb_eq. split.
    + intros H. by exists "".
    + intros [[| x d] Hd]; [done |].
      rewrite append_cons in Hd. injection Hd as _ Hd. by destruct d.
  - assert (substring (String.length (String c (String c' a)) - 1) 1
              (String c (String c' a))
            = substring (String.length (String c' a) - 1) 1 (String c' a))
      as -> by (cbn [String.length];
                rewrite !Nat.sub_succ, !Nat.sub_0_r; reflexivity).
    rewrite IH. split.
    + intros [d Hd]. exists (String c d). by rewrite append_cons, Hd.
    + intros [[| x d] Hd]; [done |].
      rewrite append_cons in Hd. injection Hd as _ Hd. by exists d.
Qed.

Lemma no_trailing_slash (c : ascii) (a : string) :
  String.eqb (substring (String.length (String c a) - 1) 1 (String c a)) "/"
  = false →
  ∀ d, String c a ≠ d ++ "/".
Proof.
  intros H d Hd.
  assert (∃ d, String c a = d ++ "/") as Hex by by exists d.
  apply last_char_slash in Hex. congruence.
Qed.

(** X16: a sanitised name holds only letters, digits, [_], [-] and [.], in
    particular no path separator; sanitising is idempotent and leaves a
    name of safe characters as it is. Joined to [out_dir], the name stays
    under it: the path is [out_dir], one [/] unless [out_dir] already ends
    with one, and the name; with an empty [out_dir] it is the name
    itself. *)
Theorem sanitize_filename_safe (name out_dir : string) :
  let filename := sanitize_filename name in
  all_chars safe_char filename = true ∧
  contains "/" filename = false ∧
  sanitize_filename filename = filename ∧
  (all_chars safe_char name = true → filename = name) ∧
  (out_dir = "" → path_join out_dir filename = filename) ∧
  (∀ d, out_dir = d ++ "/" → path_join out_dir filename = out_dir ++ filename) ∧
  (out_dir ≠ "" → (∀ d, out_dir ≠ d ++ "/") →
   path_join out_dir filename = out_dir ++ "/" ++ filename).
Proof.
  intros filename. pose proof (sanitize_all_safe name) as Hsafe.
  assert (startswith "/" filename = false) as Hrel
    by by apply safe_not_absolute.
  split_and!.
  - exact Hsafe.
  - by apply safe_no_slash.
  - by apply sanitize_safe_id.
  - apply sanitize_safe_id.
  - intros ->. unfold path_join. by rewrite Hrel.
  - intros d Hd. unfold path_join. rewrite Hrel.
    destruct out_dir as [| c a]; [by destruct d |].
    by rewrite (proj2 (last_char_slash c a)) by by exists d.
  - intros Hne Hno. unfold path_join. rewrite Hrel.
    destruct out_dir as [| c a]; [done |].
    destruct (String.eqb _ "/") eqn:E; [| done].
    apply last_char_slash in E as [d Hd]. by destruct (Hno d).
Qed.

Lemma sanitize_filename_safe_witness :
  sanitize_filename "assist1_a.wav" = "assist1_a.wav" ∧
  path_join "audios" (sanitize_filename "assist1/a b.wav")
  = "audios/assist1_a_b.wav" ∧
  path_join "audios/" (sanitize_filename "assist1/a b.wav")
  = "audios/assist1_a_b.wav" ∧
  path_join "" (sanitize_filename "assist1/a b.wav") = "assist1_a_b.wav".
Proof.
  pose proof (sanitize_filename_safe "assist1_a.wav" "") as H0.
  pose proof (sanitize_filename_safe "assist1/a b.wav" "audios") as H1.
  pose proof (sanitize_filename_safe "assist1/a b.wav" "audios/") as H2.
  pose proof (sanitize_filename_safe "assist1/a b.wav" "") as H3.
  cbv zeta in H0, H1, H2, H3.
  destruct H0 as (_ & _ & _ & Hid & _).
  destruct H1 as (_ & _ & _ & _ & _ & _ & Hplain).
  destruct H2 as (_ & _ & _ & _ & _ & Hslash & _).
  destruct H3 as (_ & _ & _ & _ & Hempty & _).
  split_and!.
  - apply Hid. reflexivity.
  - apply Hplain; [discriminate | by apply no_trailing_slash].
  - apply (Hslash "audios"). reflexivity.
  - apply Hempty. reflexivity.
Defined.

Lemma span_no_slash_app (a t : string) :
  all_chars not_slash a = true →
  span_no_slash (a ++ String "/" t) = (a, String "/" t).
Proof.
  induction a as [| c a IH]; [done |].
  rewrite all_chars_cons. intros [Hc Ha]%andb_true_iff.
  rewrite append_cons. simpl span_no_slash.
  unfold not_slash in Hc. apply negb_true_iff in Hc. rewrite Hc.
  by rewrite IH.
Qed.

Lemma span_no_slash_spec (s a b : string) :
  span_no_slash s = (a, b) →
  s = a ++ b ∧ all_chars not_slash a = true.
Proof.
  revert a b. induction s as [| c s IH]; intros a b H.
  - by injection H as <- <-.
  - simpl in H. destruct (Ascii.eqb c "/") eqn:Hc.
    + by injection H as <- <-.
    + destruct (span_no_slash s) as [a' b'] eqn:Hs.
      injection H as <- <-. destruct (IH a' b' eq_refl) as [-> Ha].
      split; [done |]. rewrite all_chars_cons, Ha.
      unfold not_slash. by rewrite Hc.
Qed.

Lemma take_line_prefix (s : string) : ∃ rest, s = take_line s ++ rest.
Proof.
  induction s as [| c s [rest IH]]; [by exists "" |].
  simpl. destruct (Ascii.eqb c newline).
  - by exists (String c s).
  - exists rest. rewrite append_cons. by rewrite <- IH.
Qed.

Lemma bind_Some {A B : Type} (f : A → option B) (a : A) : Some a ≫= f = f a.
Proof. reflexivity. Qed.

Lemma append_assoc (a b c : string) : (a ++ b) ++ c = a ++ b ++ c.
Proof.
  induction a as [| x a IH]; [done |]. rewrite !append_cons. by rewrite IH.
Qed.

(** X17: [download_from_gcs] reads a bucket-qualified URI back into its
    parts: [gs://<bucket>/<blob>] yields that bucket and blob whenever the
    bucket is non-empty without [/] and the blob non-empty on one line; and
    whatever the pattern accepts starts with [gs://], the bucket, [/] and
    the blob, neither of them empty. *)
Theorem match_gcs_uri_roundtrip (bucket_name blob_name uri : string) :
  (bucket_name ≠ "" → all_chars not_slash bucket_name = true →
   blob_name ≠ "" → take_line blob_name = blob_name →
   match_gcs_uri ("gs://" ++ bucket_name ++ "/" ++ blob_name)
   = Some (bucket_name, blob_name)) ∧
  (match_gcs_uri uri = Some (bucket_name, blob_name) →
   bucket_name ≠ "" ∧ blob_name ≠ "" ∧
   all_chars not_slash bucket_name = true ∧
   ∃ rest, uri = "gs://" ++ bucket_name ++ "/" ++ blob_name ++ rest).
Proof.
  split.
  - intros Hb Hns Hn Hline. unfold match_gcs_uri.
    rewrite NormalizeProps.strip_prefix_app. simpl mbind.
    change ("/" ++ blob_name) with (String "/" blob_name).
    rewrite span_no_slash_app by done.
    destruct bucket_name as [| c b]; [done |].
    cbv beta iota zeta.
    change (strip_prefix "/" (String "/" blob_name)) with (Some blob_name).
    cbv beta iota. rewrite Hline. by destruct blob_name.
  - unfold match_gcs_uri. intros H.
    destruct (strip_prefix "gs://" uri) as [rest |] eqn:Hp; [| done].
    apply strip_prefix_Some in Hp as ->. rewrite bind_Some in H.
    destruct (span_no_slash rest) as [b after] eqn:Hs.
    apply span_no_slash_spec in Hs as [-> Hns].
    destruct b as [| c b]; [done |].
    destruct (strip_prefix "/" after) as [after' |] eqn:Ha; [| done].
    apply strip_prefix_Some in Ha as ->.
    destruct (take_line after') as [| d line] eqn:Hl; [done |].
    cbn in H. injection H as <- <-.
    destruct (take_line_prefix after') as [rest' Hrest].
    rewrite Hl in Hrest. split_and!; try done.
    exists rest'. by rewrite Hrest.
Qed.

Lemma match_gcs_uri_roundtrip_witness :
  match_gcs_uri "gs://africa-voice-mali.firebasestorage.app/assist1/a.wav"
  = Some ("africa-voice-mali.firebasestorage.app", "assist1/a.wav").
Proof.
  apply (proj1 (match_gcs_uri_roundtrip
                  "africa-voice-mali.firebasestorage.app" "assist1/a.wav" ""));
    (discriminate || reflexivity).
Defined.

Lemma startswith_app (p r : string) : startswith p (p ++ r) = true.
Proof. unfold startswith. by rewrite NormalizeProps.strip_prefix_app. Qed.

Lemma startswith_true (p s : string) :
  startswith p s = true → ∃ r, s = p ++ r.
Proof.
  unfold startswith. destruct (strip_prefix p s) as [r |] eqn:E; [| done].
  intros _. exists r. by apply strip_prefix_Some.
Qed.

Lemma take_drop_chars (k : nat) (s : string) :
  take_chars k s ++ drop_chars k s = s.
Proof.
  revert s. induction k as [| k IH]; intros [| c s]; try done.
  change (String c (take_chars k s ++ drop_chars k s) = String c s).
  by rewrite IH.
Qed.

Lemma append_nil_r (s : string) : s ++ "" = s.
Proof.
  induction s as [| c s IH]; [done |].
  change (String c (s ++ "") = String c s). by rewrite IH.
Qed.

Lemma splitext_concat (p base ext : string) :
  splitext p = (base, ext) → base ++ ext = p.
Proof.
  unfold splitext. destruct (rfind "." p) as [dotIndex |].
  - destruct (_ && _); intros [= <- <-].
    + apply take_drop_chars.
    + apply append_nil_r.
  - intros [= <- <-]. apply append_nil_r.
Qed.

(** The candidate [unique_path] tries with the suffix of code point [n]. *)
Local Abbreviation candidate base ext n :=
  (base ++ "_" ++ utf8 n ++ ext) (only parsing).

Local Ltac case_candidate H E :=
  match type of H with
  | context [if ?c then _ else _] => destruct c eqn:E
  end.

Lemma next_suffix_sound (path_exists : string → bool) (base ext : string)
    (remaining : nat) (p : string) :
  next_suffix path_exists base ext remaining = inr p →
  path_exists p = false ∧
  ∃ n, (max_code_point - N.of_nat remaining ≤ n ≤ max_code_point)%N ∧
       p = candidate base ext n.
Proof.
  induction remaining as [| r IH]; cbn [next_suffix]; intros H;
    case_candidate H E; try done.
  - injection H as <-. split; [done |]. eexists. split; [| done]. lia.
  - destruct (IH H) as (Hp & n & Hn & ->).
    split; [done |]. exists n. split; [lia | done].
  - injection H as <-. split; [done |]. eexists. split; [| done]. lia.
Qed.

Lemma next_suffix_first (path_exists : string → bool) (base ext : string)
    (k remaining : nat) :
  (k ≤ remaining)%nat →
  (∀ j, (j < k)%nat →
        path_exists
          (candidate base ext
             (max_code_point - N.of_nat remaining + N.of_nat j)) = true) →
  path_exists
    (candidate base ext
       (max_code_point - N.of_nat remaining + N.of_nat k)) = false →
  (N.of_nat remaining ≤ max_code_point)%N →
  next_suffix path_exists base ext remaining
  = inr (candidate base ext
           (max_code_point - N.of_nat remaining + N.of_nat k)).
Proof.
  revert k. induction remaining as [| r IH]; intros k Hk Htaken Hfree Hr.
  - assert (k = 0) as -> by lia. cbn [next_suffix].
    rewrite N.add_0_r in Hfree |- *. by rewrite Hfree.
  - cbn [next_suffix]. destruct k as [| k].
    + rewrite N.add_0_r in Hfree |- *. by rewrite Hfree.
    + pose proof (Htaken 0 ltac:(lia)) as H0.
      rewrite N.add_0_r in H0. rewrite H0.
      assert (∀ j, max_code_point - N.of_nat (S r) + N.of_nat (S j)
                   = max_code_point - N.of_nat r + N.of_nat j)%N as Hshift
        by (intros j; lia).
      rewrite Hshift in Hfree |- *. apply IH; [lia | | done | lia].
      intros j Hj. rewrite <- Hshift. apply Htaken. lia.
Qed.

Lemma next_suffix_exhausted (path_exists : string → bool)
    (base ext : string) (remaining : nat) (e : escaped) :
  next_suffix path_exists base ext remaining = inl e →
  e = ChrOutOfRange ∧
  ∀ n, (max_code_point - N.of_nat remaining ≤ n ≤ max_code_point)%N →
       path_exists (candidate base ext n) = true.
Proof.
  induction remaining as [| r IH]; cbn [next_suffix]; intros H;
    case_candidate H E; try done.
  - injection H as <-. split; [done |]. intros n Hn.
    by replace n with (max_code_point - N.of_nat 0)%N by lia.
  - destruct (IH H) as [-> Hall]. split; [done |]. intros n Hn.
    destruct (decide (n = max_code_point - N.of_nat (S r))%N) as [-> | Hne];
      [done |].
    apply Hall. lia.
Qed.

(** X18: [unique_path] answers the candidate itself when no file has that
    name, and otherwise the candidate with [_] and the first free suffix
    ([a], [b], ... in the order of the code points) put before its
    extension. Whatever path it answers names no existing file, and it
    raises only when every suffix up to the last code point is taken. *)
Theorem unique_path_free (path_exists : string → bool)
    (base_path base ext : string) :
  splitext base_path = (base, ext) →
  base ++ ext = base_path ∧
  (path_exists base_path = false →
   unique_path path_exists base_path = inr base_path) ∧
  (∀ k : nat,
     path_exists base_path = true →
     (N.of_nat k ≤ max_code_point - 97)%N →
     (∀ j, (j < k)%nat →
           path_exists (candidate base ext (97 + N.of_nat j)) = true) →
     path_exists (candidate base ext (97 + N.of_nat k)) = false →
     unique_path path_exists base_path
     = inr (candidate base ext (97 + N.of_nat k))) ∧
  (∀ p, unique_path path_exists base_path = inr p →
        path_exists p = false) ∧
  (∀ e, unique_path path_exists base_path = inl e →
        e = ChrOutOfRange ∧ path_exists base_path = true ∧
        ∀ n, (97 ≤ n ≤ max_code_point)%N →
             path_exists (candidate base ext n) = true).
Proof.
  intros Hsplit.
  assert (max_code_point - N.of_nat (N.to_nat (max_code_point - 97)) = 97)%N
    as H97 by (unfold max_code_point; lia).
  split_and!.
  - by apply splitext_concat.
  - intros Hfree. unfold unique_path. by rewrite Hfree.
  - intros k Hbase Hk Htaken Hfree. unfold unique_path.
    rewrite Hbase, Hsplit. cbn [negb].
    rewrite <- H97. apply next_suffix_first.
    + unfold max_code_point in *. lia.
    + intros j Hj. rewrite H97. by apply Htaken.
    + by rewrite H97.
    + unfold max_code_point. lia.
  - intros p. unfold unique_path.
    destruct (path_exists base_path) eqn:Hbase; cbn [negb].
    + rewrite Hsplit. intros H. by apply next_suffix_sound in H as [? _].
    + by intros [= <-].
  - intros e. unfold unique_path.
    destruct (path_exists base_path) eqn:Hbase; cbn [negb]; [| done].
    rewrite Hsplit. intros H.
    apply next_suffix_exhausted in H as [-> Hall].
    split_and!; [done | done |]. intros n Hn. apply Hall. lia.
Qed.

Lemma unique_path_free_witness :
  let taken (p : string) :=
    String.eqb p "audios/a.wav" || String.eqb p "audios/a_a.wav" in
  unique_path taken "audios/a.wav" = inr "audios/a_b.wav" ∧
  unique_path taken "audios/c.wav" = inr "audios/c.wav".
Proof.
  intros taken. split.
  - destruct (unique_path_free taken "audios/a.wav" "audios/a" ".wav")
      as (_ & _ & Hfirst & _); [reflexivity |].
    apply (Hfirst 1); [reflexivity | vm_compute; discriminate | | reflexivity].
    intros j Hj. assert (j = 0) as -> by lia. reflexivity.
  - destruct (unique_path_free taken "audios/c.wav" "audios/c" ".wav")
      as (_ & Hfree & _); [reflexivity |].
    apply Hfree. reflexivity.
Defined.

Lemma unique_path_inr (path_exists : string → bool) (base_path p : string) :
  unique_path path_exists base_path = inr p → path_exists p = false.
Proof.
  unfold unique_path. destruct (path_exists base_path) eqn:Hbase; cbn [negb].
  - destruct (splitext base_path) as [base ext]. intros H.
    by apply next_suffix_sound in H as [? _].
  - by intros [= <-].
Qed.

(** X19: on an entry whose [audio_filepath] is a string, and once
    [unique_path] has answered a path for the sanitised normalised name
    under [out_dir], [download_audio] lets no exception escape. When it
    returns an entry, that entry is the given one with only
    [audio_filepath] replaced by that path, which named no file before, and
    the address began with [gs://] or [http]; an address that begins with
    neither, or a [gs://] address the pattern rejects, gives [None] whatever
    the transfers would do. *)
Theorem download_audio_entry (w : world) (entry : gmap string json)
    (uri out_dir local_path : string) :
  entry !! "audio_filepath" = Some (JStr uri) →
  unique_path (path_exists w)
    (path_join out_dir (sanitize_filename (normalize_path uri)))
  = inr local_path →
  ∃ r, download_audio w entry out_dir = inr r ∧
    (∀ local_entry, r = Some local_entry →
       local_entry !! "audio_filepath" = Some (JStr local_path) ∧
       path_exists w local_path = false ∧
       (∀ key, key ≠ "audio_filepath" →
               local_entry !! key = entry !! key) ∧
       dom local_entry = dom entry ∧
       (startswith "gs://" uri = true ∨ startswith "http" uri = true)) ∧
    (startswith "gs://" uri = false → startswith "http" uri = false →
     r = None) ∧
    (startswith "gs://" uri = true → match_gcs_uri uri = None → r = None).
Proof.
  intros Huri Hpath. unfold download_audio. rewrite Huri, Hpath.
  destruct (transfer w uri local_path) as [f |] eqn:Ht.
  - exists None. split_and!; done.
  - eexists. split; [done |]. split_and!.
    + intros ? [= <-]. split_and!.
      * by rewrite lookup_insert_eq.
      * by eapply unique_path_inr.
      * intros key Hk. by rewrite lookup_insert_ne.
      * by apply dom_insert_lookup_L.
      * unfold transfer in Ht.
        destruct (startswith "gs://" uri); [by left |].
        destruct (startswith "http" uri); [by right | done].
    + intros Hg Hh. unfold transfer in Ht. by rewrite Hg, Hh in Ht.
    + intros Hg Hm. unfold transfer in Ht. by rewrite Hg, Hm in Ht.
Qed.

Lemma download_audio_entry_witness :
  let w := World (λ _, false) (λ _ _ _, None) (λ _ _, None) in
  let entry : gmap string json :=
    {[ "audio_filepath" := JStr "gs://b/assist1/a.wav";
       "duration" := JNum 3 ]} in
  ∃ r, download_audio w entry "audios" = inr r ∧
       (∀ local_entry, r = Some local_entry →
          local_entry !! "audio_filepath"
          = Some (JStr "audios/gs___b_assist1_a.wav") ∧
          local_entry !! "duration" = Some (JNum 3)).
Proof.
  intros w entry.
  destruct (download_audio_entry w entry "gs://b/assist1/a.wav" "audios"
              "audios/gs___b_assist1_a.wav")
    as (r & Hr & Hsome & _); [reflexivity | reflexivity |].
  exists r. split; [exact Hr |].
  intros local_entry Hl.
  destruct (Hsome local_entry Hl) as (Hp & _ & Hk & _).
  split; [exact Hp |]. by rewrite Hk.
Defined.

Lemma collect_completed_ok (worlds : nat → world)
    (entries : list (gmap string json)) (out_dir : string)
    (schedule : list nat) (acc : list (gmap string json)) :
  (∀ k entry, entries !! k = Some entry →
              ∃ r, download_audio (worlds k) entry out_dir = inr r) →
  collect_completed worlds entries out_dir schedule acc
  = inr (acc ++ omap (λ k, entry ← entries !! k;
                            downloaded worlds out_dir k entry) schedule)%list.
Proof.
  intros Hall. revert acc.
  induction schedule as [| k schedule IH]; intros acc.
  - by rewrite app_nil_r.
  - cbn [collect_completed]. csimpl.
    destruct (entries !! k) as [entry |] eqn:Hk; csimpl; [| apply IH].
    destruct (Hall k entry Hk) as [r Hr]. unfold downloaded. rewrite Hr.
    destruct r as [result |]; [| apply IH].
    rewrite IH. by rewrite <- app_assoc.
Qed.

Lemma collect_completed_escapes (worlds : nat → world)
    (entries : list (gmap string json)) (out_dir : string)
    (schedule : list nat) (acc : list (gmap string json))
    (k : nat) (entry : gmap string json) :
  k ∈ schedule → entries !! k = Some entry → has_uri entry = false →
  ∃ e, collect_completed worlds entries out_dir schedule acc = inl e.
Proof.
  intros Hin Hk Hu. revert acc.
  induction schedule as [| j schedule IH]; intros acc.
  - by apply elem_of_nil in Hin.
  - cbn [collect_completed].
    destruct (decide (j = k)) as [-> | Hne].
    + rewrite Hk. unfold download_audio. unfold has_uri in Hu.
      destruct (entry !! "audio_filepath") as [[| | | | | | uri | |] |];
        try done; by eexists.
    + apply elem_of_cons in Hin as [-> | Hin]; [done |].
      destruct (entries !! j) as [entry' |]; [| by apply IH].
      destruct (download_audio _ _ _) as [e | [r |]];
        [by eexists | by apply IH | by apply IH].
Qed.

(** X20: [main] of the downloader reads the jobs as they complete. When no
    job lets an exception escape, the updated manifest is the list of the
    entries that downloaded, in the order in which their jobs completed:
    a rearrangement of the manifest order, equal to it when the jobs
    complete in the order submitted, and never longer than the manifest.
    When some entry carries no string address, the exception of its job
    escapes [main] and no manifest is written. *)
Theorem main_updated_entries (worlds : nat → world)
    (entries : list (gmap string json)) (out_dir : string)
    (schedule : list nat) :
  schedule ≡ₚ seq 0 (length entries) →
  ((∀ k entry, entries !! k = Some entry →
               ∃ r, download_audio (worlds k) entry out_dir = inr r) →
   main worlds entries out_dir schedule
   = inr (completed_downloads worlds out_dir entries schedule) ∧
   completed_downloads worlds out_dir entries schedule
   ≡ₚ downloads worlds out_dir entries ∧
   (length (completed_downloads worlds out_dir entries schedule)
    ≤ length entries)%nat ∧
   completed_downloads worlds out_dir entries (seq 0 (length entries))
   = downloads worlds out_dir entries) ∧
  ((∃ entry, entry ∈ entries ∧ has_uri entry = false) →
   ∃ e, main worlds entries out_dir schedule = inl e).
Proof.
  intros Hperm. split.
  - intros Hall. unfold main. rewrite collect_completed_ok by done.
    rewrite app_nil_l. fold (completed_downloads worlds out_dir entries schedule).
    split_and!.
    + done.
    + unfold completed_downloads, downloads. by rewrite Hperm.
    + unfold completed_downloads.
      etrans; [apply HarnessMore.omap_length_le |].
      rewrite Hperm. by rewrite length_seq.
    + done.
  - intros (entry & [k Hk]%list_elem_of_lookup_1 & Hu).
    eapply collect_completed_escapes; [| done | done].
    rewrite Hperm. apply elem_of_seq. apply lookup_lt_Some in Hk. lia.
Qed.

Lemma main_updated_entries_witness :
  let ok : world := World (λ _, false) (λ _ _ _, None) (λ _ _, None) in
  let down : world :=
    World (λ _, false) (λ _ _ _, None) (λ _ _, Some (IOError 0)) in
  let worlds (k : nat) := if decide (k = 1) then down else ok in
  let entries : list (gmap string json) :=
    [ {[ "audio_filepath" := JStr "gs://b/a.wav" ]};
      {[ "audio_filepath" := JStr "https://h/b.wav" ]};
      {[ "audio_filepath" := JStr "gs://b/c.wav" ]} ] in
  main worlds entries "audios" [2; 0; 1]
  = inr [ {[ "audio_filepath" := JStr "audios/gs___b_c.wav" ]};
          {[ "audio_filepath" := JStr "audios/gs___b_a.wav" ]} ].
Proof.
  intros ok down worlds entries.
  destruct (main_updated_entries worlds entries "audios" [2; 0; 1])
    as [Hok _].
  - by rewrite (Permutation_swap 0 2 [1]), (Permutation_swap 1 2 []).
  - destruct Hok as (Hmain & _).
    + intros [| [| [| k]]] entry [= <-]; by eexists.
    + rewrite Hmain. reflexivity.
Defined.

End DownloadProps.

(** ** White space and input lists *)

Module InputProps.

Import DownloadFromGcs DownloadAudio SnrInputs.
Local Open Scope string_scope.

Lemma rev_append_app (s acc : string) : rev_append s acc = reverse s ++ acc.
Proof.
  unfold reverse. revert acc. induction s as [| c s IH]; intros acc; [done |].
  cbn [rev_append]. rewrite (IH (String c acc)), (IH (String c "")).
  by rewrite DownloadProps.append_assoc.
Qed.

Lemma reverse_cons (c : ascii) (s : string) :
  reverse (String c s) = reverse s ++ String c "".
Proof. unfold reverse at 1. cbn [rev_append]. apply rev_append_app. Qed.

Lemma reverse_app (a b : string) : reverse (a ++ b) = reverse b ++ reverse a.
Proof.
  induction a as [| c a IH].
  - change (reverse "") with "". by rewrite DownloadProps.append_nil_r.
  - rewrite DownloadProps.append_cons, !reverse_cons, IH. by rewrite DownloadProps.append_assoc.
Qed.

Lemma reverse_involutive (s : string) : reverse (reverse s) = s.
Proof.
  induction s as [| c s IH]; [done |].
  rewrite reverse_cons, reverse_app, IH. reflexivity.
Qed.

Lemma all_chars_app (p : ascii → bool) (a b : string) :
  all_chars p (a ++ b) = all_chars p a && all_chars p b.
Proof.
  induction a as [| c a IH]; [done |].
  rewrite DownloadProps.append_cons. cbn [all_chars]. by rewrite IH, andb_assoc.
Qed.

Lemma all_chars_reverse (p : ascii → bool) (s : string) :
  all_chars p (reverse s) = all_chars p s.
Proof.
  induction s as [| c s IH]; [done |].
  rewrite reverse_cons, all_chars_app, IH. cbn [all_chars].
  by rewrite andb_true_r, andb_comm.
Qed.

Lemma space_at_head_counts : counts_bytes space_at_head.
Proof.
  intros [| a [| b [| c s]]]; cbn; repeat case_match; lia.
Qed.

Lemma space_at_tail_counts : counts_bytes space_at_tail.
Proof.
  intros [| a [| b [| c s]]]; cbn; repeat case_match; lia.
Qed.

Lemma drop_spaces_fixed (head : string → nat) (s : string) :
  head s = 0%nat → drop_spaces head s = s.
Proof. intros H. destruct s as [| c s]; [done |]. cbn [drop_spaces]. by rewrite H. Qed.

Lemma drop_spaces_spec (head : string → nat) (s : string) :
  counts_bytes head →
  head (drop_spaces head s) = 0%nat ∧ ∃ p, s = p ++ drop_spaces head s.
Proof.
  intros Hhead.
  assert (∀ n s, (String.length s ≤ n)%nat →
            (s ≠ "" → head (drop_spaces head s) = 0%nat) ∧
            ∃ p, s = p ++ drop_spaces head s) as H.
  { clear s. induction n as [| n IH]; intros s Hn.
    - destruct s; [| simpl in Hn; lia]. split; [done | by exists ""].
    - destruct s as [| a s1]; [split; [done | by exists ""] |].
      cbn [drop_spaces]. pose proof (Hhead (String a s1)) as Hlen.
      destruct (head (String a s1)) as [| [| [| k]]] eqn:E.
      + split; [done | by exists ""].
      + destruct (IH s1) as [H0 [p Hp]]; [simpl in Hn; lia |]. split.
        * intros _. destruct s1 as [| b s2]; [| by apply H0].
          cbn. specialize (Hhead ""). simpl in Hhead. lia.
        * exists (String a p). rewrite DownloadProps.append_cons. by rewrite <- Hp.
      + destruct s1 as [| b s2]; [simpl in Hlen; lia |].
        destruct (IH s2) as [H0 [p Hp]]; [simpl in Hn; lia |]. split.
        * intros _. destruct s2 as [| c s3]; [| by apply H0].
          cbn. specialize (Hhead ""). simpl in Hhead. lia.
        * exists (String a (String b p)). rewrite !DownloadProps.append_cons. by rewrite <- Hp.
      + destruct s1 as [| b [| c s3]]; [simpl in Hlen; lia | simpl in Hlen; lia |].
        destruct (IH s3) as [H0 [p Hp]]; [simpl in Hn; lia |]. split.
        * intros _. destruct s3 as [| d s4]; [| by apply H0].
          cbn. specialize (Hhead ""). simpl in Hhead. lia.
        * exists (String a (String b (String c p))). rewrite !DownloadProps.append_cons.
          by rewrite <- Hp. }
  destruct (H (String.length s) s) as [H0 Hp]; [lia |]. split; [| done].
  destruct s as [| a s1]; [| by apply H0].
  cbn. specialize (Hhead ""). simpl in Hhead. lia.
Qed.

Lemma lstrip_suffix (s : string) : ∃ p, s = p ++ lstrip s.
Proof. apply drop_spaces_spec, space_at_head_counts. Qed.

Lemma rstrip_prefix (s : string) : ∃ q, s = rstrip s ++ q.
Proof.
  destruct (drop_spaces_spec space_at_tail (reverse s) space_at_tail_counts)
    as [_ [p Hp]].
  exists (reverse p). unfold rstrip. rewrite <- reverse_app, <- Hp.
  by rewrite reverse_involutive.
Qed.

Lemma lstrip_fixed (s : string) : lstrip s = s ↔ space_at_head s = 0%nat.
Proof.
  split.
  - intros <-. apply drop_spaces_spec, space_at_head_counts.
  - apply drop_spaces_fixed.
Qed.

Lemma rstrip_fixed (s : string) :
  rstrip s = s ↔ space_at_tail (reverse s) = 0%nat.
Proof.
  unfold rstrip. split.
  - intros H.
    rewrite <- H at 1. rewrite reverse_involutive.
    apply drop_spaces_spec, space_at_tail_counts.
  - intros H. by rewrite drop_spaces_fixed, reverse_involutive.
Qed.

Lemma space_at_head_prefix (a q : string) :
  space_at_head (a ++ q) = 0%nat → space_at_head a = 0%nat.
Proof.
  destruct a as [| x [| y [| z a]]]; [done | | |].
  - rewrite DownloadProps.append_cons. cbn [space_at_head].
    by destruct (is_space x).
  - rewrite !DownloadProps.append_cons. cbn [space_at_head].
    destruct (is_space x); [done |]. by destruct (space2 x y).
  - by rewrite !DownloadProps.append_cons.
Qed.

Lemma lstrip_idemp (s : string) : lstrip (lstrip s) = lstrip s.
Proof. apply lstrip_fixed, drop_spaces_spec, space_at_head_counts. Qed.

Lemma rstrip_idemp (s : string) : rstrip (rstrip s) = rstrip s.
Proof.
  apply rstrip_fixed. unfold rstrip. rewrite reverse_involutive.
  apply drop_spaces_spec, space_at_tail_counts.
Qed.

Lemma lstrip_rstrip_fixed (t : string) :
  lstrip t = t → lstrip (rstrip t) = rstrip t.
Proof.
  intros H%lstrip_fixed. apply lstrip_fixed.
  destruct (rstrip_prefix t) as [q Hq]. rewrite Hq in H.
  by apply space_at_head_prefix in H.
Qed.

Lemma strip_idemp (s : string) : strip (strip s) = strip s.
Proof.
  unfold strip. rewrite lstrip_rstrip_fixed by apply lstrip_idemp.
  apply rstrip_idemp.
Qed.

Lemma lstrip_all (p : ascii → bool) (s : string) :
  all_chars p s = true → all_chars p (lstrip s) = true.
Proof.
  destruct (lstrip_suffix s) as [a Ha]. rewrite Ha at 1.
  rewrite all_chars_app. by intros [_ H]%andb_true_iff.
Qed.

Lemma rstrip_all (p : ascii → bool) (s : string) :
  all_chars p s = true → all_chars p (rstrip s) = true.
Proof.
  destruct (rstrip_prefix s) as [a Ha]. rewrite Ha at 1.
  rewrite all_chars_app. by intros [H _]%andb_true_iff.
Qed.

Lemma strip_all (p : ascii → bool) (s : string) :
  all_chars p s = true → all_chars p (strip s) = true.
Proof. intros H. unfold strip. by apply rstrip_all, lstrip_all. Qed.

Lemma split_comma_cons (c : ascii) (item : string) :
  split_comma (String c item)
  = if Ascii.eqb c "," then "" :: split_comma item
    else match split_comma item with
         | piece :: pieces => String c piece :: pieces
         | [] => [String c ""]
         end.
Proof. reflexivity. Qed.

Lemma split_comma_pieces (item : string) :
  Forall (λ piece, all_chars not_comma piece = true) (split_comma item).
Proof.
  induction item as [| c item IH]; [by repeat constructor |].
  rewrite split_comma_cons. destruct (Ascii.eqb c ",") eqn:Hc.
  - by constructor.
  - destruct (split_comma item) as [| piece pieces];
      [repeat constructor; cbn; unfold not_comma; by rewrite Hc |].
    apply Forall_cons in IH as [Hp Hps]. constructor; [| done].
    cbn. unfold not_comma at 1. by rewrite Hc.
Qed.

Lemma split_comma_none (item : string) :
  all_chars not_comma item = true → split_comma item = [item].
Proof.
  induction item as [| c item IH]; [done |].
  cbn [all_chars]. intros [Hc H]%andb_true_iff.
  rewrite split_comma_cons. unfold not_comma in Hc.
  apply negb_true_iff in Hc. rewrite Hc. by rewrite IH.
Qed.

Lemma split_comma_nonempty (item : string) : split_comma item ≠ [].
Proof.
  destruct item as [| c item]; [done |]. rewrite split_comma_cons.
  destruct (Ascii.eqb c ","); [done |]. by destruct (split_comma item).
Qed.

Lemma split_comma_app (a b : string) :
  split_comma (a ++ "," ++ b) = (split_comma a ++ split_comma b)%list.
Proof.
  induction a as [| c a IH]; [done |].
  change (String c a ++ "," ++ b) with (String c (a ++ "," ++ b)).
  rewrite !split_comma_cons, IH.
  destruct (Ascii.eqb c ","); [done |].
  destruct (split_comma a) as [| piece pieces] eqn:E; [| done].
  by apply split_comma_nonempty in E.
Qed.

Lemma names_of_clean (item : string) : Forall clean (names_of item).
Proof.
  unfold names_of. apply Forall_forall. intros p Hp.
  apply list_elem_of_filter in Hp as [Ht Hp].
  apply list_elem_of_fmap in Hp as (piece & -> & Hpiece).
  pose proof (split_comma_pieces item) as Hall.
  rewrite Forall_forall in Hall. split_and!.
  - by destruct (strip piece).
  - by apply strip_all, Hall.
  - apply strip_idemp.
Qed.

Lemma names_of_id (p : string) : clean p → names_of p = [p].
Proof.
  intros (Hne & Hcomma & Hstrip). unfold names_of.
  rewrite split_comma_none by done. cbn [map]. rewrite Hstrip.
  rewrite filter_cons, filter_nil. by destruct p.
Qed.

Lemma names_of_app (a b : string) :
  names_of (a ++ "," ++ b) = (names_of a ++ names_of b)%list.
Proof.
  unfold names_of. by rewrite split_comma_app, map_app, filter_app.
Qed.

Lemma parse_inputs_from (files inputs : list string) :
  foldl (λ files item, files ++ names_of item)%list files inputs
  = (files ++ mjoin (map names_of inputs))%list.
Proof.
  revert files. induction inputs as [| item inputs IH]; intros files.
  - by rewrite app_nil_r.
  - cbn [foldl map]. rewrite IH. csimpl. by rewrite app_assoc.
Qed.

Lemma parse_inputs_join (inputs : list string) :
  parse_inputs inputs = mjoin (map names_of inputs).
Proof. unfold parse_inputs. by rewrite parse_inputs_from. Qed.

Lemma parse_inputs_id (inputs : list string) :
  Forall clean inputs → parse_inputs inputs = inputs.
Proof.
  rewrite parse_inputs_join.
  induction 1 as [| p inputs Hp _ IH]; [done |].
  csimpl. by rewrite names_of_id, IH.
Qed.

Lemma parse_inputs_all_clean (inputs : list string) :
  Forall clean (parse_inputs inputs).
Proof.
  rewrite parse_inputs_join.
  induction inputs as [| item inputs IH]; [constructor |].
  csimpl. apply Forall_app. split; [apply names_of_clean | done].
Qed.

(** X21: every name [parse_inputs] returns is non-empty, holds no comma
    and has no white space at either end; names come out in the order
    given, a comma separates as an argument boundary does, and a list of
    such names passes through unchanged, so parsing twice is parsing
    once. *)
Theorem parse_inputs_clean (inputs : list string) :
  Forall clean (parse_inputs inputs) ∧
  parse_inputs (parse_inputs inputs) = parse_inputs inputs ∧
  (∀ more, parse_inputs (inputs ++ more)
           = (parse_inputs inputs ++ parse_inputs more)%list) ∧
  (∀ a b, parse_inputs [a ++ "," ++ b] = parse_inputs [a; b]) ∧
  (Forall clean inputs → parse_inputs inputs = inputs).
Proof.
  split_and!.
  - apply parse_inputs_all_clean.
  - apply parse_inputs_id, parse_inputs_all_clean.
  - intros more. rewrite !parse_inputs_join. by rewrite map_app, join_app.
  - intros a b. rewrite !parse_inputs_join. csimpl.
    by rewrite names_of_app, !app_nil_r.
  - apply parse_inputs_id.
Qed.

Lemma parse_inputs_clean_witness :
  parse_inputs ["a.wav"; "dir/b c.wav"] = ["a.wav"; "dir/b c.wav"] ∧
  parse_inputs [" a.wav, ,b.wav ,"; "c.wav"] = ["a.wav"; "b.wav"; "c.wav"].
Proof.
  split; [| reflexivity].
  apply (parse_inputs_clean ["a.wav"; "dir/b c.wav"]).
  repeat constructor; discriminate.
Defined.

(** X22: whatever the form of the address, the key [normalize_path]
    returns has no white space character (of [str.isspace], ASCII or not)
    left at either end: stripping it again, on the left, on the right or on
    both sides, changes nothing. *)
Theorem normalize_path_stripped (path : string) :
  strip (normalize_path path) = normalize_path path ∧
  lstrip (normalize_path path) = normalize_path path ∧
  rstrip (normalize_path path) = normalize_path path ∧
  space_at_head (normalize_path path) = 0%nat ∧
  space_at_tail (reverse (normalize_path path)) = 0%nat.
Proof.
  assert (∀ s, strip (strip s) = strip s ∧ lstrip (strip s) = strip s ∧
               rstrip (strip s) = strip s ∧
               space_at_head (strip s) = 0%nat ∧
               space_at_tail (reverse (strip s)) = 0%nat) as Hstrip.
  { intros s.
    assert (lstrip (strip s) = strip s) as Hl
      by (unfold strip; apply lstrip_rstrip_fixed, lstrip_idemp).
    assert (rstrip (strip s) = strip s) as Hr
      by (unfold strip; apply rstrip_idemp).
    split_and!; [apply strip_idemp | done | done | |].
    - by apply lstrip_fixed.
    - by apply rstrip_fixed. }
  unfold normalize_path.
  destruct (if contains _ path then search_object path else None);
    [apply Hstrip |].
  destruct (search_bucket path); apply Hstrip.
Qed.

End InputProps.

(** ** More on the total duration *)

Module CalculateDurationMore.

Import Binary64 CalculateDuration.

Lemma as_float_raised (v : json) (e : exn) :
  as_float v = Raised e →
  (e = OverflowError ∧ ∃ z, v = JInt z) ∨
  (e = TypeError ∧ ∀ z, v ≠ JInt z).
Proof.
  destruct v as [| b | z | x | | s | s | l | keys values]; cbn [as_float];
    intros H; try done; try (injection H as <-; by right).
  left. unfold of_int in H.
  destruct (fl (inject_Z z)); [done | | done].
  injection H as <-. eauto.
Qed.

Lemma hours_returned (total : float) (e : exn) :
  (of_int 3600 ≫= λ divisor,
     truediv total divisor ≫= λ total_hours, mret (total, total_hours))
  ≠ Raised e.
Proof. by rewrite CalculateDurationProps.hours_of. Qed.

Lemma calculate_audio_hours_raised (manifest : list (gmap string json))
    (e : exn) :
  calculate_audio_hours manifest = Raised e ↔
  sum_loop zero manifest = Raised e.
Proof.
  unfold calculate_audio_hours.
  destruct (sum_loop zero manifest) as [total | e'].
  - rewrite CalculateDurationProps.bind_returned. split; [| done].
    intros H. by apply hours_returned in H.
  - cbn. split; by intros [= ->].
Qed.

Lemma sum_loop_first_bad (good : list (gmap string json)) :
  ∀ total bad rest e,
    Forall numeric_duration good →
    as_float (get_duration bad) = Raised e →
    sum_loop total (good ++ bad :: rest) = Raised e.
Proof.
  induction good as [| entry good IH]; intros total bad rest e Hgood Hbad.
  - cbn [app sum_loop]. unfold add_to. by rewrite Hbad.
  - apply Forall_cons in Hgood as [He Hgood].
    cbn [app sum_loop].
    rewrite (CalculateDurationProps.add_to_numeric total entry He).
    rewrite CalculateDurationProps.bind_returned. by apply IH.
Qed.

Lemma first_bad (manifest : list (gmap string json)) :
  Exists (λ entry, ¬ numeric_duration entry) manifest →
  ∃ good bad rest e,
    manifest = (good ++ bad :: rest)%list ∧ Forall numeric_duration good ∧
    as_float (get_duration bad) = Raised e.
Proof.
  induction manifest as [| entry manifest IH]; intros Hex;
    [by apply Exists_nil in Hex |].
  destruct (as_float (get_duration entry)) as [x | e] eqn:E.
  - apply Exists_cons in Hex as [Hbad | Hrest];
      [exfalso; apply Hbad; by exists x |].
    destruct (IH Hrest) as (good & bad & rest & e & -> & Hgood & Hbad).
    exists (entry :: good), bad, rest, e. split_and!; [done | | done].
    constructor; [by exists x | done].
  - exists [], entry, manifest, e. split_and!; [done | constructor | done].
Qed.

Lemma sum_loop_raised (manifest : list (gmap string json)) :
  ∀ total e,
    sum_loop total manifest = Raised e →
    Exists (λ entry, ¬ numeric_duration entry) manifest.
Proof.
  induction manifest as [| entry rest IH]; intros total e H; [done |].
  cbn [sum_loop] in H. unfold add_to in H.
  destruct (as_float (get_duration entry)) as [x | e'] eqn:E.
  - right. rewrite !CalculateDurationProps.bind_returned in H.
    by apply (IH (fadd total x) e).
  - left. intros [x Hx]. unfold numeric_duration in Hx. congruence.
Qed.



End CalculateDurationMore.

(** ** Names of the pieces *)

Module NameProps.

Import Splitter DownloadAudio SplitterProps SegmentNames.
Local Open Scope string_scope.

Lemma pretty_N_char_numeral (n : N) : numeral_char (pretty_N_char n) = true.
Proof.
  destruct n as [| p]; [done |].
  repeat (destruct p as [p | p |]; try reflexivity).
Qed.

Lemma pretty_N_go_numeral (x : N) : ∀ s,
  all_chars numeral_char s = true →
  all_chars numeral_char (pretty_N_go x s) = true.
Proof.
  induction (N.lt_wf_0 x) as [x _ IH]. intros s Hs.
  destruct (decide (x = 0%N)) as [-> | Hx]; [by rewrite pretty_N_go_0 |].
  rewrite pretty_N_go_step by lia. apply IH.
  - apply N.div_lt; lia.
  - cbn [all_chars]. by rewrite pretty_N_char_numeral, Hs.
Qed.

Lemma pretty_N_numeral (x : N) : all_chars numeral_char (pretty x) = true.
Proof.
  unfold pretty, pretty_N. destruct (decide (x = 0%N)); [done |].
  by apply pretty_N_go_numeral.
Qed.

Lemma pretty_nat_numeral (x : nat) : all_chars numeral_char (pretty x) = true.
Proof. apply pretty_N_numeral. Qed.

Lemma pretty_Z_numeral (x : Z) : all_chars numeral_char (pretty x) = true.
Proof.
  destruct x as [| p | p]; [done | apply pretty_N_numeral |].
  change (pretty (Z.neg p)) with ("-" ++ pretty (N.pos p)).
  change ("-" ++ pretty (N.pos p)) with (String "-" (pretty (N.pos p))).
  cbn [all_chars]. by rewrite pretty_N_numeral.
Qed.

(** Two numerals followed by a character that is not of a numeral: equal
    strings have equal numerals and equal rests. *)
Lemma numeral_sep_inj (a a' r r' : string) (c c' : ascii) :
  all_chars numeral_char a = true → all_chars numeral_char a' = true →
  numeral_char c = false → numeral_char c' = false →
  a ++ String c r = a' ++ String c' r' → a = a' ∧ String c r = String c' r'.
Proof.
  revert a'. induction a as [| x a IH]; intros [| x' a'] Ha Ha' Hc Hc' Heq.
  - done.
  - exfalso. injection Heq as -> _. cbn [all_chars] in Ha'.
    apply andb_true_iff in Ha' as [Hx _]. congruence.
  - exfalso. injection Heq as -> _. cbn [all_chars] in Ha.
    apply andb_true_iff in Ha as [Hx _]. congruence.
  - injection Heq as -> Heq. cbn [all_chars] in Ha, Ha'.
    apply andb_true_iff in Ha as [_ Ha].
    apply andb_true_iff in Ha' as [_ Ha'].
    destruct (IH a' Ha Ha' Hc Hc' Heq) as [-> ?]. done.
Qed.

Lemma numeral_pair_inj {A B : Type} `{Pretty A, Pretty B}
    (a a' : A) (b b' : B) :
  all_chars numeral_char (pretty a) = true →
  all_chars numeral_char (pretty a') = true →
  all_chars numeral_char (pretty b) = true →
  all_chars numeral_char (pretty b') = true →
  pretty a ++ "_" ++ pretty b ++ ".wav"
  = pretty a' ++ "_" ++ pretty b' ++ ".wav" →
  pretty a = pretty a' ∧ pretty b = pretty b'.
Proof.
  intros Ha Ha' Hb Hb' Heq.
  apply numeral_sep_inj in Heq as [Ea Heq]; [| done ..].
  injection Heq as Heq.
  apply numeral_sep_inj in Heq as [Eb _]; done.
Qed.

Lemma seg_filename_inj (basename : string) (i k i' k' : nat) :
  seg_filename basename i k = seg_filename basename i' k' →
  i = i' ∧ k = k'.
Proof.
  unfold seg_filename. intros Heq.
  apply String.app_inj in Heq. apply (String.app_inj "_seg_") in Heq.
  apply numeral_pair_inj in Heq as [Ei Ek];
    try apply pretty_nat_numeral.
  split; by apply (inj pretty).
Qed.

Lemma short_name_inj (basename : string) (a b a' b' : Z) :
  short_name basename a b = short_name basename a' b' → a = a' ∧ b = b'.
Proof.
  unfold short_name. intros Heq.
  apply String.app_inj in Heq. apply (String.app_inj "_short_seg_") in Heq.
  apply numeral_pair_inj in Heq as [Ei Ek];
    try apply pretty_Z_numeral.
  split; by apply (inj pretty).
Qed.

Lemma seg_not_short (basename : string) (i k : nat) (a b : Z) :
  seg_filename basename i k ≠ short_name basename a b.
Proof.
  unfold seg_filename, short_name. intros Heq.
  apply String.app_inj in Heq. discriminate.
Qed.

Lemma mapM_inv {A B : Type} (f : A → outcome B) (l : list A) :
  ∀ ys, mapM f l = Returned ys → Forall2 (λ x y, f x = Returned y) l ys.
Proof.
  induction l as [| x l IH]; intros ys H.
  - injection H as <-. constructor.
  - rewrite SplitterMore.mapM_cons in H.
    destruct (f x) as [y | e] eqn:Hy; [| done].
    rewrite SplitterMore.bind_Returned in H.
    destruct (mapM f l) as [k | e] eqn:Hk; [| done].
    injection H as <-. constructor; [done | by apply IH].
Qed.

Lemma index_lt_sorted_app (l1 l2 : list (nat * nat)) :
  StronglySorted index_lt l1 → StronglySorted index_lt l2 →
  (∀ a b, a ∈ l1 → b ∈ l2 → index_lt a b) →
  StronglySorted index_lt (l1 ++ l2).
Proof.
  intros H1 H2 H12. induction H1 as [| a l1 Hs IH Ha]; [done |].
  cbn [app]. constructor.
  - apply IH. intros x y Hx Hy. apply H12; [by right | done].
  - apply Forall_app. split; [done |].
    apply Forall_forall. intros y Hy. apply H12; [by left | done].
Qed.

Lemma index_block_sorted (i : nat) (n : nat) : ∀ j,
  StronglySorted index_lt (map (pair i) (seq j n)).
Proof.
  induction n as [| n IH]; intros j; cbn [seq map]; constructor; [apply IH |].
  apply Forall_forall. intros b Hb.
  apply list_elem_of_fmap in Hb as (k & -> & Hk).
  apply elem_of_seq in Hk. right. simpl. lia.
Qed.

(** The rows of a file come interval by interval, and within an interval
    by sub-index, whenever the body of the loop numbers the pieces of
    interval [i] from 0. *)
Lemma blocks_sorted (body : nat * (Z * Z) → outcome (list segment))
    (ts : list (Z * Z)) :
  (∀ i se block, body (i, se) = Returned block →
                 ∃ n, map indices block = map (pair i) (seq 0 n)) →
  ∀ (j : nat) blocks,
    mapM body (combine (seq j (length ts)) ts) = Returned blocks →
    StronglySorted index_lt (map indices (List.concat blocks)) ∧
    Forall (λ a, (j ≤ a.1)%nat) (map indices (List.concat blocks)).
Proof.
  intros Hbody. induction ts as [| se ts IH]; intros j blocks H.
  - injection H as <-. split; constructor.
  - change (combine (seq j (length (se :: ts))) (se :: ts))
      with ((j, se) :: combine (seq (S j) (length ts)) ts) in H.
    rewrite SplitterMore.mapM_cons in H.
    destruct (body (j, se)) as [block | e] eqn:Hb; [| done].
    rewrite SplitterMore.bind_Returned in H.
    destruct (mapM body _) as [rest | e] eqn:Hrest; [| done].
    injection H as <-. destruct (IH (S j) rest Hrest) as [Hs Hlo].
    destruct (Hbody j se block Hb) as [n Hn].
    cbn [List.concat]. rewrite map_app, Hn. split.
    + apply index_lt_sorted_app; [apply index_block_sorted | done |].
      intros a b Ha Hin. apply list_elem_of_fmap in Ha as (k & -> & _).
      rewrite Forall_forall in Hlo. specialize (Hlo b Hin).
      left. simpl. lia.
    + apply Forall_app. split.
      * apply Forall_forall. intros a Ha.
        apply list_elem_of_fmap in Ha as (k & -> & _). simpl. lia.
      * eapply Forall_impl; [exact Hlo |]. intros a Ha. simpl in Ha. lia.
Qed.

Lemma sorted_lookup_lt (l : list (nat * nat)) (p p' : nat) (a b : nat * nat) :
  StronglySorted index_lt l → (p < p')%nat →
  l !! p = Some a → l !! p' = Some b → index_lt a b.
Proof.
  intros Hs. revert p p'.
  induction Hs as [| x l Hs IH Hx]; intros p p' Hlt Ha Hb; [done |].
  destruct p' as [| p']; [lia |]. destruct p as [| p].
  - injection Ha as <-. rewrite Forall_forall in Hx. apply Hx.
    by eapply list_elem_of_lookup_2.
  - apply (IH p p'); [lia | done | done].
Qed.

Lemma seg_transcribe_block (orig_sr : Z) (min_duration max_duration : Q)
    (sr_ratio : Q) (i : nat) (se : Z * Z) (block : list segment) :
  (let '(i, (start_16k, end_16k)) := (i, se) in
   let start_orig := rescale start_16k sr_ratio in
   let end_orig := rescale end_16k sr_ratio in
   splits ← SegTranscribe.splits_of start_orig end_orig orig_sr
              min_duration max_duration;
   mret (map (fun ks : nat * (Z * Z) =>
                Segment i ks.1 ks.2.1 ks.2.2 regular)
             (enumerate splits))) = Returned block →
  ∃ n, map indices block = map (pair i) (seq 0 n).
Proof.
  destruct se as [start_16k end_16k]. cbv zeta.
  destruct (SegTranscribe.splits_of _ _ _ _ _) as [splits | e]; [| done].
  intros [= <-]. exists (length splits). unfold enumerate.
  generalize 0%nat. induction splits as [| x splits IH]; intros j; [done |].
  cbn [length seq combine map]. by rewrite IH.
Qed.

(** X24: the files [segment_audio_with_vad] saves for one recording all
    get different names: a piece is named after its interval and its rank
    among the kept pieces of that interval, and no two pieces share
    both. *)
Theorem segment_files_distinct (basename : string)
    (speech_timestamps : list (Z * Z)) (orig_sr vad_sample_rate : Z)
    (min_duration max_duration : Q) (rows : list segment) :
  SegTranscribe.segment_audio_with_vad speech_timestamps orig_sr
    vad_sample_rate min_duration max_duration = Returned rows →
  StronglySorted index_lt (map indices rows) ∧
  NoDup (map (λ g, seg_filename basename (seg_i g) (seg_k g)) rows).
Proof.
  unfold SegTranscribe.segment_audio_with_vad. intros H.
  destruct (truediv _ _) as [sr_ratio | e]; [| done].
  rewrite SplitterMore.bind_Returned in H.
  destruct (mapM _ _) as [blocks | e] eqn:Hblocks; [| done].
  injection H as <-.
  eapply blocks_sorted in Hblocks as [Hs _];
    [| intros i se block; apply seg_transcribe_block].
  split; [done |].
  apply NoDup_alt. intros p p' name Hp Hp'.
  apply list_lookup_fmap_Some in Hp as (g & -> & Hg).
  apply list_lookup_fmap_Some in Hp' as (g' & Heq & Hg').
  apply seg_filename_inj in Heq as [Hi Hk].
  destruct (Nat.lt_trichotomy p p') as [Hlt | [-> | Hlt]]; [| done |].
  - exfalso.
    assert (index_lt (indices g) (indices g')) as [Hlt' | [_ Hlt']]
      by (eapply sorted_lookup_lt; [done | done | |];
          by rewrite list_lookup_fmap, ?Hg, ?Hg').
    + simpl in Hlt'. lia.
    + simpl in Hlt'. lia.
  - exfalso.
    assert (index_lt (indices g') (indices g)) as [Hlt' | [_ Hlt']]
      by (eapply sorted_lookup_lt; [done | done | |];
          by rewrite list_lookup_fmap, ?Hg, ?Hg').
    + simpl in Hlt'. lia.
    + simpl in Hlt'. lia.
Qed.

Lemma segment_files_distinct_witness :
  NoDup (map (λ g, seg_filename "rec" (seg_i g) (seg_k g))
           [Segment 0 0 0 80000 regular; Segment 0 1 80000 160000 regular;
            Segment 0 2 160000 176000 regular;
            Segment 2 0 190000 230000 regular]).
Proof.
  apply (segment_files_distinct "rec"
           [(0, 176000); (180000, 184000); (190000, 230000)]%Z
           16000 16000 1 5).
  reflexivity.
Defined.

Lemma save_short_block (orig_sr : Z) (min_duration max_duration : Q)
    (sr_ratio : Q) (i : nat) (se : Z * Z) (block : list segment) :
  (let '(i, (start_16k, end_16k)) := (i, se) in
   let start_orig := rescale start_16k sr_ratio in
   let end_orig := rescale end_16k sr_ratio in
   splits ← SaveShort.splits_of start_orig end_orig orig_sr max_duration;
   mapM (SaveShort.classify orig_sr min_duration i) (enumerate splits))
  = Returned block →
  ∃ n, map indices block = map (pair i) (seq 0 n).
Proof.
  destruct se as [start_16k end_16k]. cbv zeta.
  destruct (SaveShort.splits_of _ _ _ _) as [splits | e]; [| done].
  rewrite SplitterMore.bind_Returned. intros H.
  apply mapM_inv in H. exists (length splits). unfold enumerate in H.
  revert H. generalize 0%nat. revert block.
  induction splits as [| [s e] splits IH]; intros block j H.
  - by inversion H.
  - cbn [length seq combine] in H. inversion H as [| ? g ? rest Hg Hrest];
      subst.
    cbn [length seq map]. rewrite (IH rest (S j) Hrest). f_equal.
    unfold SaveShort.classify in Hg.
    destruct (dur_sec s e orig_sr) as [dur | err]; [| done].
    by injection Hg as <-.
Qed.

#[local] Existing Instance SplitterMore.py_int_proper.

Lemma ms_div (n sr : Z) :
  (0 < sr)%Z → (0 ≤ n)%Z → SaveShort.ms n sr = Returned (1000 * n / sr)%Z.
Proof.
  intros Hsr Hm. unfold SaveShort.ms, truediv.
  pose proof (sr_pos sr Hsr) as Hs.
  rewrite Qeq_bool_false by lra.
  unfold mbind, outcome_bind, mret, outcome_ret. f_equal.
  assert (1000 * inject_Z n / inject_Z sr
          == inject_Z (1000 * n) / inject_Z sr)%Q as ->
    by (rewrite inject_Z_mult; reflexivity).
  rewrite py_int_nonneg.
  - symmetry. apply Zdiv_Qdiv.
  - apply Qle_shift_div_l; [done |]. rewrite Qmult_0_l.
    change 0%Q with (inject_Z 0). rewrite <- Zle_Qle. lia.
Qed.

Lemma ordered_from_in (l : list (Z * Z)) : ∀ (lo : Z) (q : nat) x y,
  ordered_from lo l → l !! q = Some (x, y) → (lo ≤ x ∧ x ≤ y)%Z.
Proof.
  induction l as [| [a b] l IH]; intros lo q x y Hord Hq; [done |].
  destruct Hord as (Hlo & Hab & Hrest). destruct q as [| q].
  - injection Hq as <- <-. lia.
  - cbn in Hq. destruct (IH b q x y Hrest Hq). lia.
Qed.

Lemma ordered_from_lookup (l : list (Z * Z)) :
  ∀ (lo : Z) (p p' : nat) s e s' e',
  ordered_from lo l → (p < p')%nat →
  l !! p = Some (s, e) → l !! p' = Some (s', e') →
  (lo ≤ s ∧ s ≤ e ∧ e ≤ s' ∧ s' ≤ e')%Z.
Proof.
  induction l as [| [a b] l IH]; intros lo p p' s e s' e' Hord Hlt Hp Hp';
    [done |].
  destruct Hord as (Hlo & Hab & Hrest).
  destruct p' as [| p']; [lia |]. cbn in Hp'.
  destruct p as [| p].
  - injection Hp as <- <-.
    destruct (ordered_from_in l b p' s' e' Hrest Hp'). lia.
  - cbn in Hp. destruct (IH b p p' s e s' e' Hrest ltac:(lia) Hp Hp'). lia.
Qed.

Lemma mapM_map {A B : Type} (f : A → outcome B) (h : A → B) (l : list A) :
  (∀ x, x ∈ l → f x = Returned (h x)) → mapM f l = Returned (map h l).
Proof.
  induction l as [| x l IH]; intros Hf; [done |].
  rewrite SplitterMore.mapM_cons, (Hf x) by by left.
  rewrite SplitterMore.bind_Returned, IH by (intros y Hy; apply Hf; by right).
  done.
Qed.

(** The name of a row whose sample range is not negative. *)
Local Abbreviation name_of :=
  (fun (basename : string) (orig_sr : Z) (g : segment) =>
     match seg_kind g with
     | regular => seg_filename basename (seg_i g) (seg_k g)
     | short => short_name basename (1000 * seg_start g / orig_sr)%Z
                  (1000 * seg_end g / orig_sr)%Z
     end) (only parsing).

Lemma segment_name_value (basename : string) (orig_sr : Z) (g : segment) :
  (0 < orig_sr)%Z → (0 ≤ seg_start g ≤ seg_end g)%Z →
  segment_name basename orig_sr g = Returned (name_of basename orig_sr g).
Proof.
  intros Hsr Hg. unfold segment_name. destruct (seg_kind g); [done |].
  by rewrite !ms_div, !SplitterMore.bind_Returned by lia.
Qed.

(** X25: in the table [process_one_audio] writes for one recording, two
    rows can carry the same file name only when both are short pieces that
    lie, together with everything between them, inside one millisecond:
    regular names differ by interval or sub-index, no regular name is a
    short one, and short names tell apart positions a millisecond apart.
    So a short piece saved and uploaded is never overwritten by another one
    unless the two fall within the same millisecond (VAD timestamps in
    order, without overlap). *)
Theorem segment_names_collide_within_ms (basename : string)
    (speech_timestamps : list (Z * Z)) (orig_sr vad_sample_rate : Z)
    (min_duration max_duration : Q) :
  (0 < orig_sr)%Z → (0 < vad_sample_rate)%Z →
  (1 <= max_duration * inject_Z orig_sr)%Q →
  ordered_from 0 speech_timestamps →
  ∃ rows names,
    SaveShort.process_one_audio speech_timestamps orig_sr vad_sample_rate
      min_duration max_duration = Returned rows ∧
    mapM (segment_name basename orig_sr) rows = Returned names ∧
    ∀ (p p' : nat) g g' name,
      (p < p')%nat → rows !! p = Some g → rows !! p' = Some g' →
      names !! p = Some name → names !! p' = Some name →
      seg_kind g = short ∧ seg_kind g' = short ∧
      (1000 * (seg_end g' - seg_start g) < orig_sr)%Z.
Proof.
  intros Hsr Hvad HX Hord.
  destruct (SplitterMore.loop_ordered orig_sr vad_sample_rate min_duration
              max_duration Hsr Hvad HX speech_timestamps 0%nat 0%Z
              ltac:(lia) Hord)
    as (blocks & Hblocks & _ & _ & Hob & _ & _ & _).
  rewrite SplitterMore.rescale_floor in Hob by lia.
  change (0 * orig_sr / vad_sample_rate)%Z with 0%Z in Hob.
  pose proof Hblocks as Hsorted.
  eapply blocks_sorted in Hsorted as [Hsorted _];
    [| intros i se block; apply save_short_block].
  set (rows := List.concat blocks) in *.
  assert (∀ q g, rows !! q = Some g →
                 map (λ g, (seg_start g, seg_end g)) rows !! q
                 = Some (seg_start g, seg_end g)) as Hrange
    by (intros q g Hq; by rewrite list_lookup_fmap, Hq).
  assert (∀ g, g ∈ rows → (0 ≤ seg_start g ≤ seg_end g)%Z) as Hpos.
  { intros g [q Hq]%list_elem_of_lookup_1.
    by eapply ordered_from_in; [exact Hob | apply Hrange]. }
  exists rows, (map (name_of basename orig_sr) rows). split_and!.
  - unfold SaveShort.process_one_audio, truediv.
    pose proof (sr_pos vad_sample_rate Hvad) as Hv.
    rewrite (Qeq_bool_false (inject_Z vad_sample_rate)) by lra.
    rewrite SplitterMore.bind_Returned. cbv beta.
    lazymatch type of Hblocks with
    | ?lhs = _ =>
        lazymatch goal with
        | |- _ <$> ?m = _ => change m with lhs
        end
    end.
    rewrite Hblocks. reflexivity.
  - apply mapM_map. intros g Hg. by apply segment_name_value, Hpos.
  - intros p p' g g' name Hlt Hg Hg' Hn Hn'.
    rewrite list_lookup_fmap, Hg in Hn. injection Hn as Hn.
    rewrite list_lookup_fmap, Hg' in Hn'. injection Hn' as Hn'.
    rewrite <- Hn' in Hn. clear Hn' name. cbv beta in Hn.
    pose proof (ordered_from_lookup _ 0%Z p p' _ _ _ _ Hob Hlt
                  (Hrange p g Hg) (Hrange p' g' Hg')) as Hse.
    assert (index_lt (indices g) (indices g')) as Hidx
      by (eapply sorted_lookup_lt; [done | done | |];
          by rewrite list_lookup_fmap, ?Hg, ?Hg').
    destruct (seg_kind g) eqn:Hk, (seg_kind g') eqn:Hk'.
    + exfalso. apply seg_filename_inj in Hn as [Hi' Hk''].
      destruct Hidx as [Hidx | [_ Hidx]]; simpl in Hidx; lia.
    + exfalso. by apply seg_not_short in Hn.
    + exfalso. symmetry in Hn. by apply seg_not_short in Hn.
    + split_and!; [done | done |].
      apply short_name_inj in Hn as [Hs He].
      pose proof (Z.div_le_mono (1000 * seg_start g) (1000 * seg_end g)
                    orig_sr Hsr ltac:(lia)) as H1.
      pose proof (Z.div_le_mono (1000 * seg_end g) (1000 * seg_start g')
                    orig_sr Hsr ltac:(lia)) as H2.
      pose proof (Z.mul_div_le (1000 * seg_start g) orig_sr Hsr) as H3.
      pose proof (Z.mul_succ_div_gt (1000 * seg_end g') orig_sr Hsr) as H4.
      assert (1000 * seg_end g' / orig_sr = 1000 * seg_start g / orig_sr)%Z
        as Hm by lia.
      rewrite Hm in H4. lia.
Qed.

Lemma segment_names_collide_within_ms_witness :
  ∃ rows names,
    SaveShort.process_one_audio [(0, 160000); (170000, 180001)]%Z 16000 16000
      1 5 = Returned rows ∧
    mapM (segment_name "rec" 16000) rows = Returned names.
Proof.
  destruct (segment_names_collide_within_ms "rec"
              [(0, 160000); (170000, 180001)]%Z 16000 16000 1 5)
    as (rows & names & Hrows & Hnames & _).
  - lia.
  - lia.
  - discriminate.
  - simpl. lia.
  - by exists rows, names.
Defined.

(** The bound is met: two short pieces inside one millisecond do get the
    same name. *)
Remark short_names_can_collide :
  segment_name "rec" 16000 (Segment 1 0 170000 170008 short)
  = segment_name "rec" 16000 (Segment 2 0 170010 170012 short).
Proof. reflexivity. Qed.

End NameProps.

(** ** The pieces of one recording, with the object store *)

Module ProcessOneProps.

Import Splitter Harness DownloadAudio SegmentNames ProcessOne.
Local Open Scope string_scope.

Section Invariant.

Variables (w : world) (p : job) (basename : string) (orig_sr : Z).

Lemma uploaded_app (l1 l2 : list effect) :
  uploaded (l1 ++ l2) = (uploaded l1 ++ uploaded l2)%list.
Proof. unfold uploaded. apply omap_app. Qed.

Lemma short_rows_app (l1 l2 : list tsv_row) :
  short_rows (l1 ++ l2) = (short_rows l1 ++ short_rows l2)%list.
Proof. unfold short_rows. apply filter_app. Qed.

Lemma short_rows_short (row : tsv_row) :
  tsv_type row = short → short_rows [row] = [row].
Proof.
  intros H. unfold short_rows. rewrite filter_cons, filter_nil.
  rewrite decide_True; [done |]. by rewrite H.
Qed.

Lemma short_rows_regular (row : tsv_row) :
  tsv_type row = regular → short_rows [row] = [].
Proof.
  intros H. unfold short_rows. rewrite filter_cons, filter_nil.
  rewrite decide_False; [done |]. by rewrite H.
Qed.

Local Ltac stopped Hst :=
  exists 0%nat; split; [lia | first [exact Hst | cbn; exact Hst]].

Lemma one_piece_inv (st : state) (i : nat) (ks : nat * (Z * Z)) :
  inv p 0 st →
  match one_piece w p basename orig_sr st i ks with
  | inl (_, st') => ∃ slack, (slack ≤ 1)%nat ∧ inv p slack st'
  | inr st' => inv p 0 st'
  end.
Proof.
  intros Hst. pose proof Hst as (Hgs & Hpub & Hrows).
  destruct ks as [k [s e]]. unfold one_piece.
  destruct (dur_sec s e orig_sr) as [dur |]; [| stopped Hst].
  destruct (truediv (inject_Z s) _) as [s_sec |]; [| stopped Hst].
  destruct (truediv (inject_Z e) _) as [e_sec |]; [| stopped Hst].
  destruct (Qgeb dur (min_duration p)).
  - destruct (blob_exists w _).
    + destruct (delete w _); [stopped Hst |].
      split_and!; cbn.
      * by rewrite uploaded_app, app_nil_r.
      * done.
      * rewrite short_rows_app, length_app, Hrows, short_rows_regular by done.
        cbn. lia.
    + split_and!; cbn; [done | done |].
      rewrite short_rows_app, length_app, Hrows, short_rows_regular by done.
      cbn. lia.
  - destruct (SaveShort.ms s orig_sr) as [start_ms_val |]; [| stopped Hst].
    destruct (SaveShort.ms e orig_sr) as [end_ms_val |]; [| stopped Hst].
    destruct ((safe_save_waveform _ 5).1); [| stopped Hst].
    destruct (upload w _).
    + exists 1%nat. split; [done |]. split_and!; cbn; [done | done |].
      rewrite short_rows_app, length_app, Hrows, short_rows_short by done.
      cbn. lia.
    + split_and!; cbn.
      * by rewrite uploaded_app, !map_app, Hgs.
      * intros Hno. apply Forall_app. split; [by apply Hpub |].
        repeat constructor. cbn. by rewrite Hno.
      * rewrite short_rows_app, !length_app, Hrows, short_rows_short by done.
        cbn. lia.
Qed.

Lemma pieces_loop_inv (splits : list (nat * (Z * Z))) (i : nat) :
  ∀ st, inv p 0 st →
  match pieces_loop w p basename orig_sr st i splits with
  | inl (_, st') => ∃ slack, (slack ≤ 1)%nat ∧ inv p slack st'
  | inr st' => inv p 0 st'
  end.
Proof.
  induction splits as [| ks splits IH]; intros st Hst; [done |].
  cbn [pieces_loop]. pose proof (one_piece_inv st i ks Hst) as H1.
  destruct (one_piece _ _ _ _ _ _ _) as [[err st'] | st']; [done |].
  by apply IH.
Qed.

Lemma intervals_loop_inv (sr_ratio : Q) (timestamps : list (nat * (Z * Z))) :
  ∀ st, inv p 0 st →
  match intervals_loop w p basename orig_sr sr_ratio st timestamps with
  | inl (_, st') => ∃ slack, (slack ≤ 1)%nat ∧ inv p slack st'
  | inr st' => inv p 0 st'
  end.
Proof.
  induction timestamps as [| [i [start_16k end_16k]] rest IH]; intros st Hst;
    [done |].
  cbn [intervals_loop]. cbv zeta.
  destruct (SaveShort.splits_of _ _ _ _) as [splits |]; [| stopped Hst].
  pose proof (pieces_loop_inv (enumerate splits) i st Hst) as H1.
  destruct (pieces_loop _ _ _ _ _ _ _) as [[err st'] | st']; [done |].
  by apply IH.
Qed.

End Invariant.

(** X26: whatever the object store does, [process_one_audio] returns
    either [OK] with its items and no message, or [ERROR] with a message
    and no items. In both cases the items recorded so far are exactly the
    [gs://] addresses of the short pieces uploaded so far, in order, and
    each has its row in the table: a call that fails after some uploads
    returns no items although those objects stay in the bucket. On [OK]
    the table has as many short rows as there are items. The line [main]
    writes for an item has an empty [semi-label] and the item's public
    address, which is the [gs://] address when [no_gcs] is set. *)
Theorem process_one_audio_items (w : world) (p : job) :
  let '((src_name, status, items, err), st) := process_one_audio w p in
  src_name = object_name p ∧
  ((status = OK ∧ items = Some (manifest_items st) ∧ err = None ∧
    length (short_rows (tsv st)) = length (manifest_items st)) ∨
   (status = ERROR ∧ items = None ∧ ∃ e, err = Some e)) ∧
  map audio_gs (manifest_items st) = map (gs_uri p) (uploaded (bucket_log st)) ∧
  (length (manifest_items st) ≤ length (short_rows (tsv st)))%nat ∧
  Forall (λ it, out_item_of (no_gcs p) it
                = OutItem "" (duration it) (public_url it) ∧
                (no_gcs p = true → public_url it = audio_gs it))
    (manifest_items st).
Proof.
  assert (∀ slack st, inv p slack st →
            map audio_gs (manifest_items st)
            = map (gs_uri p) (uploaded (bucket_log st)) ∧
            (length (manifest_items st) ≤ length (short_rows (tsv st)))%nat ∧
            Forall (λ it, out_item_of (no_gcs p) it
                          = OutItem "" (duration it) (public_url it) ∧
                          (no_gcs p = true → public_url it = audio_gs it))
              (manifest_items st)) as Hinv.
  { intros slack st (Hgs & Hpub & Hrows). split_and!; [done | lia |].
    unfold out_item_of. destruct (no_gcs p); cbn.
    - eapply Forall_impl; [by apply Hpub |]. cbn. by intros it ->.
    - apply Forall_forall. by intros it _. }
  assert (inv p 0 (State [] [] [])) as H0 by (split_and!; by try constructor).
  unfold process_one_audio.
  destruct ((safe_download_blob _ 2).1);
    [| split_and!; [done | right; eauto | apply (Hinv 0%nat _ H0) ..]].
  destruct (local_ok w); cbn [negb];
    [| split_and!; [done | right; eauto | apply (Hinv 0%nat _ H0) ..]].
  destruct (load w) as [e | orig_sr];
    [split_and!; [done | right; eauto | apply (Hinv 0%nat _ H0) ..] |].
  destruct (vad w) as [e | speech_timestamps];
    [split_and!; [done | right; eauto | apply (Hinv 0%nat _ H0) ..] |].
  destruct (truediv _ _) as [sr_ratio | e];
    [| split_and!; [done | right; eauto | apply (Hinv 0%nat _ H0) ..]].
  pose proof (intervals_loop_inv w p (stem (object_name p)) orig_sr sr_ratio
                (enumerate speech_timestamps) _ H0) as Hloop.
  destruct (intervals_loop _ _ _ _ _ _ _) as [[err st] | st].
  - destruct Hloop as (slack & _ & Hst).
    split_and!; [done | right; eauto | apply (Hinv slack _ Hst) ..].
  - destruct (upload_manifest w _);
      [split_and!; [done | right; eauto | apply (Hinv 0%nat _ Hloop) ..] |].
    destruct (upload_tsv w _);
      [split_and!; [done | right; eauto | apply (Hinv 0%nat _ Hloop) ..] |].
    split_and!; [done | | apply (Hinv 0%nat _ Hloop) ..].
    left. split_and!; try done. destruct Hloop as (_ & _ & ->). lia.
Qed.

Lemma mapM_app {A B : Type} (f : A → outcome B) (l1 l2 : list A)
    (r1 r2 : list B) :
  mapM f l1 = Returned r1 → mapM f l2 = Returned r2 →
  mapM f (l1 ++ l2)%list = Returned (r1 ++ r2)%list.
Proof.
  revert r1. induction l1 as [| x l1 IH]; intros r1 H1 H2.
  - by injection H1 as <-.
  - cbn [app]. rewrite SplitterMore.mapM_cons in H1 |- *.
    destruct (f x) as [y |]; [| done].
    rewrite SplitterMore.bind_Returned in H1 |- *.
    destruct (mapM f l1) as [k |] eqn:Hk; [| done].
    injection H1 as <-. by rewrite (IH k eq_refl H2).
Qed.

Lemma short_pieces_app (l1 l2 : list segment) :
  short_pieces (l1 ++ l2) = (short_pieces l1 ++ short_pieces l2)%list.
Proof. unfold short_pieces. apply filter_app. Qed.

Section Rows.

Variables (w : world) (p : job) (basename : string) (orig_sr : Z).

Lemma one_piece_row (st st' : state) (i k : nat) (s e : Z) :
  one_piece w p basename orig_sr st i (k, (s, e)) = inr st' →
  ∃ g name,
    SaveShort.classify orig_sr (min_duration p) i (k, (s, e)) = Returned g ∧
    segment_name basename orig_sr g = Returned name ∧
    added st st' [seg_kind g] [name]
      (map (λ g, round3 (piece_duration orig_sr g)) (short_pieces [g])).
Proof.
  unfold one_piece, SaveShort.classify.
  destruct (dur_sec s e orig_sr) as [dur |] eqn:Hdur; [| done].
  assert (dur = piece_duration orig_sr (Segment i k s e regular)
          ∧ ∀ kind, piece_duration orig_sr (Segment i k s e kind) = dur)
    as [_ Hpd].
  { unfold dur_sec, truediv in Hdur. destruct (Qeq_bool _ 0); [done |].
    by injection Hdur as <-. }
  destruct (truediv (inject_Z s) _) as [s_sec |]; [| done].
  destruct (truediv (inject_Z e) _) as [e_sec |]; [| done].
  rewrite SplitterMore.bind_Returned.
  destruct (Qgeb dur (min_duration p)).
  - intros H. eexists _, _. split; [done |]. split; [reflexivity |].
    assert (short_pieces [Segment i k s e regular] = []) as ->.
    { unfold short_pieces. rewrite filter_cons, filter_nil.
      by rewrite decide_False. }
    destruct (blob_exists w _); [destruct (delete w _); [done |] |];
      injection H as <-; split_and!; cbn; by rewrite ?map_app, ?app_nil_r.
  - destruct (SaveShort.ms s orig_sr) as [start_ms_val |] eqn:Hs; [| done].
    destruct (SaveShort.ms e orig_sr) as [end_ms_val |] eqn:He; [| done].
    destruct ((safe_save_waveform _ 5).1); [| done].
    destruct (upload w _); [done |]. intros [= <-].
    eexists _, _. split; [done |]. split.
    { unfold segment_name. cbn [seg_kind seg_start seg_end].
      rewrite Hs, He. reflexivity. }
    assert (short_pieces [Segment i k s e short] = [Segment i k s e short])
      as ->.
    { unfold short_pieces. rewrite filter_cons, filter_nil.
      by rewrite decide_True. }
    split_and!; cbn; rewrite ?map_app; try done.
    by rewrite Hpd.
Qed.

Lemma added_refl (st : state) : added st st [] [] [].
Proof. split_and!; by rewrite app_nil_r. Qed.

Lemma added_trans (st1 st2 st3 : state) k1 n1 d1 k2 n2 d2 :
  added st1 st2 k1 n1 d1 → added st2 st3 k2 n2 d2 →
  added st1 st3 (k1 ++ k2)%list (n1 ++ n2)%list (d1 ++ d2)%list.
Proof.
  intros (Hk1 & Hn1 & Hd1) (Hk2 & Hn2 & Hd2).
  split_and!; [rewrite Hk2, Hk1 | rewrite Hn2, Hn1 | rewrite Hd2, Hd1];
    by rewrite app_assoc.
Qed.

Lemma pieces_loop_rows (i : nat) (splits : list (Z * Z)) :
  ∀ (j : nat) (st st' : state),
  pieces_loop w p basename orig_sr st i
    (combine (seq j (length splits)) splits) = inr st' →
  ∃ rows names,
    mapM (SaveShort.classify orig_sr (min_duration p) i)
      (combine (seq j (length splits)) splits) = Returned rows ∧
    mapM (segment_name basename orig_sr) rows = Returned names ∧
    added st st' (map seg_kind rows) names
      (map (λ g, round3 (piece_duration orig_sr g)) (short_pieces rows)).
Proof.
  induction splits as [| [s e] splits IH]; intros j st st' H.
  - injection H as <-. exists [], []. split_and!; try done.
    apply added_refl.
  - cbn [length seq combine pieces_loop] in H |- *.
    destruct (one_piece _ _ _ _ _ _ _) as [stop | st1] eqn:H1; [done |].
    apply one_piece_row in H1 as (g & name & Hg & Hname & Hadd).
    destruct (IH (S j) st1 st' H) as (rows & names & Hrows & Hnames & Hadd').
    exists (g :: rows), (name :: names). split_and!.
    + rewrite SplitterMore.mapM_cons, Hg, SplitterMore.bind_Returned, Hrows.
      done.
    + rewrite SplitterMore.mapM_cons, Hname, SplitterMore.bind_Returned,
        Hnames.
      done.
    + pose proof (added_trans _ _ _ _ _ _ _ _ _ Hadd Hadd') as Ht.
      rewrite <- map_app, <- short_pieces_app in Ht. exact Ht.
Qed.

Lemma intervals_loop_rows (sr_ratio : Q) (ts : list (Z * Z)) :
  ∀ (j : nat) (st st' : state),
  intervals_loop w p basename orig_sr sr_ratio st
    (combine (seq j (length ts)) ts) = inr st' →
  ∃ blocks names,
    mapM (fun its : nat * (Z * Z) =>
            let '(i, (start_16k, end_16k)) := its in
            let start_orig := rescale start_16k sr_ratio in
            let end_orig := rescale end_16k sr_ratio in
            splits ← SaveShort.splits_of start_orig end_orig orig_sr
                       (max_duration p);
            mapM (SaveShort.classify orig_sr (min_duration p) i)
              (enumerate splits))
      (combine (seq j (length ts)) ts) = Returned blocks ∧
    mapM (segment_name basename orig_sr) (List.concat blocks)
    = Returned names ∧
    added st st' (map seg_kind (List.concat blocks)) names
      (map (λ g, round3 (piece_duration orig_sr g))
         (short_pieces (List.concat blocks))).
Proof.
  set (body := fun its : nat * (Z * Z) => _).
  induction ts as [| [start_16k end_16k] ts IH]; intros j st st' H.
  - injection H as <-. exists [], []. split_and!; try done.
    apply added_refl.
  - cbn [length seq combine intervals_loop] in H |- *. cbv zeta in H.
    destruct (SaveShort.splits_of _ _ _ _) as [splits |] eqn:Hsplits;
      [| done].
    destruct (pieces_loop _ _ _ _ _ _ _) as [stop | st1] eqn:H1; [done |].
    apply pieces_loop_rows in H1 as (rows & names & Hrows & Hnames & Hadd).
    destruct (IH (S j) st1 st' H)
      as (blocks & names' & Hblocks & Hnames' & Hadd').
    assert (body (j, (start_16k, end_16k)) = Returned rows) as Hbody.
    { subst body. cbv beta iota zeta. rewrite Hsplits.
      rewrite SplitterMore.bind_Returned. exact Hrows. }
    exists (rows :: blocks), (names ++ names')%list. split_and!.
    + rewrite SplitterMore.mapM_cons, Hbody, SplitterMore.bind_Returned.
      rewrite Hblocks. done.
    + cbn [List.concat]. by apply mapM_app.
    + pose proof (added_trans _ _ _ _ _ _ _ _ _ Hadd Hadd') as Ht.
      rewrite <- (map_app seg_kind), <- map_app, <- short_pieces_app in Ht.
      exact Ht.
Qed.

Hypothesis Hnever : never_fails w.

Lemma one_piece_succeeds (st : state) (i k : nat) (s e : Z) (g : segment) :
  SaveShort.classify orig_sr (min_duration p) i (k, (s, e)) = Returned g →
  ∃ st', one_piece w p basename orig_sr st i (k, (s, e)) = inr st'.
Proof.
  destruct Hnever as (_ & _ & Hdel & Hsave & Hup & _).
  unfold SaveShort.classify, one_piece, SaveShort.ms, dur_sec, truediv.
  destruct (Qeq_bool (inject_Z orig_sr) 0); [done |]. intros _.
  rewrite !SplitterMore.bind_Returned. unfold mret, outcome_ret.
  destruct (Qgeb _ _).
  - destruct (blob_exists w _); [rewrite Hdel |]; by eexists.
  - rewrite Hsave, Hup. by eexists.
Qed.

Lemma pieces_loop_succeeds (i : nat) (splits : list (nat * (Z * Z))) :
  ∀ (st : state) rows,
  mapM (SaveShort.classify orig_sr (min_duration p) i) splits
  = Returned rows →
  ∃ st', pieces_loop w p basename orig_sr st i splits = inr st'.
Proof.
  induction splits as [| [k [s e]] splits IH]; intros st rows H;
    [by eexists |].
  rewrite SplitterMore.mapM_cons in H.
  destruct (SaveShort.classify _ _ _ _) as [g |] eqn:Hg; [| done].
  rewrite SplitterMore.bind_Returned in H.
  destruct (mapM _ splits) as [rest |] eqn:Hrest; [| done].
  destruct (one_piece_succeeds st i k s e g Hg) as [st1 H1].
  cbn [pieces_loop]. rewrite H1. by apply (IH st1 rest).
Qed.

Lemma intervals_loop_succeeds (sr_ratio : Q) (ts : list (nat * (Z * Z))) :
  ∀ (st : state) blocks,
  mapM (fun its : nat * (Z * Z) =>
          let '(i, (start_16k, end_16k)) := its in
          let start_orig := rescale start_16k sr_ratio in
          let end_orig := rescale end_16k sr_ratio in
          splits ← SaveShort.splits_of start_orig end_orig orig_sr
                     (max_duration p);
          mapM (SaveShort.classify orig_sr (min_duration p) i)
            (enumerate splits)) ts = Returned blocks →
  ∃ st', intervals_loop w p basename orig_sr sr_ratio st ts = inr st'.
Proof.
  set (body := fun its : nat * (Z * Z) => _).
  induction ts as [| [i [start_16k end_16k]] ts IH]; intros st blocks H;
    [by eexists |].
  rewrite SplitterMore.mapM_cons in H.
  destruct (body (i, (start_16k, end_16k))) as [rows |] eqn:Hbody; [| done].
  rewrite SplitterMore.bind_Returned in H.
  destruct (mapM body ts) as [rest |] eqn:Hrest; [| done].
  subst body. cbv beta iota zeta in Hbody.
  cbn [intervals_loop]. cbv zeta.
  destruct (SaveShort.splits_of _ _ _ _) as [splits |]; [| done].
  rewrite SplitterMore.bind_Returned in Hbody.
  destruct (pieces_loop_succeeds i (enumerate splits) st rows Hbody)
    as [st1 H1].
  rewrite H1. by apply (IH st1 rest).
Qed.

End Rows.



End ProcessOneProps.

(** ** More on short-run suppression *)

Module IslandMore.

Import CalculateSnr IslandProps.
Local Open Scope Z_scope.

Lemma in_long_run_twice (mask res : list bool) (a b : Z) (k : nat) :
  length res = length mask →
  (∀ k, res !! k = Some true ↔ in_long_run mask a k) →
  in_long_run res b k ↔ in_long_run mask (Z.max a b) k.
Proof.
  intros Hlen Hchar. split.
  - intros (x & y & Hrun & Hk & Hlong).
    pose proof Hrun as (_ & Ht & _).
    specialize (Ht k Hk).
    apply Hchar in Ht as (x' & y' & Hrun' & Hk' & Hlong').
    pose proof (long_run_kept mask res a x' y' Hlen Hchar Hrun' Hlong')
      as Hkept.
    destruct (is_run_unique res x y x' y' k Hrun Hkept Hk Hk') as [-> ->].
    exists x', y'. split_and!; [done | lia | lia | lia].
  - intros (x & y & Hrun & Hk & Hlong).
    exists x, y. split_and!; [| lia | lia | lia].
    apply (long_run_kept mask res a); [done | done | done | lia].
Qed.

(** X28: two suppressions in a row are one suppression with the larger
    of the two thresholds; and raising the threshold only clears samples,
    it never sets one. *)
Theorem merge_short_islands_compose (mask : list bool) (a b : Z) :
  (∃ once twice,
     _merge_short_islands mask a = Some once ∧
     _merge_short_islands once b = Some twice ∧
     _merge_short_islands mask (Z.max a b) = Some twice) ∧
  (a ≤ b →
   ∃ low high,
     _merge_short_islands mask a = Some low ∧
     _merge_short_islands mask b = Some high ∧
     ∀ k, high !! k = Some true → low !! k = Some true).
Proof.
  destruct (MaskMore.merge_spec mask a) as (once & Honce & Hlen & Hchar).
  split.
  - destruct (MaskMore.merge_spec once b) as (twice & Htwice & Hlen2 & Hchar2).
    destruct (MaskMore.merge_spec mask (Z.max a b))
      as (both & Hboth & Hlen3 & Hchar3).
    exists once, twice. split_and!; [done | done |].
    rewrite Hboth. f_equal. apply MaskMore.bool_list_eq; [congruence |].
    intros k. rewrite Hchar2, Hchar3.
    symmetry. by apply in_long_run_twice.
  - intros Hab.
    destruct (MaskMore.merge_spec mask b) as (high & Hhigh & Hlen2 & Hchar2).
    exists once, high. split_and!; [done | done |].
    intros k Hk. apply Hchar. apply Hchar2 in Hk as (x & y & Hrun & ? & ?).
    exists x, y. split_and!; [done | lia | lia | lia].
Qed.

Lemma merge_short_islands_compose_witness :
  ∃ low high,
    _merge_short_islands [true; false; true; true; false; true; true; true] 2
    = Some low ∧
    _merge_short_islands [true; false; true; true; false; true; true; true] 3
    = Some high ∧
    ∀ k, high !! k = Some true → low !! k = Some true.
Proof.
  apply (proj2 (merge_short_islands_compose
                  [true; false; true; true; false; true; true; true] 2 3)).
  lia.
Defined.

End IslandMore.

(** ** Download addresses of the Firebase form *)

Module FirebaseProps.

Import DownloadFromGcs DownloadAudio.
Local Open Scope string_scope.

Lemma contains_app (needle pre rest : string) :
  contains needle (pre ++ needle ++ rest) = true.
Proof.
  induction pre as [| c pre IH].
  - rewrite DownloadProps.append_nil_l, NormalizeProps.contains_unfold.
    by rewrite NormalizeProps.strip_prefix_app.
  - rewrite DownloadProps.append_cons, NormalizeProps.contains_unfold.
    destruct (strip_prefix needle _); [done |]. exact IH.
Qed.

Lemma take_line_app (a b : string) :
  take_line a = a → take_line (a ++ b) = a ++ take_line b.
Proof.
  induction a as [| c a IH]; [done |]. cbn [take_line].
  rewrite DownloadProps.append_cons. cbn [take_line].
  destruct (Ascii.eqb c newline); [done |]. intros [= H].
  rewrite DownloadProps.append_cons. by rewrite IH.
Qed.

Lemma last_qmark_app (a q : string) :
  last_qmark q = None →
  last_qmark (a ++ String "?" q) = Some (String.length a).
Proof.
  intros Hq. induction a as [| c a IH].
  - rewrite DownloadProps.append_nil_l. cbn [last_qmark]. by rewrite Hq.
  - rewrite DownloadProps.append_cons. cbn [last_qmark]. by rewrite IH.
Qed.

Lemma take_chars_app (a b : string) : take_chars (String.length a) (a ++ b) = a.
Proof.
  induction a as [| c a IH]; [by destruct b |].
  rewrite DownloadProps.append_cons. cbn [String.length take_chars].
  by rewrite IH.
Qed.

Lemma search_object_unfold (path : string) :
  search_object path
  = match strip_prefix "/o/" path
          ≫= (fun rest => group_to_qmark (take_line rest)) with
    | Some g => Some g
    | None =>
        match path with
        | "" => None
        | String _ path' => search_object path'
        end
    end.
Proof. by destruct path. Qed.

Lemma search_object_here (enc query : string) :
  enc ≠ "" → take_line enc = enc → last_qmark (take_line query) = None →
  search_object ("/o/" ++ enc ++ "?" ++ query) = Some enc.
Proof.
  intros Hne Hline Hq. rewrite search_object_unfold.
  rewrite NormalizeProps.strip_prefix_app. rewrite DownloadProps.bind_Some.
  rewrite take_line_app by done.
  change ("?" ++ query) with (String "?" query). cbn [take_line].
  change (Ascii.eqb "?" newline) with false. cbv iota.
  destruct enc as [| c e]; [done |].
  rewrite DownloadProps.append_cons. unfold group_to_qmark.
  by rewrite last_qmark_app, take_chars_app.
Qed.

Lemma search_object_skip (c : ascii) (path : string) :
  strip_prefix "/o/" (String c path) = None →
  search_object (String c path) = search_object path.
Proof. intros H. rewrite search_object_unfold. by rewrite H. Qed.

Lemma search_object_skip_bucket (bucket rest : string) :
  all_chars not_slash bucket = true →
  search_object (bucket ++ rest) = search_object rest.
Proof.
  induction bucket as [| c bucket IH]; [done |].
  rewrite DownloadProps.all_chars_cons. intros [Hc Hb]%andb_true_iff.
  rewrite DownloadProps.append_cons, search_object_skip; [by apply IH |].
  unfold not_slash in Hc. apply negb_true_iff in Hc.
  cbn [strip_prefix]. rewrite Ascii.eqb_sym. by rewrite Hc.
Qed.

(** X29: a Firebase download address, [.../v0/b/<bucket>/o/<object>?<query>],
    is normalised to its object name with the percent escapes decoded as
    UTF-8 (an ill-formed sequence becoming U+FFFD) and the surrounding white
    space removed, whatever the bucket and whatever the query (the access
    token), provided the object name is non-empty on one line and the query
    holds no [?] before its first line break. An object name without [%] is
    only stripped. *)
Theorem normalize_path_firebase (bucket enc query : string) :
  all_chars not_slash bucket = true → bucket ≠ "o" →
  enc ≠ "" → take_line enc = enc → last_qmark (take_line query) = None →
  let url := "https://firebasestorage.googleapis.com/v0/b/" ++ bucket
             ++ "/o/" ++ enc ++ "?" ++ query in
  normalize_path url = strip (unquote enc) ∧
  (contains "%" enc = false → normalize_path url = strip enc).
Proof.
  intros Hb Ho Hne Hline Hq url.
  assert (search_object url = Some enc) as Hsearch.
  { subst url.
    do 43 (rewrite DownloadProps.append_cons at 1;
           rewrite search_object_skip by reflexivity).
    rewrite DownloadProps.append_cons, DownloadProps.append_nil_l.
    rewrite search_object_skip.
    - rewrite search_object_skip_bucket by done.
      by apply search_object_here.
    - cbn [strip_prefix]. change (Ascii.eqb "/" "/") with true. cbv iota.
      destruct bucket as [| c [| d bucket]]; [done | |].
      + rewrite DownloadProps.append_cons, DownloadProps.append_nil_l.
        cbn [append strip_prefix].
        destruct (Ascii.eqb_spec "o" c) as [<- | ?]; done.
      + rewrite !DownloadProps.append_cons. cbn [strip_prefix].
        destruct (Ascii.eqb "o" c); [| done].
        rewrite !DownloadProps.all_chars_cons in Hb.
        apply andb_true_iff in Hb as [_ Hb].
        apply andb_true_iff in Hb as [Hd _].
        unfold not_slash in Hd. apply negb_true_iff in Hd.
        rewrite Ascii.eqb_sym. by rewrite Hd. }
  assert (contains "firebasestorage.googleapis.com" url = true) as Hfb.
  { subst url.
    change ("https://firebasestorage.googleapis.com/v0/b/" ++ bucket ++ "/o/"
            ++ enc ++ "?" ++ query)
      with ("https://" ++ "firebasestorage.googleapis.com"
            ++ "/v0/b/" ++ bucket ++ "/o/" ++ enc ++ "?" ++ query).
    apply contains_app. }
  assert (normalize_path url = strip (unquote enc)) as Hnorm.
  { unfold normalize_path. by rewrite Hfb, Hsearch. }
  split; [done |]. intros Hpct. rewrite Hnorm. unfold unquote.
  by rewrite Hpct.
Qed.

Lemma normalize_path_firebase_witness :
  normalize_path
    "https://firebasestorage.googleapis.com/v0/b/africa-voice-mali.appspot.com/o/assist1%2Fa%20b.wav?alt=media&token=abc"
  = "assist1/a b.wav" ∧
  normalize_path
    "https://firebasestorage.googleapis.com/v0/b/africa-voice-mali.appspot.com/o/caf%E9.wav%C2%A0?alt=media"
  = "caf" ++ replacement ++ ".wav".
Proof.
  split.
  - apply (normalize_path_firebase "africa-voice-mali.appspot.com"
             "assist1%2Fa%20b.wav" "alt=media&token=abc");
      (discriminate || reflexivity).
  - apply (normalize_path_firebase "africa-voice-mali.appspot.com"
             "caf%E9.wav%C2%A0" "alt=media");
      (discriminate || reflexivity).
Defined.

End FirebaseProps.
